(** * TrippyAI Copilot: the location-extraction pipeline

    A shallow embedding of [src/services/locationParser.ts], of the JSON
    branch of [src/components/ChatMessage.tsx] and of the effects of
    [src/components/map/MapUpdater.tsx], with the properties of the
    specification stated over it.  The stream splitter
    ([services/chat/messageProcessor]) is not among the sources: where
    one of its callers is embedded, it is a parameter.

    Further properties cover the rest of those files and their callers:
    the state handling of [src/App.tsx], the text and the city that
    [ChatMessage.tsx] derives from a message, the effect of the later
    revision of that component, and the chat endpoint [api/chat.ts].
    The other collaborators that are not among the sources are parameters
    as well.

    JavaScript values are the values [JSON.parse] can build plus
    [undefined]; strings are sequences of code units below 256; numbers are
    the rationals extended with NaN and the two infinities.  The only
    arithmetic performed on them is that of the defaults drawn from
    [Math.random]: the jitter of the rating is rounded to the nearest
    double at each operation, the product under [Math.floor] of the review
    count is exact.  A coercion to a number or to a string throws on an
    object that cannot be printed.  Built-ins and collaborators the
    sources call without defining them are fields of a [Host]; the
    theorems hold for every host. *)

From Stdlib Require Import String Ascii List Bool Arith ZArith QArith Qround Lia.
From Stdlib Require Import Qabs Qpower Lqa.
From Stdlib Require Import Decimal DecimalString DecimalNat DecimalZ.
Import ListNotations.

Set Warnings "-register-all".

Close Scope Q_scope.
Local Open Scope nat_scope.
Local Open Scope list_scope.
Local Open Scope string_scope.

(* ================================================================== *)
(** ** JavaScript values *)
(* ================================================================== *)

Module Js.

(** A JavaScript number. *)
Inductive JsNum : Type :=
| NaN
| PInf
| NInf
| Fin (q : Q).

(** The values reachable from [JSON.parse], and [undefined].  An object
    lists its own properties in insertion order. *)
Inductive JsVal : Type :=
| JUndefined
| JNull
| JBool (b : bool)
| JNum (n : JsNum)
| JStr (s : string)
| JArr (items : list JsVal)
| JObj (fields : list (string * JsVal)).

Definition num (z : Z) : JsNum := Fin (inject_Z z).

(** [a <= b] on numbers: false as soon as one side is NaN. *)
Definition num_le (a b : JsNum) : bool :=
  match a, b with
  | NaN, _ | _, NaN => false
  | NInf, _ => true
  | _, PInf => true
  | Fin x, Fin y => Qle_bool x y
  | _, _ => false
  end.

(** [a >= b]. *)
Definition num_ge (a b : JsNum) : bool := num_le b a.

Definition num_isNaN (a : JsNum) : bool :=
  match a with NaN => true | _ => false end.

(** ToBoolean on a number: [0], [-0] and NaN are falsy. *)
Definition num_truthy (a : JsNum) : bool :=
  match a with
  | NaN => false
  | Fin q => negb (Qeq_bool q 0%Q)
  | _ => true
  end.

(** ToBoolean. *)
Definition truthy (v : JsVal) : bool :=
  match v with
  | JUndefined | JNull => false
  | JBool b => b
  | JNum n => num_truthy n
  | JStr s => negb (String.eqb s "")
  | JArr _ | JObj _ => true
  end.

(** [a || b] *)
Definition or_else (a b : JsVal) : JsVal := if truthy a then a else b.

(** [v != null] *)
Definition not_nullish (v : JsVal) : bool :=
  match v with JUndefined | JNull => false | _ => true end.

Definition isArray (v : JsVal) : bool :=
  match v with JArr _ => true | _ => false end.

Definition typeof_number (v : JsVal) : bool :=
  match v with JNum _ => true | _ => false end.

Fixpoint assoc (k : string) (fields : list (string * JsVal)) : option JsVal :=
  match fields with
  | [] => None
  | (k', v) :: rest => if String.eqb k k' then Some v else assoc k rest
  end.

(** CreateDataProperty: a later binding of a key replaces the earlier
    one and keeps its place. *)
Fixpoint obj_set (k : string) (v : JsVal) (fields : list (string * JsVal))
  : list (string * JsVal) :=
  match fields with
  | [] => [(k, v)]
  | (k', v') :: rest =>
      if String.eqb k k' then (k, v) :: rest else (k', v') :: obj_set k v rest
  end.

(** [v.k] for a key [k] that no prototype defines ([name], [coordinates],
    [rating], ...): [None] is the TypeError raised on [null] and
    [undefined]. *)
Definition get (v : JsVal) (k : string) : option JsVal :=
  match v with
  | JUndefined | JNull => None
  | JObj fields =>
      Some (match assoc k fields with Some x => x | None => JUndefined end)
  | _ => Some JUndefined
  end.

Definition index_key (i : nat) : string :=
  NilEmpty.string_of_uint (Nat.to_uint i).

(** [v[i]] for a literal index [i]; [None] is the TypeError raised on
    [null] and [undefined]. *)
Definition get_index (v : JsVal) (i : nat) : option JsVal :=
  match v with
  | JUndefined | JNull => None
  | JArr items => Some (nth i items JUndefined)
  | JStr s =>
      Some (match String.get i s with
            | Some c => JStr (String c "")
            | None => JUndefined
            end)
  | JObj fields =>
      Some (match assoc (index_key i) fields with
            | Some x => x
            | None => JUndefined
            end)
  | _ => Some JUndefined
  end.

(** The double quote, and a way to write texts that contain it: [dq]
    turns every apostrophe of its argument into a double quote. *)
Definition DQ : ascii := ascii_of_nat 34.

Fixpoint dq (s : string) : string :=
  match s with
  | String c s' => String (if Ascii.eqb c "'" then DQ else c) (dq s')
  | EmptyString => EmptyString
  end.

(** WhiteSpace and LineTerminator code units below 256: what [\s]
    matches and what [trim] strips. *)
Definition is_space (c : ascii) : bool :=
  let n := nat_of_ascii c in
  (((9 <=? n) && (n <=? 13)) || (n =? 32) || (n =? 160))%nat.

Fixpoint trimStart (s : string) : string :=
  match s with
  | String c s' => if is_space c then trimStart s' else s
  | EmptyString => EmptyString
  end.

Fixpoint trimEnd (s : string) : string :=
  match s with
  | String c s' =>
      match trimEnd s' with
      | EmptyString => if is_space c then EmptyString else String c EmptyString
      | t => String c t
      end
  | EmptyString => EmptyString
  end.

(** [String.prototype.trim] *)
Definition trim (s : string) : string := trimEnd (trimStart s).

Fixpoint join (sep : string) (parts : list string) : string :=
  match parts with
  | [] => ""
  | [p] => p
  | p :: rest => p ++ sep ++ join sep rest
  end.

Section Coercions.

(** Number::toString and StringToNumber are left to the host. *)
Variable NumberToString : JsNum -> string.
Variable StringToNumber : string -> JsNum.

(** ToString on a value that ToPrimitive accepts (see [printable]
    below).  An array joins its elements with a comma, printing [null]
    and [undefined] as the empty string. *)
Fixpoint ToString (v : JsVal) : string :=
  match v with
  | JUndefined => "undefined"
  | JNull => "null"
  | JBool true => "true"
  | JBool false => "false"
  | JNum n => NumberToString n
  | JStr s => s
  | JArr items =>
      join ","
        (map (fun x => match x with
                       | JUndefined | JNull => ""
                       | _ => ToString x
                       end) items)
  | JObj _ => "[object Object]"
  end.

(** ToNumber on a value that ToPrimitive accepts, which is what
    [Number(v)] then computes. *)
Definition ToNumber (v : JsVal) : JsNum :=
  match v with
  | JUndefined => NaN
  | JNull => num 0
  | JBool true => num 1
  | JBool false => num 0
  | JNum n => n
  | JStr s => StringToNumber s
  | JArr _ | JObj _ => StringToNumber (ToString v)
  end.

End Coercions.

(** ToPrimitive on a value of JSON.  No such value is callable, so an
    object that has a key [toString] of its own is left without a method
    to print it ([Object.prototype.valueOf] returns the object itself),
    and ToString and ToNumber throw a TypeError on it.  An array is
    printed by [join], which prints each of its elements, so it passes
    when they all do. *)
Fixpoint printable (v : JsVal) : bool :=
  match v with
  | JArr items => forallb printable items
  | JObj fields =>
      match assoc "toString" fields with
      | Some _ => false
      | None => true
      end
  | _ => true
  end.

End Js.
Export Js.

(* ================================================================== *)
(** ** Regular expressions *)
(* ================================================================== *)

(** The backtracking matcher of ECMAScript for the constructs the three
    patterns of [locationParser.ts] use.  Every quantifier of those
    patterns applies to a single character class, so the quantifiers carry
    a class. *)
Module Regex.

Inductive Regex : Type :=
| Eps
| Chr (c : ascii)
| Lit (w : string)
| Cls (p : ascii -> bool)
| Star (p : ascii -> bool)
| Plus (p : ascii -> bool)
| StarLazy (p : ascii -> bool)
| PlusLazy (p : ascii -> bool)
| Seq (r1 r2 : Regex)
| Alt (r1 r2 : Regex)
| Group (i : nat) (r : Regex)
| Eos.

Definition seq (rs : list Regex) : Regex := fold_right Seq Eps rs.

(** Captures, most recent first. *)
Definition Caps := list (nat * string).

Fixpoint capture (i : nat) (caps : Caps) : option string :=
  match caps with
  | [] => None
  | (j, w) :: rest => if Nat.eqb i j then Some w else capture i rest
  end.

(** What was read between the input [s] and its suffix [rest]. *)
Definition consumed (s rest : string) : string :=
  substring 0 (String.length s - String.length rest) s.

Fixpoint strip_prefix (w s : string) : option string :=
  match w, s with
  | EmptyString, _ => Some s
  | String a w', String b s' => if Ascii.eqb a b then strip_prefix w' s' else None
  | String _ _, EmptyString => None
  end.

Section Matcher.

Variable R : Type.

(** [p*]: as many as possible first, then one fewer, ... *)
Fixpoint star_greedy (p : ascii -> bool) (s : string) (k : string -> option R)
  : option R :=
  match s with
  | String c s' =>
      if p c then
        match star_greedy p s' k with
        | Some r => Some r
        | None => k s
        end
      else k s
  | EmptyString => k s
  end.

(** [p*?]: as few as possible first, then one more, ... *)
Fixpoint star_lazy (p : ascii -> bool) (s : string) (k : string -> option R)
  : option R :=
  match k s with
  | Some r => Some r
  | None =>
      match s with
      | String c s' => if p c then star_lazy p s' k else None
      | EmptyString => None
      end
  end.

Fixpoint run (r : Regex) (s : string) (caps : Caps)
  (k : string -> Caps -> option R) {struct r} : option R :=
  match r with
  | Eps => k s caps
  | Chr c =>
      match s with
      | String c' s' => if Ascii.eqb c c' then k s' caps else None
      | EmptyString => None
      end
  | Lit w =>
      match strip_prefix w s with
      | Some s' => k s' caps
      | None => None
      end
  | Cls p =>
      match s with
      | String c s' => if p c then k s' caps else None
      | EmptyString => None
      end
  | Star p => star_greedy p s (fun s' => k s' caps)
  | Plus p =>
      match s with
      | String c s' => if p c then star_greedy p s' (fun s'' => k s'' caps) else None
      | EmptyString => None
      end
  | StarLazy p => star_lazy p s (fun s' => k s' caps)
  | PlusLazy p =>
      match s with
      | String c s' => if p c then star_lazy p s' (fun s'' => k s'' caps) else None
      | EmptyString => None
      end
  | Seq r1 r2 => run r1 s caps (fun s' caps' => run r2 s' caps' k)
  | Alt r1 r2 =>
      match run r1 s caps k with
      | Some x => Some x
      | None => run r2 s caps k
      end
  | Group i r1 =>
      run r1 s caps (fun s' caps' => k s' ((i, consumed s s') :: caps'))
  | Eos =>
      match s with
      | EmptyString => k s caps
      | String _ _ => None
      end
  end.

End Matcher.

(** A match anchored at the start of [s]: the captures and what is left
    of the input. *)
Definition match_here (r : Regex) (s : string) : option (string * Caps) :=
  run (string * Caps) r s [] (fun rest caps => Some (rest, caps)).

Record Match : Type := mkMatch {
  m_text : string;
  m_groups : Caps
}.

(** [r.exec(text)] on the part of the text that starts at [lastIndex]:
    the leftmost match, and the text that follows it (where the next
    [lastIndex] points). *)
Fixpoint search_from (r : Regex) (s : string) : option (Match * string) :=
  match match_here r s with
  | Some (rest, caps) => Some (mkMatch (consumed s rest) caps, rest)
  | None =>
      match s with
      | String _ s' => search_from r s'
      | EmptyString => None
      end
  end.

(** [text.match(r)], of which the source reads element 0: the leftmost
    match, with or without the flag g. *)
Definition search (r : Regex) (s : string) : option Match :=
  match search_from r s with
  | Some (m, _) => Some m
  | None => None
  end.

(** [while ((m = r.exec(text)) !== null)] for a global [r]: the matches
    the loop visits, each search resuming where the previous match
    ended.  [fuel] bounds the number of turns. *)
Fixpoint exec_loop (fuel : nat) (r : Regex) (s : string) : list Match :=
  match fuel with
  | O => []
  | S fuel' =>
      match search_from r s with
      | Some (m, rest) => m :: exec_loop fuel' r rest
      | None => []
      end
  end.

(** A pattern that cannot match the empty string consumes a character
    per turn, so the loop takes at most as many turns as the text has
    characters (see [exec_loop_fuel]). *)
Definition exec_all (r : Regex) (s : string) : list Match :=
  exec_loop (S (String.length s)) r s.

(** The least number of characters a match of [r] consumes. *)
Fixpoint min_len (r : Regex) : nat :=
  match r with
  | Eps | Eos | Star _ | StarLazy _ => 0
  | Chr _ | Cls _ | Plus _ | PlusLazy _ => 1
  | Lit w => String.length w
  | Seq r1 r2 => min_len r1 + min_len r2
  | Alt r1 r2 => Nat.min (min_len r1) (min_len r2)
  | Group _ r1 => min_len r1
  end.

(** Character classes. *)
Definition any (_ : ascii) : bool := true.
Definition is_char (c d : ascii) : bool := Ascii.eqb c d.
Definition none_of (cs : list ascii) (d : ascii) : bool :=
  negb (existsb (Ascii.eqb d) cs).
Definition one_of (cs : list ascii) (d : ascii) : bool :=
  existsb (Ascii.eqb d) cs.
Definition digit (c : ascii) : bool :=
  let n := nat_of_ascii c in ((48 <=? n) && (n <=? 57))%nat.
Definition LF : ascii := ascii_of_nat 10.
Definition CR : ascii := ascii_of_nat 13.
(** [.] *)
Definition dot : ascii -> bool := none_of [LF; CR].

End Regex.

(* ================================================================== *)
(** ** JSON texts *)
(* ================================================================== *)

(** An executable reading of the JSON grammar, used to run the entry
    points on concrete texts.  The general theorems do not depend on it:
    they hold for whatever [JSON.parse] the host provides. *)
Module Json.

Definition is_ws (c : ascii) : bool :=
  let n := nat_of_ascii c in
  ((n =? 32) || (n =? 9) || (n =? 10) || (n =? 13))%nat.

Fixpoint skip_ws (s : string) : string :=
  match s with
  | String c s' => if is_ws c then skip_ws s' else s
  | EmptyString => EmptyString
  end.

Definition digit_val (c : ascii) : Z := Z.of_nat (nat_of_ascii c - 48).

(** Reads a run of digits: its value on top of [acc], how many digits
    there were, and the rest. *)
Fixpoint digits (s : string) (acc : Z) (n : nat) : Z * nat * string :=
  match s with
  | String c s' =>
      if Regex.digit c then digits s' (acc * 10 + digit_val c)%Z (S n)
      else (acc, n, s)
  | EmptyString => (acc, n, s)
  end.

Definition starts_with (c : ascii) (s : string) : option string :=
  match s with
  | String d s' => if Ascii.eqb c d then Some s' else None
  | EmptyString => None
  end.

(** The rational written as [mant * 10^e10]. *)
Definition decimal (mant e10 : Z) : Q :=
  Qred (if (0 <=? e10)%Z
        then inject_Z (mant * 10 ^ e10)
        else Qmake mant (Z.to_pos (10 ^ (- e10)))).

Definition parse_number (s : string) : option (JsNum * string) :=
  let '(neg, s1) :=
    match starts_with "-" s with Some r => (true, r) | None => (false, s) end in
  let int_part :=
    match starts_with "0" s1 with
    | Some r => Some (0%Z, r)
    | None =>
        match digits s1 0%Z 0 with
        | (_, O, _) => None
        | (v, S _, r) => Some (v, r)
        end
    end in
  match int_part with
  | None => None
  | Some (iv, s2) =>
      let frac_part :=
        match starts_with "." s2 with
        | Some r =>
            match digits r iv 0 with
            | (_, O, _) => None
            | (v, S n, r') => Some (v, S n, r')
            end
        | None => Some (iv, O, s2)
        end in
      match frac_part with
      | None => None
      | Some (mant, fn, s3) =>
          let exp_part :=
            match s3 with
            | String c r =>
                if Ascii.eqb c "e" || Ascii.eqb c "E" then
                  let '(eneg, r1) :=
                    match starts_with "-" r with
                    | Some r' => (true, r')
                    | None =>
                        match starts_with "+" r with
                        | Some r' => (false, r')
                        | None => (false, r)
                        end
                    end in
                  match digits r1 0%Z 0 with
                  | (_, O, _) => None
                  | (ev, S _, r2) => Some (if eneg then (- ev)%Z else ev, r2)
                  end
                else Some (0%Z, s3)
            | EmptyString => Some (0%Z, s3)
            end in
          match exp_part with
          | None => None
          | Some (ev, s4) =>
              let m := if neg then (- mant)%Z else mant in
              Some (Fin (decimal m (ev - Z.of_nat fn)), s4)
          end
      end
  end.

Definition hex_val (c : ascii) : option nat :=
  let n := nat_of_ascii c in
  if ((48 <=? n) && (n <=? 57))%nat then Some (n - 48)
  else if ((65 <=? n) && (n <=? 70))%nat then Some (n - 55)
  else if ((97 <=? n) && (n <=? 102))%nat then Some (n - 87)
  else None.

Definition escape (e : ascii) : option ascii :=
  if Ascii.eqb e DQ then Some DQ
  else if Ascii.eqb e "\" then Some "\"%char
  else if Ascii.eqb e "/" then Some "/"%char
  else if Ascii.eqb e "b" then Some (ascii_of_nat 8)
  else if Ascii.eqb e "f" then Some (ascii_of_nat 12)
  else if Ascii.eqb e "n" then Some (ascii_of_nat 10)
  else if Ascii.eqb e "r" then Some (ascii_of_nat 13)
  else if Ascii.eqb e "t" then Some (ascii_of_nat 9)
  else None.

(** The characters of a string literal after its opening quote.  A
    [\u] escape is read when it denotes a code unit below 256. *)
Fixpoint parse_string_body (s : string) : option (string * string) :=
  match s with
  | EmptyString => None
  | String c r =>
      if Ascii.eqb c DQ then Some ("", r)
      else if Ascii.eqb c "\" then
        match r with
        | String e r1 =>
            if Ascii.eqb e "u" then
              match r1 with
              | String h1 (String h2 (String h3 (String h4 r2))) =>
                  match hex_val h1, hex_val h2, hex_val h3, hex_val h4 with
                  | Some 0, Some 0, Some a, Some b =>
                      match parse_string_body r2 with
                      | Some (t, rest) => Some (String (ascii_of_nat (16 * a + b)) t, rest)
                      | None => None
                      end
                  | _, _, _, _ => None
                  end
              | _ => None
              end
            else
              match escape e with
              | Some d =>
                  match parse_string_body r1 with
                  | Some (t, rest) => Some (String d t, rest)
                  | None => None
                  end
              | None => None
              end
        | EmptyString => None
        end
      else if (nat_of_ascii c <? 32)%nat then None
      else
        match parse_string_body r with
        | Some (t, rest) => Some (String c t, rest)
        | None => None
        end
  end.

Fixpoint parse_value (fuel : nat) (s : string) : option (JsVal * string) :=
  match fuel with
  | O => None
  | S f =>
      match skip_ws s with
      | EmptyString => None
      | String c r as s1 =>
          if Ascii.eqb c "{" then
            match starts_with "}" (skip_ws r) with
            | Some r' => Some (JObj [], r')
            | None => parse_members f r []
            end
          else if Ascii.eqb c "[" then
            match starts_with "]" (skip_ws r) with
            | Some r' => Some (JArr [], r')
            | None => parse_elements f r []
            end
          else if Ascii.eqb c DQ then
            match parse_string_body r with
            | Some (t, r') => Some (JStr t, r')
            | None => None
            end
          else
            match Regex.strip_prefix "true" s1, Regex.strip_prefix "false" s1,
                  Regex.strip_prefix "null" s1 with
            | Some r', _, _ => Some (JBool true, r')
            | _, Some r', _ => Some (JBool false, r')
            | _, _, Some r' => Some (JNull, r')
            | None, None, None =>
                match parse_number s1 with
                | Some (n, r') => Some (JNum n, r')
                | None => None
                end
            end
      end
  end

with parse_elements (fuel : nat) (s : string) (acc : list JsVal)
  : option (JsVal * string) :=
  match fuel with
  | O => None
  | S f =>
      match parse_value f s with
      | Some (v, r) =>
          match starts_with "," (skip_ws r), starts_with "]" (skip_ws r) with
          | Some r', _ => parse_elements f r' (acc ++ [v])%list
          | None, Some r' => Some (JArr (acc ++ [v])%list, r')
          | None, None => None
          end
      | None => None
      end
  end

with parse_members (fuel : nat) (s : string) (acc : list (string * JsVal))
  : option (JsVal * string) :=
  match fuel with
  | O => None
  | S f =>
      match starts_with DQ (skip_ws s) with
      | Some r =>
          match parse_string_body r with
          | Some (k, r1) =>
              match starts_with ":" (skip_ws r1) with
              | Some r2 =>
                  match parse_value f r2 with
                  | Some (v, r3) =>
                      match starts_with "," (skip_ws r3),
                            starts_with "}" (skip_ws r3) with
                      | Some r4, _ => parse_members f r4 (obj_set k v acc)
                      | None, Some r4 => Some (JObj (obj_set k v acc), r4)
                      | None, None => None
                      end
                  | None => None
                  end
              | None => None
              end
          | None => None
          end
      | None => None
      end
  end.

(** [JSON.parse(text)]; [None] is the SyntaxError. *)
Definition parse (text : string) : option JsVal :=
  match parse_value (2 * String.length text + 2) text with
  | Some (v, rest) =>
      match skip_ws rest with
      | EmptyString => Some v
      | String _ _ => None
      end
  | None => None
  end.

End Json.

(* ================================================================== *)
(** ** The host: built-ins, collaborators, clock and random source *)
(* ================================================================== *)

(** [Location.position] of [types/chat]. *)
Record Position : Type := mkPosition {
  lat : JsVal;
  lng : JsVal
}.

(** The [Location] objects built by [extractLocationsFromResponse],
    [parseTextLocations] and [ChatMessage]; a key the builder does not
    write is [JUndefined]. *)
Record Location : Type := mkLocation {
  id : string;
  name : JsVal;
  city : JsVal;
  country : JsVal;
  position : Position;
  rating : JsVal;
  reviews : JsVal;
  imageUrl : JsVal;
  description : JsVal
}.

(** What the code calls and does not define.  A collaborator returns
    [None] when it throws.  [Date_now n] is the clock as read by the
    [n]-th call of [Date.now()], [Math_random n] the [n]-th draw. *)
Record Host : Type := mkHost {
  JSON_parse : string -> option JsVal;
  NumberToString : JsNum -> string;
  StringToNumber : string -> JsNum;
  encodeURIComponent : string -> option string;
  Date_now : nat -> Z;
  Math_random : nat -> Q;
  generateImageUrl : JsVal -> option JsVal;
  getCoordinates : string -> option Position;
  getLocationDescription : string -> option JsVal
}.

(** [Math.random()] returns a number in [[0, 1)]. *)
Definition random_in_unit (h : Host) : Prop :=
  forall n, (0 <= Math_random h n)%Q /\ (Math_random h n < 1)%Q.

(** What a [throw] carries. *)
Inductive Thrown : Type :=
| TypeError
| SyntaxError
| URIError
| CollaboratorError
| NoValidLocations
    (* Error('No valid locations found in text') *)
| InvalidCoordinates (name : JsVal).
    (* Error(`Invalid coordinates for location: ${name}`) *)

Inductive Outcome (A : Type) : Type :=
| Ok (a : A)
| Throw (e : Thrown).
Arguments Ok {A} a.
Arguments Throw {A} e.

(** How many times the clock and the random source were read. *)
Record Calls : Type := mkCalls {
  clock_reads : nat;
  random_draws : nat
}.

Definition start : Calls := mkCalls 0 0.

(** A computation that reads the clock or the random source and may
    throw. *)
Definition M (A : Type) : Type := Calls -> Outcome A * Calls.

Definition ret {A} (a : A) : M A := fun c => (Ok a, c).

Definition throw {A} (e : Thrown) : M A := fun c => (Throw e, c).

Definition bind {A B} (m : M A) (k : A -> M B) : M B :=
  fun c =>
    match m c with
    | (Ok a, c') => k a c'
    | (Throw e, c') => (Throw e, c')
    end.

Notation "x <- m ;; k" := (bind m (fun x => k))
  (at level 61, m at next level, right associativity).

(** [try { m } catch (error) { handler }] *)
Definition try_catch {A} (m : M A) (handler : Thrown -> M A) : M A :=
  fun c =>
    match m c with
    | (Ok a, c') => (Ok a, c')
    | (Throw e, c') => handler e c'
    end.

(** A partial operation that throws [e] where it is undefined. *)
Definition or_throw {A} (e : Thrown) (o : option A) : M A :=
  match o with
  | Some a => ret a
  | None => throw e
  end.

(** [Array.prototype.map]: the callback receives the element and its
    index, elements are visited in order and the first throw ends the
    visit. *)
Fixpoint map_from {A B} (f : A -> nat -> M B) (l : list A) (i : nat) : M (list B) :=
  match l with
  | [] => ret []
  | a :: rest =>
      b <- f a i ;;
      bs <- map_from f rest (S i) ;;
      ret (b :: bs)
  end.

Definition array_map {A B} (f : A -> nat -> M B) (l : list A) : M (list B) :=
  map_from f l 0.

(** [Array.prototype.filter]: the predicate is called on every element,
    in order, and the first throw ends the visit. *)
Fixpoint array_filter {A} (f : A -> M bool) (l : list A) : M (list A) :=
  match l with
  | [] => ret []
  | a :: rest =>
      keep <- f a ;;
      kept <- array_filter f rest ;;
      ret (if keep then a :: kept else kept)
  end.

Section HostOps.

Variable h : Host.

(** [Date.now()] *)
Definition now : M Z :=
  fun c => (Ok (Date_now h (clock_reads c)),
            mkCalls (S (clock_reads c)) (random_draws c)).

(** [Math.random()] *)
Definition random : M Q :=
  fun c => (Ok (Math_random h (random_draws c)),
            mkCalls (clock_reads c) (S (random_draws c))).

(** What [Number(v)] returns when it returns. *)
Definition Number (v : JsVal) : JsNum :=
  ToNumber (NumberToString h) (StringToNumber h) v.

(** What [`${v}`] is when the literal can be built. *)
Definition str (v : JsVal) : string := ToString (NumberToString h) v.

(** [Number(v)], [isNaN(v)] and the comparison of [v] with a number:
    ToNumber, with the TypeError of ToPrimitive. *)
Definition to_number (v : JsVal) : M JsNum :=
  if printable v then ret (Number v) else throw TypeError.

(** [`${v}`] and [v + ' ...']: ToString, with the TypeError of
    ToPrimitive. *)
Definition to_string (v : JsVal) : M string :=
  if printable v then ret (str v) else throw TypeError.

End HostOps.

(** The decimal digits of an index, and of the integer [Date.now()]
    returns, as a template literal prints them. *)
Definition string_of_nat (n : nat) : string :=
  NilEmpty.string_of_uint (Nat.to_uint n).

Definition string_of_Z (z : Z) : string :=
  NilEmpty.string_of_int (Z.to_int z).

(** [Math.floor(r * 40000) + 10000] *)
Definition random_reviews (r : Q) : Z := (Qfloor (r * 40000) + 10000)%Z.

(** *** Binary64 rounding

    The sum and the product of [4.5 + Math.random() * 0.5] are each
    rounded to the nearest double, ties to even.  Magnitudes at or above
    [2^1024], which would round to an infinity, do not occur there. *)
Module Binary64.

Definition pow2 (k : Z) : Q := (2 ^ k)%Q.

(** The nearest integer, the even one of two that are equally near. *)
Definition nearest_even (q : Q) : Z :=
  let f := Qfloor q in
  match Qcompare (q - inject_Z f) (1 # 2) with
  | Lt => f
  | Gt => (f + 1)%Z
  | Eq => if Z.even f then f else (f + 1)%Z
  end.

(** The integer part of the binary logarithm of a positive rational. *)
Definition ilog2 (q : Q) : Z :=
  let k := (Z.log2 (Qnum q) - Z.log2 (Zpos (Qden q)))%Z in
  if Qle_bool (pow2 k) q then k else (k - 1)%Z.

(** The exponent of the last place: 53 significant bits, and no place
    below [2^-1074]. *)
Definition exponent (q : Q) : Z := Z.max (ilog2 (Qabs q) - 52) (-1074).

Definition round (q : Q) : Q :=
  if Qeq_bool q 0 then 0%Q
  else (inject_Z (nearest_even (q / pow2 (exponent q))) * pow2 (exponent q))%Q.

End Binary64.

(** [4.5 + r * 0.5] *)
Definition random_rating (r : Q) : Q :=
  Binary64.round ((9 # 2) + Binary64.round (r * (1 # 2)))%Q.

(* ================================================================== *)
(** ** src/services/locationParser.ts *)
(* ================================================================== *)

(** The object literal [parseJsonLocations] returns: it writes the keys
    [coordinates] and [image], where the other builders write [position]
    and [imageUrl]. *)
Module JsonLocation.
Record t : Type := make {
  id : string;
  name : string;
  coordinates : JsVal;
  rating : JsNum;
  reviews : JsNum;
  description : string;
  image : JsVal
}.
End JsonLocation.

Module LocationParser.

Import Regex.

Definition isValidCoordinates (coords : JsVal) : bool :=
  match coords with
  | JArr items =>
      if negb (length items =? 2)%nat then false
      else
        match nth 0 items JUndefined, nth 1 items JUndefined with
        | JNum lat, JNum lng =>
            num_ge lat (num (-90)) && num_le lat (num 90) &&
            num_ge lng (num (-180)) && num_le lng (num 180)
        | _, _ => false
        end
  | _ => false
  end.

(** The first pattern of [parseJsonLocations] (line 29): an opening
    brace, the key [locations] in double quotes and its colon, an opening
    bracket, as few characters as possible, a closing bracket and a
    closing brace, white space being allowed around the key and before
    the closing brace. *)
Definition locations_block : Regex :=
  seq [Chr "{"; Star is_space; Lit (dq "'locations':"); Star is_space;
       Chr "["; StarLazy any; Chr "]"; Star is_space; Chr "}"].

(** The second pattern (line 30, flag g): a single object that starts
    with a [name] string and a [coordinates] array.  Its coordinates part
    is written bracket, caret, bracket, bracket, plus: in ECMAScript the
    class made of a lone caret accepts every character, so this reads one
    character and then one or more closing brackets, before the escaped
    closing bracket. *)
Definition single_location : Regex :=
  seq [Chr "{"; Star is_space; Lit (dq "'name':"); Star is_space;
       Chr DQ; Plus (none_of [DQ]); Lit (dq "',"); Star is_space;
       Lit (dq "'coordinates':"); Star is_space;
       Chr "["; Cls any; Plus (is_char "]"); Chr "]"; StarLazy dot; Chr "}"].

Definition patterns : list Regex := [locations_block; single_location].

(** The pattern of [extractLocationsFromResponse] (line 179): the first
    pattern with a capturing group around the content of the array. *)
Definition locations_block_captured : Regex :=
  seq [Chr "{"; Star is_space; Lit (dq "'locations':"); Star is_space;
       Chr "["; Group 1 (StarLazy any); Chr "]"; Star is_space; Chr "}"].

(** [LOCATION_PATTERN] (line 141, flag g).  Group 1: digits, a dot and
    white space.  Group 2, the name: one or more characters other than a
    dash and a line feed, as few as possible.  Then either a dash with
    white space allowed around it, group 3 (the description: one or more
    characters other than a line feed and a dot) and a dot or a line feed;
    or the end of the text. *)
Definition LOCATION_PATTERN : Regex :=
  seq [Group 1 (seq [Plus digit; Chr "."; Star is_space]);
       Group 2 (PlusLazy (none_of ["-"%char; LF]));
       Alt (seq [Star is_space; Chr "-"; Star is_space;
                 Group 3 (Plus (none_of [LF; "."%char]));
                 Cls (one_of ["."%char; LF])])
           Eos].

Section WithHost.

Variable h : Host.

(** The [for (const pattern of patterns)] loop: the array left in
    [locations] when the loop ends.  A pattern that does not match, or
    whose match does not parse, is passed over; the inner [try] also
    covers the read of [parsed.locations]. *)
Fixpoint first_parsed (ps : list Regex) (text : string) : list JsVal :=
  match ps with
  | [] => []
  | pattern :: rest =>
      match search pattern text with
      | None => first_parsed rest text
      | Some matches =>
          match JSON_parse h (m_text matches) with
          | None => first_parsed rest text
          | Some parsed =>
              match get parsed "locations" with
              | None => first_parsed rest text
              | Some (JArr items) => items
              | Some _ => [parsed]
              end
          end
      end
  end.

(** [n || 0] *)
Definition or_zero (n : JsNum) : JsNum := if num_truthy n then n else num 0.

(** [Number(v) || 0] *)
Definition number_or_zero (v : JsVal) : M JsNum :=
  n <- to_number h v ;;
  ret (or_zero n).

(** The callback [parseJsonLocations] maps over the raw locations. *)
Definition json_location (loc : JsVal) (index : nat) : M JsonLocation.t :=
  coords <- or_throw TypeError (get loc "coordinates") ;;
  if negb (isValidCoordinates coords) then
    nm <- or_throw TypeError (get loc "name") ;;
    _ <- to_string h nm ;;
    throw (InvalidCoordinates nm)
  else
    t <- now h ;;
    nm <- or_throw TypeError (get loc "name") ;;
    trimmed <- match nm with
               | JStr s => ret (trim s)
               | _ => throw TypeError
               end ;;
    coordinates <- or_throw TypeError (get loc "coordinates") ;;
    rating0 <- or_throw TypeError (get loc "rating") ;;
    rating <- number_or_zero rating0 ;;
    reviews0 <- or_throw TypeError (get loc "reviews") ;;
    reviews <- number_or_zero reviews0 ;;
    d <- or_throw TypeError (get loc "description") ;;
    description <- match d with
                   | JUndefined | JNull => ret ""
                   | JStr s => ret (trim s)
                   | _ => throw TypeError
                   end ;;
    img <- or_throw TypeError (get loc "image") ;;
    image <- (if truthy img then ret img
              else or_throw CollaboratorError (generateImageUrl h nm)) ;;
    ret (JsonLocation.make
           (string_of_Z t ++ "-loc-" ++ string_of_nat index)
           trimmed coordinates rating reviews description image).

(** [parseJsonLocations(text)]; the outer [catch] logs and rethrows. *)
Definition parseJsonLocations (text : string) : M (list JsonLocation.t) :=
  let locations := first_parsed patterns text in
  if (length locations =? 0)%nat then throw NoValidLocations
  else array_map json_location locations.

(** The callback [extractLocationsFromResponse] maps over
    [data.locations]. *)
Definition response_location (loc : JsVal) (index : nat) : M Location :=
  t <- now h ;;
  nm <- or_throw TypeError (get loc "name") ;;
  coordinates <- or_throw TypeError (get loc "coordinates") ;;
  lat0 <- or_throw TypeError (get_index coordinates 0) ;;
  lng0 <- or_throw TypeError (get_index coordinates 1) ;;
  rating0 <- or_throw TypeError (get loc "rating") ;;
  reviews0 <- or_throw TypeError (get loc "reviews") ;;
  reviews1 <- (if truthy reviews0 then ret reviews0
               else r <- random h ;;
                    ret (JNum (num (random_reviews r)))) ;;
  img <- or_throw TypeError (get loc "image") ;;
  imageUrl1 <- (if truthy img then ret img
                else or_throw CollaboratorError (generateImageUrl h nm)) ;;
  d <- or_throw TypeError (get loc "description") ;;
  description1 <- (if truthy d then ret d
                   else s <- to_string h nm ;;
                        ret (JStr ("Visit " ++ s))) ;;
  ret (mkLocation
         ("loc-" ++ string_of_Z t ++ "-" ++ string_of_nat index)
         nm JUndefined JUndefined
         (mkPosition lat0 lng0)
         (or_else rating0 (JNum (Fin (9 # 2))))
         reviews1 imageUrl1 description1).

(** [extractLocationsFromResponse(text)]: whatever is thrown inside is
    caught and answered with the empty array. *)
Definition extractLocationsFromResponse (text : string) : M (list Location) :=
  try_catch
    (match search locations_block_captured text with
     | None => ret []
     | Some jsonMatch =>
         data <- or_throw SyntaxError (JSON_parse h (m_text jsonMatch)) ;;
         locations <- or_throw TypeError (get data "locations") ;;
         match locations with
         | JArr items => array_map response_location items
         | _ => ret []
         end
     end)
    (fun _ => ret []).

(** One turn of the [while] loop of [parseTextLocations] on a match:
    [None] is the [continue]. *)
Definition text_location (m : Match) (count : nat) : M (option Location) :=
  match capture 2 (m_groups m) with
  | None => ret None
  | Some nm =>
      if (String.length nm <? 2)%nat then ret None
      else
        let cleanName := trim nm in
        coordinates <- or_throw CollaboratorError (getCoordinates h cleanName) ;;
        knownDescription <-
          or_throw CollaboratorError (getLocationDescription h cleanName) ;;
        t <- now h ;;
        r1 <- random h ;;
        r2 <- random h ;;
        img <- or_throw CollaboratorError (generateImageUrl h (JStr cleanName)) ;;
        ret (Some (mkLocation
                     ("loc-" ++ string_of_Z t ++ "-" ++ string_of_nat count)
                     (JStr cleanName) JUndefined JUndefined
                     coordinates
                     (JNum (Fin (random_rating r1)))
                     (JNum (num (random_reviews r2)))
                     img
                     (or_else (match capture 3 (m_groups m) with
                               | Some d => JStr d
                               | None => JUndefined
                               end)
                              knownDescription)))
  end.

(** The [while] loop inside its [try]: [locations] is the array filled
    so far.  A throw leaves the loop with the array as it stands. *)
Fixpoint scan (ms : list Match) (locations : list Location) (c : Calls)
  : list Location * Calls :=
  match ms with
  | [] => (locations, c)
  | m :: rest =>
      match text_location m (length locations) c with
      | (Ok None, c') => scan rest locations c'
      | (Ok (Some loc), c') => scan rest (locations ++ [loc])%list c'
      | (Throw _, c') => (locations, c')
      end
  end.

(** [parseTextLocations(text)] *)
Definition parseTextLocations (text : string) (c : Calls)
  : list Location * Calls :=
  scan (exec_all LOCATION_PATTERN text) [] c.

End WithHost.

End LocationParser.

(* ================================================================== *)
(** ** src/components/ChatMessage.tsx: the JSON branch of the effect *)
(* ================================================================== *)

Module ChatMessage.

Section WithHost.

Variable h : Host.

(** The template literal of the fallback image URL. *)
Definition landmark_url (nm : JsVal) : M JsVal :=
  s <- to_string h nm ;;
  enc <- or_throw URIError (encodeURIComponent h (s ++ " landmark")) ;;
  ret (JStr ("https://source.unsplash.com/800x600/?" ++ enc)).

(** The callback mapped over [data.locations] (lines 59 to 70). *)
Definition chat_location (loc : JsVal) (index : nat) : M Location :=
  t <- now h ;;
  nm <- or_throw TypeError (get loc "name") ;;
  coordinates <- or_throw TypeError (get loc "coordinates") ;;
  c0 <- or_throw TypeError (get_index coordinates 0) ;;
  lat1 <- to_number h c0 ;;
  c1 <- or_throw TypeError (get_index coordinates 1) ;;
  lng1 <- to_number h c1 ;;
  rating0 <- or_throw TypeError (get loc "rating") ;;
  reviews0 <- or_throw TypeError (get loc "reviews") ;;
  img <- or_throw TypeError (get loc "image") ;;
  imageUrl1 <- (if truthy img then ret img else landmark_url nm) ;;
  d <- or_throw TypeError (get loc "description") ;;
  ret (mkLocation
         ("loc-" ++ string_of_Z t ++ "-" ++ string_of_nat index)
         nm JUndefined JUndefined
         (mkPosition (JNum lat1) (JNum lng1))
         (or_else rating0 (JNum (Fin (9 # 2))))
         (or_else reviews0 (JNum (num 1000)))
         imageUrl1
         (or_else d (JStr ""))).

(** [if (jsonContent && !isStreaming) { try { ... } catch { } }]: the
    array later handed to [setLocations], or [None] when the state is
    left alone.  [jsonContent] is [None] for [null]. *)
Definition processedLocations (jsonContent : option string) (isStreaming : bool)
  : M (option (list Location)) :=
  match jsonContent with
  | None => ret None
  | Some json =>
      if String.eqb json "" || isStreaming then ret None
      else
        try_catch
          (data <- or_throw SyntaxError (JSON_parse h json) ;;
           locations <- or_throw TypeError (get data "locations") ;;
           match locations with
           | JArr items =>
               ls <- array_map chat_location items ;;
               ret (Some ls)
           | _ => ret None
           end)
          (fun _ => ret None)
  end.

(** The later revision of the component (the second unnamed source
    file) keeps, before mapping, the entries that carry a two-element
    [coordinates] array, and copies [city] and [country]. *)
Definition has_coordinate_pair (loc : JsVal) : bool :=
  truthy loc &&
  match get loc "coordinates" with
  | Some (JArr items) => (length items =? 2)%nat
  | _ => false
  end.

Definition chat_location_with_city (loc : JsVal) (index : nat) : M Location :=
  l <- chat_location loc index ;;
  cty <- or_throw TypeError (get loc "city") ;;
  ctry <- or_throw TypeError (get loc "country") ;;
  ret (mkLocation (id l) (name l) cty ctry (position l) (rating l)
         (reviews l) (imageUrl l) (description l)).

Definition filteredLocations (items : list JsVal) : M (list Location) :=
  array_map chat_location_with_city (filter has_coordinate_pair items).

End WithHost.

End ChatMessage.

(* ================================================================== *)
(** ** src/components/map/MapUpdater.tsx *)
(* ================================================================== *)

Module MapUpdater.

(** What the component asks of the Leaflet map. *)
Inductive MapCommand : Type :=
| flyTo (center : Position) (zoom : Z)
| flyToBounds (points : list Position) (maxZoom : Z).

(** The map as the component drives it: the last view it asked for and
    its own [isAnimating] flag. *)
Record MapState : Type := mkMapState {
  view : option MapCommand;
  isAnimating : bool
}.

Section WithHost.

Variable h : Host.

(** [isValidCoordinates(lat, lng)] (lines 163 to 167): [isNaN] and the
    comparisons coerce their operand with ToNumber.  This is the value
    returned on operands that can be coerced; [Untyped.isValidCoordinates]
    below has the TypeError of the others. *)
Definition isValidCoordinates (lat lng : JsVal) : bool :=
  negb (num_isNaN (Number h lat)) && negb (num_isNaN (Number h lng)) &&
  num_ge (Number h lat) (num (-90)) && num_le (Number h lat) (num 90) &&
  num_ge (Number h lng) (num (-180)) && num_le (Number h lng) (num 180).

(** The predicate of the [filter] (lines 84 to 86), on a location that
    has a [position]. *)
Definition isValid (loc : Location) : bool :=
  not_nullish (lat (position loc)) &&
  not_nullish (lng (position loc)) &&
  isValidCoordinates (lat (position loc)) (lng (position loc)).

Definition validLocations (locations : list Location) : list Location :=
  filter isValid locations.

(** The effect on a [locations] update (lines 70 to 158), on locations
    as the [Location] type declares them, each with a [position], and
    with coordinates that can be coerced: there the logging statements
    and the filter do not throw.  [Untyped.locationsEffect] below is the
    effect on whatever values arrive. *)
Definition locationsEffect (locations : list Location)
  (selectedLocation : option Location) (st : MapState) : MapState :=
  match locations, selectedLocation with
  | [], _ => st
  | _, Some _ => st
  | _, None =>
      match validLocations locations with
      | [] => st
      | [location] => mkMapState (Some (flyTo (position location) 13)) true
      | valid => mkMapState (Some (flyToBounds (map position valid) 13)) true
      end
  end.

(** The effect on a selection (lines 20 to 67), on a selection that
    follows the [Location] type and has coordinates that can be
    coerced. *)
Definition selectionEffect (selectedLocation : option Location) (st : MapState)
  : MapState :=
  match selectedLocation with
  | None => st
  | Some sel =>
      if isValidCoordinates (lat (position sel)) (lng (position sel))
      then mkMapState (Some (flyTo (position sel) 17)) true
      else st
  end.

End WithHost.

(** The object a [Location] is when the component receives it. *)
Definition position_value (p : Position) : JsVal :=
  JObj [("lat", lat p); ("lng", lng p)].

Definition location_value (l : Location) : JsVal :=
  JObj [("id", JStr (id l)); ("name", name l); ("city", city l);
        ("country", country l); ("position", position_value (position l));
        ("rating", rating l); ("reviews", reviews l);
        ("imageUrl", imageUrl l); ("description", description l)].

(** The object [parseJsonLocations] builds, which it declares a
    [Location] as well. *)
Definition json_location_value (l : JsonLocation.t) : JsVal :=
  JObj [("id", JStr (JsonLocation.id l)); ("name", JStr (JsonLocation.name l));
        ("coordinates", JsonLocation.coordinates l);
        ("rating", JNum (JsonLocation.rating l));
        ("reviews", JNum (JsonLocation.reviews l));
        ("description", JStr (JsonLocation.description l));
        ("image", JsonLocation.image l)].

Definition selection_value (selectedLocation : option Location) : JsVal :=
  match selectedLocation with
  | Some l => location_value l
  | None => JNull
  end.

(** The two effects on the values that arrive.  Nothing enforces the
    [Location] type when they run: a location is any value, it may have
    no [position], and a coordinate may be a value that ToNumber refuses.
    The calls into Leaflet are taken not to throw. *)
Module Untyped.

(** [v?.k] *)
Definition optional (v : JsVal) (k : string) : JsVal :=
  match get v k with
  | Some x => x
  | None => JUndefined
  end.

(** [loc?.position?.lat] and [loc?.position?.lng] *)
Definition position_read (loc : JsVal) : Position :=
  mkPosition (optional (optional loc "position") "lat")
             (optional (optional loc "position") "lng").

(** [loc] has a [position] that is neither [null] nor [undefined]. *)
Definition has_position (loc : JsVal) : bool :=
  not_nullish (optional loc "position").

(** Both coordinates of [loc] can be coerced. *)
Definition coordinates_printable (loc : JsVal) : bool :=
  printable (lat (position_read loc)) && printable (lng (position_read loc)).

Section WithHost.

Variable h : Host.

(** [isValidCoordinates(lat, lng)] (lines 163 to 167): [isNaN] coerces
    its argument and [&&] stops at the first operand that is false. *)
Definition isValidCoordinates (lat lng : JsVal) : M bool :=
  a <- to_number h lat ;;
  if num_isNaN a then ret false
  else
    b <- to_number h lng ;;
    if num_isNaN b then ret false
    else ret (num_ge a (num (-90)) && num_le a (num 90) &&
              num_ge b (num (-180)) && num_le b (num 180)).

(** [loc.position.lat] and [loc.position.lng] *)
Definition coordinate (loc : JsVal) (k : string) : M JsVal :=
  p <- or_throw TypeError (get loc "position") ;;
  or_throw TypeError (get p k).

Definition position_of (loc : JsVal) : M Position :=
  la <- coordinate loc "lat" ;;
  lo <- coordinate loc "lng" ;;
  ret (mkPosition la lo).

(** The callback of the [map] inside the first logging statement
    (lines 75 to 78). *)
Definition logged (loc : JsVal) (index : nat) : M JsVal :=
  nm <- or_throw TypeError (get loc "name") ;;
  p <- position_of loc ;;
  ret (JObj [("name", nm); ("coordinates", JArr [lat p; lng p])]).

(** The predicate of the [filter] (lines 83 to 95), with the reads of
    its warning. *)
Definition isValid (loc : JsVal) : M bool :=
  valid <- (if not_nullish (lat (position_read loc)) &&
               not_nullish (lng (position_read loc))
            then p <- position_of loc ;;
                 isValidCoordinates (lat p) (lng p)
            else ret false) ;;
  if valid then ret true
  else
    _ <- or_throw TypeError (get loc "name") ;;
    _ <- or_throw TypeError (get loc "position") ;;
    ret false.

(** What the predicate returns when it returns. *)
Definition passes (loc : JsVal) : bool :=
  not_nullish (lat (position_read loc)) &&
  not_nullish (lng (position_read loc)) &&
  MapUpdater.isValidCoordinates h (lat (position_read loc))
                                (lng (position_read loc)).

(** The effect on a [locations] update (lines 70 to 158).  The first
    logging statement (lines 73 to 79) stands before the [try]; the
    filter and the calls into Leaflet stand inside it, and its [catch]
    resets the flag. *)
Definition locationsEffect (locations : list JsVal) (selectedLocation : JsVal)
  (st : MapState) : M MapState :=
  if (length locations =? 0)%nat || truthy selectedLocation then ret st
  else
    _ <- array_map logged locations ;;
    try_catch
      (validLocations <- array_filter isValid locations ;;
       match validLocations with
       | [] => ret st
       | [location] =>
           _ <- or_throw TypeError (get location "name") ;;
           p <- position_of location ;;
           ret (mkMapState (Some (flyTo p 13)) true)
       | _ =>
           ps <- array_map (fun loc _ => position_of loc) validLocations ;;
           ret (mkMapState (Some (flyToBounds ps 13)) true)
       end)
      (fun _ => ret (mkMapState (view st) false)).

(** The state the [try] leaves once the filter has returned [valid]. *)
Definition flown (valid : list JsVal) (st : MapState) : MapState :=
  match valid with
  | [] => st
  | [location] => mkMapState (Some (flyTo (position_read location) 13)) true
  | _ => mkMapState (Some (flyToBounds (map position_read valid) 13)) true
  end.

(** The effect on a selection (lines 20 to 67): the position is read
    and validated before the [try]. *)
Definition selectionEffect (selectedLocation : JsVal) (st : MapState)
  : M MapState :=
  if negb (truthy selectedLocation) then ret st
  else
    p <- or_throw TypeError (get selectedLocation "position") ;;
    la <- or_throw TypeError (get p "lat") ;;
    lo <- or_throw TypeError (get p "lng") ;;
    valid <- isValidCoordinates la lo ;;
    if negb valid then ret st
    else ret (mkMapState (Some (flyTo (mkPosition la lo) 17)) true).

End WithHost.

End Untyped.

End MapUpdater.

(* ================================================================== *)
(** ** A host to run the code on *)
(* ================================================================== *)

Module Demo.

Definition hex_digit (n : nat) : ascii :=
  if (n <? 10)%nat then ascii_of_nat (48 + n) else ascii_of_nat (55 + n).

Definition percent (n : nat) : string :=
  String "%" (String (hex_digit (n / 16)) (String (hex_digit (n mod 16)) "")).

Definition unreserved (c : ascii) : bool :=
  let n := nat_of_ascii c in
  (((48 <=? n) && (n <=? 57)) || ((65 <=? n) && (n <=? 90)) ||
   ((97 <=? n) && (n <=? 122)))%nat ||
  Regex.one_of ["-"; "_"; "."; "!"; "~"; "*"; "'"; "("; ")"]%char c.

(** [encodeURIComponent] on code units below 256: the UTF-8 bytes of a
    reserved character, each as a percent escape. *)
Fixpoint encodeURIComponent (s : string) : string :=
  match s with
  | EmptyString => EmptyString
  | String c s' =>
      let n := nat_of_ascii c in
      (if unreserved c then String c ""
       else if (n <? 128)%nat then percent n
       else percent (192 + n / 64) ++ percent (128 + n mod 64))
      ++ encodeURIComponent s'
  end.

(** Number::toString, exact on the integers; the examples print no
    fraction. *)
Definition NumberToString (n : JsNum) : string :=
  match n with
  | NaN => "NaN"
  | PInf => "Infinity"
  | NInf => "-Infinity"
  | Fin q => string_of_Z (Qfloor q)
  end.

(** StringToNumber on the decimal literals that JSON also has. *)
Definition StringToNumber (s : string) : JsNum :=
  match trim s with
  | EmptyString => num 0
  | t =>
      match Json.parse_number t with
      | Some (n, EmptyString) => n
      | _ => NaN
      end
  end.

(** A small table standing for [locationService]. *)
Definition known_places : list (string * (Q * Q * string)) :=
  [("Eiffel Tower", (48.8584, 2.2945, "Iconic iron tower"));
   ("Louvre Museum", (48.8606, 2.3376, "World-famous art museum"))]%Q.

Fixpoint lookup_place (nm : string) (table : list (string * (Q * Q * string)))
  : option (Q * Q * string) :=
  match table with
  | [] => None
  | (k, v) :: rest => if String.eqb nm k then Some v else lookup_place nm rest
  end.

Definition getCoordinates (nm : string) : option Position :=
  match lookup_place nm known_places with
  | Some (la, lo, _) => Some (mkPosition (JNum (Fin la)) (JNum (Fin lo)))
  | None => Some (mkPosition (JNum (num 0)) (JNum (num 0)))
  end.

Definition getLocationDescription (nm : string) : option JsVal :=
  match lookup_place nm known_places with
  | Some (_, _, d) => Some (JStr d)
  | None => Some (JStr "")
  end.

Definition generateImageUrl (nm : JsVal) : option JsVal :=
  Some (JStr ("https://images.example/?q="
              ++ encodeURIComponent (ToString NumberToString nm))).

(** The clock stands still (every call of one batch falls in the same
    millisecond) and the random source cycles through sevenths. *)
Definition host : Host :=
  mkHost Json.parse NumberToString StringToNumber
    (fun s => Some (encodeURIComponent s))
    (fun _ => 1700000000000%Z)
    (fun n => Qmake (Z.of_nat (n mod 7)) 7)
    generateImageUrl getCoordinates getLocationDescription.

(** The same host with a lookup that throws on a name it does not
    know. *)
Definition strict_lookup (nm : string) : option Position :=
  match lookup_place nm known_places with
  | Some (la, lo, _) => Some (mkPosition (JNum (Fin la)) (JNum (Fin lo)))
  | None => None
  end.

Definition throwing_host : Host :=
  mkHost Json.parse NumberToString StringToNumber
    (fun s => Some (encodeURIComponent s))
    (fun _ => 1700000000000%Z)
    (fun n => Qmake (Z.of_nat (n mod 7)) 7)
    generateImageUrl strict_lookup getLocationDescription.

End Demo.

(* ================================================================== *)
(** ** The vocabulary of the statements *)
(* ================================================================== *)

(** The [k]-th output of [map] comes from the [k]-th input and was
    built with index [i + k]. *)
Inductive mapped {A B} (f : A -> nat -> M B) : nat -> list A -> list B -> Prop :=
| mapped_nil i : mapped f i [] []
| mapped_cons i a b l bs c c' :
    f a i c = (Ok b, c') ->
    mapped f (S i) l bs ->
    mapped f i (a :: l) (b :: bs).

(** A JavaScript value that is a finite number between two integers. *)
Definition in_range (lo hi : Z) (v : JsVal) : Prop :=
  exists q, v = JNum (Fin q) /\ (inject_Z lo <= q)%Q /\ (q <= inject_Z hi)%Q.

(** A two-element array holding a latitude and a longitude in range. *)
Definition valid_pair (coords : JsVal) : Prop :=
  exists la lo,
    coords = JArr [la; lo] /\ in_range (-90) 90 la /\ in_range (-180) 180 lo.

Fixpoint has_dash (s : string) : bool :=
  match s with
  | EmptyString => false
  | String c s' => Ascii.eqb c "-" || has_dash s'
  end.

(** What follows the last dash of a string. *)
Fixpoint after_last_dash (s : string) : string :=
  match s with
  | EmptyString => EmptyString
  | String c s' =>
      if has_dash s' then after_last_dash s'
      else if Ascii.eqb c "-" then s' else s
  end.

(** An identifier carries the index [i] when it ends with a dash and the
    digits of [i]; both formats of the source do. *)
Definition carries_index (i : nat) (ident : string) : Prop :=
  exists p, ident = p ++ String "-" (string_of_nat i).

(** Identifiers that carry the consecutive indices [i], [i+1], ... *)
Inductive indexed_from : nat -> list string -> Prop :=
| indexed_nil i : indexed_from i []
| indexed_cons i ident rest :
    carries_index i ident -> indexed_from (S i) rest ->
    indexed_from i (ident :: rest).

(** Texts used as examples: an apostrophe stands for a double quote. *)
Module Texts.

Definition eiffel : string :=
  dq "Try this: {'locations':[{'coordinates':[48.8584,2.2945],'name':' Eiffel Tower '}]}".

Definition bad : string :=
  dq "{'locations':[{'coordinates':[200,0],'name':'Bad'}]}".

Definition bad_then_good : string :=
  dq "{'locations':[{'coordinates':[200,0],'name':'Bad'},{'coordinates':[1,2],'name':'Good'}]}".

Definition missing_then_good : string :=
  dq "{'locations':[{'name':'Bad','rating':5},{'coordinates':[1,2],'name':'Good'}]}".

Definition good_then_bad_twice : string :=
  dq "{'locations':[{'coordinates':[1,2],'name':'Good'},{'coordinates':[91,0],'name':'First'},{'coordinates':[0,181],'name':'Second'}]}".

Definition rated : string :=
  dq "{'locations':[{'coordinates':[1,2],'name':'Good','rating':'great','reviews':12}]}".

Definition unprintable_name : string :=
  dq "{'locations':[{'coordinates':[200,0],'name':{'toString':0}}]}".

Definition unprintable_latitude : string :=
  dq "{'locations':[{'coordinates':[1,2],'name':'Good'},{'coordinates':[{'toString':0},0],'name':'Odd'}]}".

Definition two_places : string :=
  dq "{'locations':[{'coordinates':[48.8584,2.2945],'name':'Eiffel Tower'},{'coordinates':[48.8606,2.3376],'name':'Louvre Museum'}]}".

End Texts.

(** The array [extractLocationsFromResponse] maps over: [data.locations]
    when the pattern matches, the match parses and the key holds an
    array; empty otherwise. *)
Definition response_payload (h : Host) (text : string) : list JsVal :=
  match Regex.search LocationParser.locations_block_captured text with
  | Some jsonMatch =>
      match JSON_parse h (Regex.m_text jsonMatch) with
      | Some data =>
          match get data "locations" with
          | Some (JArr items) => items
          | _ => []
          end
      | None => []
      end
  | None => []
  end.

(** The array [parseJsonLocations] maps over. *)
Definition json_payload (h : Host) (text : string) : list JsVal :=
  LocationParser.first_parsed h LocationParser.patterns text.

(** The array the JSON branch of [ChatMessage] maps over. *)
Definition chat_payload (h : Host) (jsonContent : string) : list JsVal :=
  match JSON_parse h jsonContent with
  | Some data =>
      match get data "locations" with
      | Some (JArr items) => items
      | _ => []
      end
  | None => []
  end.

(** A field that is absent from the record ([undefined]) or [null]. *)
Definition missing (v : JsVal) : Prop := v = JUndefined \/ v = JNull.


(** A value in [[4.5, 5]]. *)
Definition jittered_rating (v : JsVal) : Prop :=
  exists q, v = JNum (Fin q) /\ ((9 # 2) <= q)%Q /\ (q <= 5)%Q.

(** A record that follows the [RawLocation] interface and whose
    coordinates are in range.  The image is either supplied or can be
    derived by the image collaborator. *)
Definition raw_location (h : Host) (loc : JsVal) : Prop :=
  exists fields s coords d img,
    loc = JObj fields /\
    get loc "name" = Some (JStr s) /\
    get loc "coordinates" = Some coords /\ valid_pair coords /\
    get loc "description" = Some d /\
    (d = JUndefined \/ exists t, d = JStr t) /\
    get loc "image" = Some img /\
    (truthy img = true \/ exists u, generateImageUrl h (JStr s) = Some u).



(** What the callback of [ChatMessage] coerces in a record can be
    coerced: the two coordinates, which [Number] reads, and the name,
    to which [+] appends when the record has no image. *)
Definition coercible (loc : JsVal) : Prop :=
  (forall a b,
      get loc "coordinates" = Some (JArr [a; b]) ->
      printable a = true /\ printable b = true) /\
  (forall img nm,
      get loc "image" = Some img -> truthy img = false ->
      get loc "name" = Some nm -> printable nm = true).

(** [accepted h ms locs c locs' c']: the loop goes through all of [ms]
    without a throw, taking the array from [locs] to [locs']. *)
Inductive accepted (h : Host)
  : list Regex.Match -> list Location -> Calls -> list Location -> Calls -> Prop :=
| accepted_done locs c : accepted h [] locs c locs c
| accepted_continue m rest locs c c1 locs' c' :
    LocationParser.text_location h m (length locs) c = (Ok None, c1) ->
    accepted h rest locs c1 locs' c' ->
    accepted h (m :: rest) locs c locs' c'
| accepted_push m rest locs c l c1 locs' c' :
    LocationParser.text_location h m (length locs) c = (Ok (Some l), c1) ->
    accepted h rest (locs ++ [l])%list c1 locs' c' ->
    accepted h (m :: rest) locs c locs' c'.

(** A position the map can show: both coordinates present, and numbers
    (after ToNumber) that are finite and in range. *)
Definition valid_position (h : Host) (p : Position) : Prop :=
  not_nullish (lat p) = true /\ not_nullish (lng p) = true /\
  exists la lo,
    Number h (lat p) = Fin la /\ Number h (lng p) = Fin lo /\
    (inject_Z (-90) <= la)%Q /\ (la <= inject_Z 90)%Q /\
    (inject_Z (-180) <= lo)%Q /\ (lo <= inject_Z 180)%Q.

(** The positions a command sends the map to. *)
Definition command_points (cmd : MapUpdater.MapCommand) : list Position :=
  match cmd with
  | MapUpdater.flyTo p _ => [p]
  | MapUpdater.flyToBounds ps _ => ps
  end.

(** Locations as the builders above leave them, for the map. *)
Module Places.

Definition place (nm : string) (la lo : JsVal) : Location :=
  mkLocation "loc-1700000000000-0" (JStr nm) JUndefined JUndefined
    (mkPosition la lo) (JNum (Fin (9 # 2))) (JNum (num 1000))
    (JStr "") (JStr "").

Definition too_far_north : Location := place "Bad" (JNum (num 200)) (JNum (num 0)).
Definition no_latitude : Location := place "Short" JUndefined (JNum (num 0)).
Definition not_a_number : Location := place "Text" (JNum NaN) (JNum (num 0)).
Definition paris : Location :=
  place "Paris" (JNum (Fin 48.8566)) (JNum (Fin 2.3522)).

Definition idle : MapUpdater.MapState := MapUpdater.mkMapState None false.

(** A location whose latitude cannot be coerced. *)
Definition odd : JsVal :=
  JObj [("id", JStr "loc-1700000000000-2"); ("name", JStr "Odd");
        ("position",
         JObj [("lat", JObj [("toString", JNum (num 0))]);
               ("lng", JNum (num 0))])].

(** A location that arrives without a position. *)
Definition nowhere : JsVal :=
  JObj [("id", JStr "loc-1700000000000-1"); ("name", JStr "Nowhere");
        ("position", JNull)].

End Places.

(* ================================================================== *)
(** ** More vocabulary: strings, and what a record asks of the host *)
(* ================================================================== *)

(** Every character of [s] satisfies [p]. *)
Fixpoint all_chars (p : ascii -> bool) (s : string) : bool :=
  match s with
  | EmptyString => true
  | String c s' => p c && all_chars p s'
  end.

Definition starts_with_space (s : string) : bool :=
  match s with
  | String c _ => is_space c
  | EmptyString => false
  end.

Fixpoint ends_with_space (s : string) : bool :=
  match s with
  | EmptyString => false
  | String c EmptyString => is_space c
  | String _ s' => ends_with_space s'
  end.

(** No white space at either end. *)
Definition trimmed (s : string) : Prop :=
  starts_with_space s = false /\ ends_with_space s = false.

(** A record for which [extractLocationsFromResponse] draws a random
    number: its [reviews] is falsy. *)
Definition draws_reviews (loc : JsVal) : bool :=
  match get loc "reviews" with
  | Some v => negb (truthy v)
  | None => false
  end.

(** [s.includes(w)] *)
Fixpoint includes (w s : string) : bool :=
  match Regex.strip_prefix w s with
  | Some _ => true
  | None =>
      match s with
      | String _ s' => includes w s'
      | EmptyString => false
      end
  end.

(** Whether a pattern writes group [i]. *)
Fixpoint binds (i : nat) (r : Regex.Regex) : bool :=
  match r with
  | Regex.Seq r1 r2 | Regex.Alt r1 r2 => binds i r1 || binds i r2
  | Regex.Group j r1 => Nat.eqb i j || binds i r1
  | _ => false
  end.

(** A text in which no character is a dash or a line feed. *)
Definition no_dash_no_break (s : string) : bool :=
  all_chars (Regex.none_of ["-"%char; Regex.LF]) s.

(** A text in which no character is a full stop or a line feed. *)
Definition one_sentence (s : string) : bool :=
  all_chars (Regex.none_of [Regex.LF; "."%char]) s.

(* ================================================================== *)
(** ** src/App.tsx *)
(* ================================================================== *)

Module App.

(** [Message.sender] of [types/chat]. *)
Inductive Sender : Type := bot | user.

(** The [Message] objects the component builds; [timestamp] is the
    clock as [new Date()] reads it. *)
Module Message.
Record t : Type := make {
  id : string;
  content : string;
  sender : Sender;
  timestamp : Z
}.
End Message.

(** What the callers read of the object [processStreamingMessage]
    returns: [jsonContent] and [weatherLocation] are a string or
    [null]. *)
Record StreamParts : Type := mkParts {
  textContent : string;
  jsonContent : option string;
  weatherLocation : option string
}.

(** What [handleSendMessage] reads of the object [validateQuery]
    returns. *)
Record Validation : Type := mkValidation {
  type : string;
  location : option string
}.

(** An entry of the array handed to [getStreamingChatResponse]. *)
Record ClaudeMessage : Type := mkClaudeMessage {
  role : string;
  content : string
}.

(** What the [catch] of [handleSendMessage] can receive: an instance of
    [Error], or any other value. *)
Inductive Failure : Type :=
| AnError (message : string)
| NotAnError.

(** What iterating the response stream does: it yields [chunks], then
    ends or throws [failure]. *)
Record Stream : Type := mkStream {
  chunks : list string;
  failure : option Failure
}.

(** The state of the component, with the calls it makes to
    [cityContext.setCurrentCity] and to [getStreamingChatResponse],
    oldest first. *)
Record State : Type := mkState {
  messages : list Message.t;
  locations : list Location;
  selectedLocation : option Location;
  isLoading : bool;
  isStreaming : bool;
  currentStreamingMessage : option Message.t;
  error : option string;
  currentWeatherLocation : JsVal;
  cityContext : list JsVal;
  requests : list (list ClaudeMessage)
}.

Definition setMessages (f : list Message.t -> list Message.t) (st : State) : State :=
  mkState (f (messages st)) (locations st) (selectedLocation st) (isLoading st)
    (isStreaming st) (currentStreamingMessage st) (error st)
    (currentWeatherLocation st) (cityContext st) (requests st).

Definition setLocations (ls : list Location) (st : State) : State :=
  mkState (messages st) ls (selectedLocation st) (isLoading st)
    (isStreaming st) (currentStreamingMessage st) (error st)
    (currentWeatherLocation st) (cityContext st) (requests st).

Definition setSelectedLocation (l : option Location) (st : State) : State :=
  mkState (messages st) (locations st) l (isLoading st)
    (isStreaming st) (currentStreamingMessage st) (error st)
    (currentWeatherLocation st) (cityContext st) (requests st).

Definition setIsLoading (b : bool) (st : State) : State :=
  mkState (messages st) (locations st) (selectedLocation st) b
    (isStreaming st) (currentStreamingMessage st) (error st)
    (currentWeatherLocation st) (cityContext st) (requests st).

Definition setIsStreaming (b : bool) (st : State) : State :=
  mkState (messages st) (locations st) (selectedLocation st) (isLoading st)
    b (currentStreamingMessage st) (error st)
    (currentWeatherLocation st) (cityContext st) (requests st).

Definition setCurrentStreamingMessage
  (f : option Message.t -> option Message.t) (st : State) : State :=
  mkState (messages st) (locations st) (selectedLocation st) (isLoading st)
    (isStreaming st) (f (currentStreamingMessage st)) (error st)
    (currentWeatherLocation st) (cityContext st) (requests st).

Definition setError (e : option string) (st : State) : State :=
  mkState (messages st) (locations st) (selectedLocation st) (isLoading st)
    (isStreaming st) (currentStreamingMessage st) e
    (currentWeatherLocation st) (cityContext st) (requests st).

Definition setCurrentWeatherLocation (v : JsVal) (st : State) : State :=
  mkState (messages st) (locations st) (selectedLocation st) (isLoading st)
    (isStreaming st) (currentStreamingMessage st) (error st)
    v (cityContext st) (requests st).

(** [cityContext.setCurrentCity(v)] *)
Definition setCurrentCity (v : JsVal) (st : State) : State :=
  mkState (messages st) (locations st) (selectedLocation st) (isLoading st)
    (isStreaming st) (currentStreamingMessage st) (error st)
    (currentWeatherLocation st) (cityContext st ++ [v])%list (requests st).

(** [getStreamingChatResponse(claudeMessages)] *)
Definition request (claudeMessages : list ClaudeMessage) (st : State) : State :=
  mkState (messages st) (locations st) (selectedLocation st) (isLoading st)
    (isStreaming st) (currentStreamingMessage st) (error st)
    (currentWeatherLocation st) (cityContext st)
    (requests st ++ [claudeMessages])%list.

(** ToBoolean on a string or [null]. *)
Definition present (o : option string) : bool :=
  match o with
  | Some s => negb (String.eqb s "")
  | None => false
  end.

(** The string behind a value that [present] accepts. *)
Definition text_of (o : option string) : string :=
  match o with
  | Some s => s
  | None => ""
  end.

(** [v?.k] *)
Definition optional_get (v : JsVal) (k : string) : JsVal :=
  match get v k with
  | Some x => x
  | None => JUndefined
  end.

(** [s.split(',')[0]] *)
Fixpoint before_comma (s : string) : string :=
  match s with
  | EmptyString => EmptyString
  | String c s' => if Ascii.eqb c "," then EmptyString else String c (before_comma s')
  end.

(** [v.split(',')[0]]: [None] is the TypeError raised when [v] is not a
    string. *)
Definition first_part (v : JsVal) : option JsVal :=
  match v with
  | JStr s => Some (JStr (before_comma s))
  | _ => None
  end.

(** [{ ...msg, content: text }] for the message that carries the bot's
    identifier, any other message as it is. *)
Definition with_content (botId text : string) (msg : Message.t) : Message.t :=
  if String.eqb (Message.id msg) botId
  then Message.make (Message.id msg) text (Message.sender msg) (Message.timestamp msg)
  else msg.

(** The [for await] loop of [handleSendMessage] (lines 170 to 185):
    [fullResponse] grows by a chunk per turn. *)
Fixpoint receive (botId : string) (stream : list string) (fullResponse : string)
  (st : State) : State :=
  match stream with
  | [] => st
  | chunk :: rest =>
      let fullResponse := fullResponse ++ chunk in
      let st :=
        setCurrentStreamingMessage
          (fun prev =>
             match prev with
             | Some m =>
                 Some (Message.make (Message.id m) fullResponse
                         (Message.sender m) (Message.timestamp m))
             | None => None
             end) st in
      let st := setMessages (map (with_content botId fullResponse)) st in
      receive botId rest fullResponse st
  end.

(** [error instanceof Error ? error.message : 'An unknown error occurred'] *)
Definition errorMessage (f : Failure) : string :=
  match f with
  | AnError message => message
  | NotAnError => "An unknown error occurred"
  end.

(** [claudeMessages] (lines 161 to 165), from the messages of the render
    the callback belongs to and the text just sent. *)
Definition claudeMessages (ms : list Message.t) (text : string) : list ClaudeMessage :=
  (map (fun msg =>
          mkClaudeMessage
            (match Message.sender msg with bot => "assistant" | user => "user" end)
            (Message.content msg)) ms
   ++ [mkClaudeMessage "user" text])%list.

Section WithHost.

Variable h : Host.

(** The collaborators that are not among the sources: [validateQuery],
    [cityContext.getCurrentCity()], [processStreamingMessage] ([None]
    when it throws), and the reverse geocoding request (the URL written
    with the two coordinates, [fetch] and [response.json()]; [None] when
    one of them throws or rejects). *)
Variable validateQuery : string -> Validation.
Variable getCurrentCity : string.
Variable processStreamingMessage : string -> option StreamParts.
Variable reverseGeocode : JsVal -> JsVal -> option JsVal.

(** [getCityFromCoordinates(lat, lng)] (lines 38 to 60): whatever is
    thrown is answered with the empty string. *)
Definition getCityFromCoordinates (lat lng : JsVal) : JsVal :=
  match reverseGeocode lat lng with
  | None => JStr ""
  | Some data =>
      match get data "address" with
      | None => JStr ""
      | Some address =>
          let named :=
            or_else
              (or_else
                 (or_else
                    (or_else (optional_get address "city")
                             (optional_get address "town"))
                    (optional_get address "village"))
                 (optional_get address "municipality"))
              (optional_get address "county") in
          if truthy named then named
          else
            match get data "display_name" with
            | Some display_name =>
                match first_part display_name with
                | Some part => part
                | None => JStr ""
                end
            | None => JStr ""
            end
      end
  end.

(** The [then] callback of lines 88 to 94, and lines 106 to 110. *)
Definition cityResolved (cityName : JsVal) (st : State) : State :=
  if truthy cityName
  then setCurrentWeatherLocation cityName (setCurrentCity cityName st)
  else st.

(** The effect on [currentStreamingMessage?.content] (lines 62 to 98),
    with the answer of the reverse geocoding applied at once.  The call
    of the splitter stands in no [try]. *)
Definition streamingEffect (st : State) : M State :=
  match currentStreamingMessage st with
  | None => ret st
  | Some m =>
      if String.eqb (Message.content m) "" then ret st
      else
        parts <- or_throw CollaboratorError
                   (processStreamingMessage (Message.content m)) ;;
        if present (weatherLocation parts) then
          ret (setCurrentWeatherLocation (JStr (text_of (weatherLocation parts))) st)
        else if present (jsonContent parts) then
          newLocations <-
            LocationParser.extractLocationsFromResponse h
              (text_of (jsonContent parts)) ;;
          match newLocations with
          | [] => ret st
          | first :: _ =>
              ret (cityResolved
                     (getCityFromCoordinates (lat (position first))
                                             (lng (position first)))
                     (setLocations newLocations st))
          end
        else ret st
  end.

(** [handleLocationSelect(location)] (lines 100 to 111). *)
Definition handleLocationSelect (location : Location) (st : State) : State :=
  cityResolved
    (getCityFromCoordinates (lat (position location)) (lng (position location)))
    (setSelectedLocation (Some location) st).

(** [handleSendMessage(content)] (lines 113 to 203) on a response
    stream that behaves as [stream]. *)
Definition handleSendMessage (text : string) (stream : Stream) (st0 : State)
  : M State :=
  let st := setError None st0 in
  let validation := validateQuery text in
  t0 <- now h ;;
  d0 <- now h ;;
  let userMessage := Message.make (string_of_Z t0) text user d0 in
  let st := setMessages (fun prev => prev ++ [userMessage])%list st in
  let st := setIsLoading true st in
  let st := setIsStreaming true st in
  let st := setSelectedLocation None st in
  if String.eqb (type validation) "weather" then
    let weatherLocation :=
      if present (location validation) then text_of (location validation)
      else getCurrentCity in
    let st := setCurrentWeatherLocation (JStr weatherLocation) st in
    t1 <- now h ;;
    d1 <- now h ;;
    let botMessage :=
      Message.make (string_of_Z (t1 + 1))
        ("Let me check the current weather in " ++ weatherLocation ++ "...")
        bot d1 in
    let st := setMessages (fun prev => prev ++ [botMessage])%list st in
    let st := setIsLoading false st in
    let st := setIsStreaming false st in
    ret st
  else
    t1 <- now h ;;
    d1 <- now h ;;
    let botMessage := Message.make (string_of_Z (t1 + 1)) "" bot d1 in
    let st := setMessages (fun prev => prev ++ [botMessage])%list st in
    let st := setCurrentStreamingMessage (fun _ => Some botMessage) st in
    let st := request (claudeMessages (messages st0) text) st in
    let st := receive (Message.id botMessage) (chunks stream) "" st in
    let st :=
      match failure stream with
      | None => st
      | Some f =>
          let st := setError (Some (errorMessage f)) st in
          setMessages
            (map (with_content (Message.id botMessage)
                    ("I'm sorry, I encountered an error: " ++ errorMessage f)))
            st
      end in
    let st := setIsLoading false st in
    let st := setIsStreaming false st in
    let st := setCurrentStreamingMessage (fun _ => None) st in
    ret st.

End WithHost.

End App.

(** States and collaborators used as examples. *)
Module Chats.

Definition welcome : App.State :=
  App.mkState [App.Message.make "1" "Welcome to Paris!" App.bot 0] [] None
    false false None None JNull [] [].

Definition general (_ : string) : App.Validation :=
  App.mkValidation "general" None.

Definition weather (_ : string) : App.Validation :=
  App.mkValidation "weather" (Some "Lyon").

Definition greeting : App.Stream := App.mkStream ["Bon"; "jour"] None.

Definition broken : App.Stream :=
  App.mkStream ["Bon"] (Some (App.AnError "network down")).

(** A reply being streamed, and a splitter that recognises a weather
    location in it. *)
Definition asking_weather : App.State :=
  App.mkState [App.Message.make "1" "Welcome to Paris!" App.bot 0]
    [Places.paris] None false true
    (Some (App.Message.make "2" "I should check the weather in Lyon"
             App.bot 0))
    None JNull [] [].

Definition sees_weather (_ : string) : option App.StreamParts :=
  Some (App.mkParts "" None (Some "Lyon")).

End Chats.

(* ================================================================== *)
(** ** More of the regular expressions: the flag i, and replace *)
(* ================================================================== *)

Module RegexOps.

Import Regex.

(** Case-insensitive match of an ASCII letter of a pattern: the letter
    itself or its capital. *)
Definition lower (c : ascii) : ascii :=
  let n := nat_of_ascii c in
  if ((65 <=? n) && (n <=? 90))%nat then ascii_of_nat (n + 32) else c.

Definition same_letter (c d : ascii) : bool := Ascii.eqb (lower c) (lower d).

(** A literal under the flag i. *)
Fixpoint ci (w : string) : Regex :=
  match w with
  | EmptyString => Eps
  | String c w' => Seq (Cls (same_letter c)) (ci w')
  end.

(** [s.replace(r, '')] for a pattern [r] anchored at the start. *)
Definition remove_at_start (r : Regex) (s : string) : string :=
  match match_here r s with
  | Some (rest, _) => rest
  | None => s
  end.

(** [s.replace(r, '')] without the flag g: the leftmost match is
    removed. *)
Fixpoint remove_first (r : Regex) (s : string) : string :=
  match match_here r s with
  | Some (rest, _) => rest
  | None =>
      match s with
      | String c s' => String c (remove_first r s')
      | EmptyString => EmptyString
      end
  end.

(** [s.replace(r, rep)] with the flag g, for a pattern that cannot match
    the empty string: every match, from left to right, each search
    resuming where the previous match ended.  [fuel] bounds the number of
    turns. *)
Fixpoint replace_loop (fuel : nat) (r : Regex) (rep s : string) : string :=
  match fuel with
  | O => s
  | S fuel' =>
      match match_here r s with
      | Some (rest, _) => rep ++ replace_loop fuel' r rep rest
      | None =>
          match s with
          | String c s' => String c (replace_loop fuel' r rep s')
          | EmptyString => EmptyString
          end
      end
  end.

Definition replace_all (r : Regex) (rep s : string) : string :=
  replace_loop (S (String.length s)) r rep s.

End RegexOps.

(* ================================================================== *)
(** ** unnamed/part_001: the later revision of ChatMessage *)
(* ================================================================== *)

Module ChatMessageLater.

Import Regex RegexOps.

(** The pattern of line 28 after its anchor: one of the words in, at,
    near, the, and white space. *)
Definition leading_word : Regex :=
  seq [Group 1 (Alt (ci "in") (Alt (ci "at") (Alt (ci "near") (ci "the"))));
       Plus is_space].

(** The pattern of line 29: white space, one of the words area,
    district, region, and the end of the text. *)
Definition trailing_word : Regex :=
  seq [Plus is_space;
       Group 1 (Alt (ci "area") (Alt (ci "district") (ci "region")));
       Eos].

(** [s.split(',').length > 1] *)
Fixpoint has_comma (s : string) : bool :=
  match s with
  | EmptyString => false
  | String c s' => Ascii.eqb c "," || has_comma s'
  end.

(** [extractCityName(location)] (lines 19 to 33); [None] is the
    TypeError raised when [city] is truthy and not a string, or when
    [name] is not a string. *)
Definition extractCityName (location : Location) : option string :=
  if truthy (city location) then
    match city location with
    | JStr s => Some (trim s)
    | _ => None
    end
  else
    match name location with
    | JStr s =>
        if has_comma s then
          Some (remove_first trailing_word
                  (remove_at_start leading_word (trim (App.before_comma s))))
        else Some (trim (App.before_comma s))
    | _ => None
    end.

(** What the effect reads of [message]. *)
Record Message : Type := mkMessage {
  content : string;
  type : JsVal
}.

(** The state of the component, its two refs, and the calls it makes:
    to [cityContext.setCurrentCity], to [onLocationsUpdate], and the
    timers it starts (each shows the cards and selects the location it
    holds), oldest first. *)
Record State : Type := mkState {
  displayContent : string;
  locations : list Location;
  weatherLocation : option string;
  processedRef : bool;
  lastProcessedContentRef : string;
  cityContext : list string;
  onLocationsUpdate : list (list Location);
  timers : list Location
}.

Definition setDisplayContent (s : string) (st : State) : State :=
  mkState s (locations st) (weatherLocation st) (processedRef st)
    (lastProcessedContentRef st) (cityContext st) (onLocationsUpdate st)
    (timers st).

Definition setWeatherLocation (w : option string) (st : State) : State :=
  mkState (displayContent st) (locations st) w (processedRef st)
    (lastProcessedContentRef st) (cityContext st) (onLocationsUpdate st)
    (timers st).

(** Lines 52 to 55. *)
Definition reset (text : string) (st : State) : State :=
  if negb (String.eqb text (lastProcessedContentRef st)) then
    mkState (displayContent st) (locations st) (weatherLocation st) false
      text (cityContext st) (onLocationsUpdate st) (timers st)
  else st.

(** Lines 110 to 126. *)
Definition deliver (cityName : string) (processedLocations : list Location)
  (first : Location) (st : State) : State :=
  mkState (displayContent st) processedLocations (weatherLocation st) true
    (lastProcessedContentRef st) (cityContext st ++ [cityName])%list
    (onLocationsUpdate st ++ [processedLocations])%list
    (timers st ++ [first])%list.

Section WithHost.

Variable h : Host.

(** [processStreamingMessage], which is not among the sources; [None]
    when it throws. *)
Variable processStreamingMessage : string -> option App.StreamParts.

(** The inner [try] (lines 86 to 131): whatever is thrown leaves the
    state as it is. *)
Definition processLocations (jsonContent : string) (st : State) : M State :=
  try_catch
    (data <- or_throw SyntaxError (JSON_parse h jsonContent) ;;
     locations <- or_throw TypeError (get data "locations") ;;
     match locations with
     | JArr items =>
         processedLocations <- ChatMessage.filteredLocations h items ;;
         match processedLocations with
         | [] => ret st
         | first :: _ =>
             cityName <- or_throw TypeError (extractCityName first) ;;
             ret (deliver cityName processedLocations first st)
         end
     | _ => ret st
     end)
    (fun _ => ret st).

(** The effect (lines 50 to 139). *)
Definition effect (message : Message) (isStreaming : bool) (st0 : State)
  : M State :=
  let st := reset (content message) st0 in
  if String.eqb (content message) "" then
    ret (setDisplayContent (if isStreaming then "Thinking..." else "") st)
  else if match type message with
          | JStr t => String.eqb t "image"
          | _ => false
          end then
    ret (setDisplayContent "" st)
  else
    match processStreamingMessage (content message) with
    | None => ret (setDisplayContent (content message) st)
    | Some parts =>
        if App.present (App.weatherLocation parts) then
          ret (setDisplayContent (App.textContent parts)
                 (setWeatherLocation (App.weatherLocation parts) st))
        else
          let st :=
            if negb (String.eqb (App.textContent parts) "")
            then setDisplayContent (trim (App.textContent parts)) st
            else st in
          if App.present (App.jsonContent parts) && negb isStreaming
             && negb (processedRef st)
          then processLocations (App.text_of (App.jsonContent parts)) st
          else ret st
    end.

(** The effect run again and again on the same message, as renders with
    changing [isStreaming] (and changing callbacks) make it. *)
Fixpoint renders (message : Message) (flags : list bool) (st : State) : M State :=
  match flags with
  | [] => ret st
  | isStreaming :: rest =>
      st' <- effect message isStreaming st ;;
      renders message rest st'
  end.

End WithHost.

End ChatMessageLater.

(* ================================================================== *)
(** ** src/components/ChatMessage.tsx: the text shown and the city *)
(* ================================================================== *)

Module ChatMessageText.

Import Regex RegexOps.

(** What a word character is to the assertion of a word boundary:
    a letter, a digit or an underscore. *)
Definition word_char (c : ascii) : bool :=
  let n := nat_of_ascii c in
  (((48 <=? n) && (n <=? 57)) || ((65 <=? n) && (n <=? 90)) ||
   ((97 <=? n) && (n <=? 122)) || (n =? 95))%nat.

Definition not_space (c : ascii) : bool := negb (is_space c).

(** The pattern of line 49 (flags g and i) after its word boundary: the
    letters http, an optional s, a colon and two slashes, and one or more
    characters that are not white space. *)
Definition url : Regex :=
  seq [ci "http"; Alt (Cls (same_letter "s")) Eps; Lit "://"; Plus not_space].

Fixpoint last_char (s : string) (before : option ascii) : option ascii :=
  match s with
  | EmptyString => before
  | String c s' => last_char s' (Some c)
  end.

(** The first [replace] of line 49.  [prev] is the character of the
    text that precedes [s].  The pattern starts with a letter, so the
    word boundary in front of it holds exactly at the start of the text
    and after a character that is not a word character. *)
Fixpoint remove_urls (fuel : nat) (prev : option ascii) (s : string) : string :=
  match fuel with
  | O => s
  | S fuel' =>
      let boundary :=
        match prev with
        | Some p => negb (word_char p)
        | None => true
        end in
      match (if boundary then match_here url s else None) with
      | Some (rest, _) =>
          remove_urls fuel' (last_char (consumed s rest) prev) rest
      | None =>
          match s with
          | String c s' => String c (remove_urls fuel' (Some c) s')
          | EmptyString => EmptyString
          end
      end
  end.

(** Lines 48 to 51 without the fallback: URLs removed, white space
    normalised, ends trimmed. *)
Definition cleaned (textContent : string) : string :=
  trim (replace_all (Plus is_space) " "
          (remove_urls (S (String.length textContent)) None textContent)).

(** What the effect hands to [setDisplayContent] (lines 41 to 52). *)
Definition displayContent (processStreamingMessage : string -> App.StreamParts)
  (content : string) (isStreaming : bool) : string :=
  if String.eqb content "" then (if isStreaming then "Thinking..." else "")
  else
    let text := cleaned (App.textContent (processStreamingMessage content)) in
    if negb (String.eqb text "") then text
    else if isStreaming then "Thinking..." else "".

(** The pattern of line 36 (flag i): the words looking at and a space,
    then group 1, one or more characters other than a comma. *)
Definition looking_at : Regex :=
  seq [ci "looking at "; Group 1 (Plus (none_of [","%char]))].

(** [getCityFromMessage(content)] (lines 35 to 38); [None] is the
    TypeError raised if a match came without its group 1. *)
Definition getCityFromMessage (content : string) : option string :=
  match search looking_at content with
  | Some m =>
      match capture 1 (m_groups m) with
      | Some city => Some (trim city)
      | None => None
      end
  | None => Some ""
  end.

End ChatMessageText.

(** A text in which the only white space is the space character. *)
Definition plain_spaces (s : string) : bool :=
  all_chars (fun c => negb (is_space c) || Ascii.eqb c " ") s.

(** No two white-space characters in a row. *)
Fixpoint no_double_space (s : string) : bool :=
  match s with
  | String a s' =>
      negb (is_space a && starts_with_space s') && no_double_space s'
  | EmptyString => true
  end.

(** [s] without its leading characters that satisfy [p]. *)
Fixpoint skip (p : ascii -> bool) (s : string) : string :=
  match s with
  | String c s' => if p c then skip p s' else s
  | EmptyString => EmptyString
  end.

(** [s.toLowerCase()] on ASCII letters. *)
Fixpoint lowercase (s : string) : string :=
  match s with
  | String c s' => String (RegexOps.lower c) (lowercase s')
  | EmptyString => EmptyString
  end.

(* ================================================================== *)
(** ** api/chat.ts (in src/components/ChatMessage.tsx, after the component) *)
(* ================================================================== *)

Module ChatApi.

(** What the handler reads of the request. *)
Record Request : Type := mkRequest {
  method : string;
  body : JsVal
}.

(** The response as the handler drives it: the [setHeader] calls in
    order, the status, the chunks written, the object handed to [json],
    and whether the response was ended.  [headersSent] turns true with
    the first [write], [end] or [json]. *)
Record Response : Type := mkResponse {
  headers : list (string * string);
  statusCode : nat;
  written : list string;
  jsonBody : option JsVal;
  ended : bool;
  headersSent : bool
}.

Definition fresh : Response := mkResponse [] 200 [] None false false.

Definition setHeader (k v : string) (res : Response) : Response :=
  mkResponse (headers res ++ [(k, v)])%list (statusCode res) (written res)
    (jsonBody res) (ended res) (headersSent res).

Definition status (code : nat) (res : Response) : Response :=
  mkResponse (headers res) code (written res) (jsonBody res) (ended res)
    (headersSent res).

Definition write (chunk : string) (res : Response) : Response :=
  mkResponse (headers res) (statusCode res) (written res ++ [chunk])%list
    (jsonBody res) (ended res) true.

(** [res.end()] *)
Definition finish (res : Response) : Response :=
  mkResponse (headers res) (statusCode res) (written res) (jsonBody res)
    true true.

Definition json (v : JsVal) (res : Response) : Response :=
  mkResponse (headers res) (statusCode res) (written res) (Some v) true true.

(** An event of the stream the model API returns; [delta_text] is
    [chunk.delta.text]. *)
Record Chunk : Type := mkChunk {
  type : string;
  delta_text : JsVal
}.

(** What [anthropic.messages.create] and the iteration of its stream do:
    the stream yields [chunks], then ends or throws [failure] (with no
    chunk at all when the call itself is rejected). *)
Record Upstream : Type := mkUpstream {
  chunks : list Chunk;
  failure : option App.Failure
}.

(** The handler's answer, and the [messages] of each call it made to
    the model API. *)
Record Handled : Type := mkHandled {
  response : Response;
  created : list JsVal
}.

(** Two line feeds end an event of the stream. *)
Definition event (payload : string) : string :=
  "data: " ++ payload ++ String Regex.LF (String Regex.LF "").

Definition DONE : string := event "[DONE]".

Section WithEnvironment.

(** [JSON.stringify], the message of the TypeError the engine raises
    when [req.body] is [null] or [undefined], whether [NODE_ENV] is
    development, and the model API. *)
Variable JSON_stringify : JsVal -> string.
Variable destructuring_message : string.
Variable development : bool.
Variable create : JsVal -> Upstream.

(** The body of the [for await] loop (lines 206 to 210). *)
Fixpoint forward (stream : list Chunk) (res : Response) : Response :=
  match stream with
  | [] => res
  | chunk :: rest =>
      forward rest
        (if String.eqb (type chunk) "content_block_delta"
         then write (event (JSON_stringify (JObj [("text", delta_text chunk)]))) res
         else res)
  end.

(** The [catch] (lines 214 to 270). *)
Definition failed (error : App.Failure) (res : Response) : Response :=
  if negb (headersSent res) then
    match error with
    | App.AnError errorMessage =>
        if includes "401" errorMessage then
          json (JObj [("error", JStr "Authentication failed");
                      ("details", JStr "Invalid API key")])
               (status 401 res)
        else if includes "429" errorMessage then
          json (JObj [("error", JStr "Rate limit exceeded");
                      ("details", JStr "Please try again later")])
               (status 429 res)
        else if includes "413" errorMessage then
          json (JObj [("error", JStr "Payload too large");
                      ("details", JStr "Request content exceeds size limit")])
               (status 413 res)
        else
          json (JObj [("error", JStr "Internal server error");
                      ("message",
                       JStr (if development then errorMessage
                             else "An error occurred"))])
               (status 500 res)
    | App.NotAnError =>
        json (JObj [("error", JStr "Unknown error occurred")]) (status 500 res)
    end
  else
    finish
      (write DONE
         (write (event (JSON_stringify
                          (JObj [("error", JStr "Stream error occurred")])))
                res)).

(** [handler(req, res)] (lines 163 to 271).  The calls on [res] are
    taken not to throw: nothing is written after the response was
    ended. *)
Definition handler (req : Request) (res0 : Response) : Handled :=
  let res := setHeader "Access-Control-Allow-Credentials" "true" res0 in
  let res := setHeader "Access-Control-Allow-Origin" "*" res in
  let res := setHeader "Access-Control-Allow-Methods" "GET,POST,OPTIONS" res in
  let res := setHeader "Access-Control-Allow-Headers" "Content-Type" res in
  if String.eqb (method req) "OPTIONS" then
    mkHandled (finish (status 200 res)) []
  else if negb (String.eqb (method req) "POST") then
    mkHandled (json (JObj [("error", JStr "Method not allowed")]) (status 405 res)) []
  else
    match get (body req) "messages" with
    | None => mkHandled (failed (App.AnError destructuring_message) res) []
    | Some messages =>
        if negb (truthy messages) || negb (isArray messages) then
          mkHandled
            (json (JObj [("error",
                          JStr "Invalid request format: messages array required")])
                  (status 400 res))
            []
        else
          let res := setHeader "Content-Type" "text/event-stream" res in
          let res := setHeader "Cache-Control" "no-cache" res in
          let res := setHeader "Connection" "keep-alive" res in
          let stream := create messages in
          let res := forward (chunks stream) res in
          mkHandled
            (match failure stream with
             | None => finish (write DONE res)
             | Some error => failed error res
             end)
            [messages]
    end.

End WithEnvironment.

End ChatApi.

(** The events the handler writes for the chunks of a stream: one for
    each chunk of type [content_block_delta], in order. *)
Definition is_delta (chunk : ChatApi.Chunk) : bool :=
  String.eqb (ChatApi.type chunk) "content_block_delta".

Definition delta_events (JSON_stringify : JsVal -> string)
  (stream : list ChatApi.Chunk) : list string :=
  map (fun chunk =>
         ChatApi.event
           (JSON_stringify (JObj [("text", ChatApi.delta_text chunk)])))
      (filter is_delta stream).

(** Two failures the [catch] of the handler cannot tell apart in
    production: both are no [Error], or both are and their messages hold
    the same ones of the codes 401, 429 and 413. *)
Definition same_kind (a b : option App.Failure) : Prop :=
  match a, b with
  | None, None => True
  | Some App.NotAnError, Some App.NotAnError => True
  | Some (App.AnError m1), Some (App.AnError m2) =>
      includes "401" m1 = includes "401" m2 /\
      includes "429" m1 = includes "429" m2 /\
      includes "413" m1 = includes "413" m2
  | _, _ => False
  end.

(** Requests and model behaviours used as examples. *)
Module Calls.

Definition stringify (v : JsVal) : string :=
  match v with
  | JObj [(k, JStr s)] =>
      String "{" (String DQ (k ++ String DQ (String ":" (String DQ (s ++ String DQ "}")))))
  | _ => "null"
  end.

Definition ask : ChatApi.Request :=
  ChatApi.mkRequest "POST"
    (JObj [("messages", JArr [JObj [("role", JStr "user"); ("content", JStr "Hi")]])]).

Definition answers (_ : JsVal) : ChatApi.Upstream :=
  ChatApi.mkUpstream
    [ChatApi.mkChunk "message_start" JUndefined;
     ChatApi.mkChunk "content_block_delta" (JStr "Bon");
     ChatApi.mkChunk "content_block_delta" (JStr "jour");
     ChatApi.mkChunk "message_stop" JUndefined]
    None.

Definition breaks (_ : JsVal) : ChatApi.Upstream :=
  ChatApi.mkUpstream
    [ChatApi.mkChunk "content_block_delta" (JStr "Bon")]
    (Some (App.AnError "socket hang up")).

(** Two rejections with different messages that hold the same code. *)
Definition rejects (_ : JsVal) : ChatApi.Upstream :=
  ChatApi.mkUpstream [] (Some (App.AnError "401 invalid x-api-key sk-ant-123")).

Definition rejects_too (_ : JsVal) : ChatApi.Upstream :=
  ChatApi.mkUpstream [] (Some (App.AnError "authentication_error (401)")).

End Calls.

(** Locations as the later revision of [ChatMessage] builds them, for
    [extractCityName]. *)
Module Named.

Definition place (nm cty : JsVal) : Location :=
  mkLocation "loc-1700000000000-0" nm cty JUndefined
    (mkPosition (JNum (num 0)) (JNum (num 0))) (JNum (Fin (9 # 2)))
    (JNum (num 1000)) (JStr "") (JStr "").

Definition marais : Location :=
  place (JStr " the  Marais District , Paris") JUndefined.

End Named.

(** A pattern without its capturing groups. *)
Fixpoint erase (r : Regex.Regex) : Regex.Regex :=
  match r with
  | Regex.Seq r1 r2 => Regex.Seq (erase r1) (erase r2)
  | Regex.Alt r1 r2 => Regex.Alt (erase r1) (erase r2)
  | Regex.Group _ r1 => erase r1
  | _ => r
  end.

(* ================================================================== *)
(** ** The matcher consumes what a pattern requires *)
(* ================================================================== *)

Lemma star_greedy_consumes R p s :
  forall (k : string -> option R) x,
    Regex.star_greedy R p s k = Some x ->
    exists s', k s' = Some x /\ String.length s' <= String.length s.
Proof.
  induction s as [| c s IH]; intros k x H; simpl in H.
  - exists EmptyString. split; [exact H | reflexivity].
  - destruct (p c).
    + destruct (Regex.star_greedy R p s k) as [y |] eqn:E.
      * inversion H; subst y. destruct (IH k x E) as (s' & Hk & Hlen).
        exists s'. split; [exact Hk | simpl; lia].
      * exists (String c s). split; [exact H | reflexivity].
    + exists (String c s). split; [exact H | reflexivity].
Qed.

Lemma star_lazy_consumes R p s :
  forall (k : string -> option R) x,
    Regex.star_lazy R p s k = Some x ->
    exists s', k s' = Some x /\ String.length s' <= String.length s.
Proof.
  induction s as [| c s IH]; intros k x H; simpl in H.
  - destruct (k EmptyString) as [y |] eqn:E; [| discriminate H].
    exists EmptyString. split; [congruence | reflexivity].
  - destruct (k (String c s)) as [y |] eqn:E.
    + exists (String c s). split; [congruence | reflexivity].
    + destruct (p c); [| discriminate H].
      destruct (IH k x H) as (s' & Hk & Hlen).
      exists s'. split; [exact Hk | simpl; lia].
Qed.

Lemma strip_prefix_length w :
  forall s s',
    Regex.strip_prefix w s = Some s' ->
    String.length s' + String.length w = String.length s.
Proof.
  induction w as [| a w IH]; intros s s' H; simpl in H.
  - inversion H; subst. simpl. lia.
  - destruct s as [| b s]; [discriminate H |].
    destruct (Ascii.eqb a b); [| discriminate H].
    apply IH in H. simpl. lia.
Qed.

(** A successful run hands its continuation a rest that is shorter than
    the input by at least [min_len r]. *)
Lemma run_consumes R r :
  forall s caps (k : string -> Regex.Caps -> option R) x,
    Regex.run R r s caps k = Some x ->
    exists s' caps',
      k s' caps' = Some x /\
      String.length s' + Regex.min_len r <= String.length s.
Proof.
  induction r as [| c | w | p | p | p | p | p | r1 IH1 r2 IH2 | r1 IH1 r2 IH2
                  | i r1 IH1 |];
    intros s caps k x H; simpl in H.
  - exists s, caps. split; [exact H | simpl; lia].
  - destruct s as [| c' s]; [discriminate H |].
    destruct (Ascii.eqb c c'); [| discriminate H].
    exists s, caps. split; [exact H | simpl; lia].
  - destruct (Regex.strip_prefix w s) as [s' |] eqn:E; [| discriminate H].
    apply strip_prefix_length in E.
    exists s', caps. split; [exact H | simpl; lia].
  - destruct s as [| c' s]; [discriminate H |].
    destruct (p c'); [| discriminate H].
    exists s, caps. split; [exact H | simpl; lia].
  - apply star_greedy_consumes in H. destruct H as (s' & Hk & Hlen).
    exists s', caps. split; [exact Hk | simpl; lia].
  - destruct s as [| c' s]; [discriminate H |].
    destruct (p c'); [| discriminate H].
    apply star_greedy_consumes in H. destruct H as (s' & Hk & Hlen).
    exists s', caps. split; [exact Hk | simpl; lia].
  - apply star_lazy_consumes in H. destruct H as (s' & Hk & Hlen).
    exists s', caps. split; [exact Hk | simpl; lia].
  - destruct s as [| c' s]; [discriminate H |].
    destruct (p c'); [| discriminate H].
    apply star_lazy_consumes in H. destruct H as (s' & Hk & Hlen).
    exists s', caps. split; [exact Hk | simpl; lia].
  - apply IH1 in H. destruct H as (s1 & caps1 & H & Hlen1).
    apply IH2 in H. destruct H as (s2 & caps2 & H & Hlen2).
    exists s2, caps2. split; [exact H | simpl; lia].
  - destruct (Regex.run R r1 s caps k) as [y |] eqn:E.
    + inversion H; subst y. apply IH1 in E.
      destruct E as (s' & caps' & Hk & Hlen).
      exists s', caps'. split; [exact Hk | simpl; lia].
    + apply IH2 in H. destruct H as (s' & caps' & Hk & Hlen).
      exists s', caps'. split; [exact Hk | simpl; lia].
  - apply IH1 in H. destruct H as (s' & caps' & Hk & Hlen).
    eexists s', _. split; [exact Hk | simpl; lia].
  - destruct s as [| c' s]; [| discriminate H].
    exists EmptyString, caps. split; [exact H | simpl; lia].
Qed.

Lemma search_from_consumes r :
  forall s m rest,
    Regex.search_from r s = Some (m, rest) ->
    String.length rest + Regex.min_len r <= String.length s.
Proof.
  induction s as [| c s IH]; intros m rest H; simpl in H.
  - destruct (Regex.match_here r EmptyString) as [[rest' caps] |] eqn:E;
      [| discriminate H].
    inversion H; subst. unfold Regex.match_here in E.
    apply run_consumes in E. destruct E as (s' & caps' & Hk & Hlen).
    inversion Hk; subst. exact Hlen.
  - destruct (Regex.match_here r (String c s)) as [[rest' caps] |] eqn:E.
    + inversion H; subst. unfold Regex.match_here in E.
      apply run_consumes in E. destruct E as (s' & caps' & Hk & Hlen).
      inversion Hk; subst. exact Hlen.
    + apply IH in H. simpl. lia.
Qed.

(** More fuel than the text has characters changes nothing: for a
    pattern that cannot match the empty string, [exec_all] lists every
    match the loop of the source visits. *)
Lemma exec_loop_fuel r :
  1 <= Regex.min_len r ->
  forall fuel s,
    String.length s < fuel ->
    Regex.exec_loop fuel r s = Regex.exec_all r s.
Proof.
  intros Hmin. unfold Regex.exec_all.
  assert (H : forall n fuel1 fuel2 s,
             String.length s < n -> String.length s < fuel1 ->
             String.length s < fuel2 ->
             Regex.exec_loop fuel1 r s = Regex.exec_loop fuel2 r s).
  { induction n as [| n IH]; intros fuel1 fuel2 s Hn H1 H2; [lia |].
    destruct fuel1 as [| fuel1]; [lia |]. destruct fuel2 as [| fuel2]; [lia |].
    simpl. destruct (Regex.search_from r s) as [[m rest] |] eqn:E; [| reflexivity].
    apply search_from_consumes in E. f_equal. apply IH; lia. }
  intros fuel s Hfuel. apply (H (S (String.length s))); lia.
Qed.

Lemma LOCATION_PATTERN_consumes :
  Regex.min_len LocationParser.LOCATION_PATTERN = 3.
Proof. reflexivity. Qed.

(** The scan of [parseTextLocations] does not depend on the bound put on
    its loop. *)
Lemma LOCATION_PATTERN_exec_all fuel text :
  String.length text < fuel ->
  Regex.exec_loop fuel LocationParser.LOCATION_PATTERN text
  = Regex.exec_all LocationParser.LOCATION_PATTERN text.
Proof.
  apply exec_loop_fuel. rewrite LOCATION_PATTERN_consumes. lia.
Qed.

(* ================================================================== *)
(** ** Reasoning about computations *)
(* ================================================================== *)

Lemma bind_ok_inv {A B} (m : M A) (k : A -> M B) c b c' :
  bind m k c = (Ok b, c') ->
  exists a c1, m c = (Ok a, c1) /\ k a c1 = (Ok b, c').
Proof.
  unfold bind. destruct (m c) as [[a | e] c1]; intros H.
  - exists a, c1. split; [reflexivity | exact H].
  - discriminate H.
Qed.

Lemma bind_throw_inv {A B} (m : M A) (k : A -> M B) c e c' :
  bind m k c = (Throw e, c') ->
  m c = (Throw e, c') \/
  exists a c1, m c = (Ok a, c1) /\ k a c1 = (Throw e, c').
Proof.
  unfold bind. destruct (m c) as [[a | e0] c1]; intros H.
  - right. exists a, c1. split; [reflexivity | exact H].
  - left. inversion H. reflexivity.
Qed.

Lemma bind_ok {A B} (m : M A) (k : A -> M B) c a c1 :
  m c = (Ok a, c1) -> bind m k c = k a c1.
Proof. unfold bind. intros ->. reflexivity. Qed.

Lemma bind_throw {A B} (m : M A) (k : A -> M B) c e c1 :
  m c = (Throw e, c1) -> bind m k c = (Throw e, c1).
Proof. unfold bind. intros ->. reflexivity. Qed.

Lemma ret_ok_inv {A} (a b : A) c c' :
  ret a c = (Ok b, c') -> a = b /\ c = c'.
Proof. unfold ret. intros H. inversion H. split; reflexivity. Qed.

Lemma or_throw_ok_inv {A} e (o : option A) c a c' :
  or_throw e o c = (Ok a, c') -> o = Some a /\ c = c'.
Proof.
  destruct o as [x |]; simpl; unfold ret, throw; intros H; inversion H.
  split; reflexivity.
Qed.

Lemma now_inv h c t c' :
  now h c = (Ok t, c') ->
  t = Date_now h (clock_reads c) /\
  c' = mkCalls (S (clock_reads c)) (random_draws c).
Proof. unfold now. intros H. inversion H. split; reflexivity. Qed.

Lemma to_number_inv h v c n c' :
  to_number h v c = (Ok n, c') ->
  printable v = true /\ n = Number h v /\ c = c'.
Proof.
  unfold to_number. destruct (printable v); intros H; [| discriminate H].
  inversion H. repeat split; reflexivity.
Qed.

Lemma to_string_inv h v c s c' :
  to_string h v c = (Ok s, c') ->
  printable v = true /\ s = str h v /\ c = c'.
Proof.
  unfold to_string. destruct (printable v); intros H; [| discriminate H].
  inversion H. repeat split; reflexivity.
Qed.

Lemma to_number_ok h v c :
  printable v = true -> to_number h v c = (Ok (Number h v), c).
Proof. unfold to_number. intros ->. reflexivity. Qed.

Lemma to_string_ok h v c :
  printable v = true -> to_string h v c = (Ok (str h v), c).
Proof. unfold to_string. intros ->. reflexivity. Qed.

Lemma random_inv h c r c' :
  random h c = (Ok r, c') ->
  r = Math_random h (random_draws c) /\
  c' = mkCalls (clock_reads c) (S (random_draws c)).
Proof. unfold random. intros H. inversion H. split; reflexivity. Qed.

(** Peels the successful run of a sequence of binds, one layer per
    call. *)
Ltac step_ok :=
  match goal with
  | H : bind _ _ _ = (Ok _, _) |- _ =>
      apply bind_ok_inv in H; destruct H as (? & ? & ? & H)
  | H : or_throw _ _ _ = (Ok _, _) |- _ =>
      apply or_throw_ok_inv in H; destruct H as [? ?]; subst
  | H : ret _ _ = (Ok _, _) |- _ =>
      apply ret_ok_inv in H; destruct H as [? ?]; subst
  | H : throw _ _ = (Ok _, _) |- _ =>
      unfold throw in H; discriminate H
  | H : now _ _ = (Ok _, _) |- _ =>
      apply now_inv in H; destruct H as [? ?]; subst
  | H : random _ _ = (Ok _, _) |- _ =>
      apply random_inv in H; destruct H as [? ?]; subst
  | H : to_number _ _ _ = (Ok _, _) |- _ =>
      apply to_number_inv in H; destruct H as (? & ? & ?); subst
  | H : to_string _ _ _ = (Ok _, _) |- _ =>
      apply to_string_inv in H; destruct H as (? & ? & ?); subst
  | H : (if ?b then _ else _) _ = (Ok _, _) |- _ =>
      let E := fresh "E" in destruct b eqn:E
  | H : (match ?x with _ => _ end) _ = (Ok _, _) |- _ =>
      let E := fresh "E" in destruct x eqn:E
  end.

Ltac steps_ok := repeat step_ok.

Lemma map_from_mapped {A B} (f : A -> nat -> M B) l :
  forall i c bs c', map_from f l i c = (Ok bs, c') -> mapped f i l bs.
Proof.
  induction l as [| a l IH]; intros i c bs c' H; simpl in H.
  - apply ret_ok_inv in H. destruct H as [<- _]. constructor.
  - steps_ok. econstructor; eauto.
Qed.

Lemma mapped_length {A B} (f : A -> nat -> M B) i l bs :
  mapped f i l bs -> length bs = length l.
Proof. induction 1; simpl; congruence. Qed.

Lemma mapped_Forall2 {A B} (f : A -> nat -> M B) (P : A -> B -> Prop) :
  (forall a i c b c', f a i c = (Ok b, c') -> P a b) ->
  forall i l bs, mapped f i l bs -> Forall2 P l bs.
Proof.
  intros HP i l bs H. induction H; constructor; eauto.
Qed.

Lemma mapped_Forall {A B} (f : A -> nat -> M B) (P : B -> Prop) :
  (forall a i c b c', f a i c = (Ok b, c') -> P b) ->
  forall i l bs, mapped f i l bs -> Forall P bs.
Proof.
  intros HP i l bs H. induction H; constructor; eauto.
Qed.

(* ================================================================== *)
(** ** Numbers and ranges *)
(* ================================================================== *)

Lemma num_le_fin_inv a b :
  num_le a b = true ->
  forall x y, a = Fin x -> b = Fin y -> (x <= y)%Q.
Proof.
  intros H x y -> ->. simpl in H. apply Qle_bool_iff. exact H.
Qed.

Lemma bounded_is_finite lo hi n :
  num_ge n (num lo) = true -> num_le n (num hi) = true ->
  exists q, n = Fin q /\ (inject_Z lo <= q)%Q /\ (q <= inject_Z hi)%Q.
Proof.
  unfold num_ge, num. destruct n as [| | | q]; simpl; try discriminate.
  intros H1 H2. exists q. repeat split; apply Qle_bool_iff; assumption.
Qed.

Lemma isValidCoordinates_sound coords :
  LocationParser.isValidCoordinates coords = true -> valid_pair coords.
Proof.
  unfold LocationParser.isValidCoordinates.
  destruct coords as [| | | | | items |]; try discriminate.
  destruct items as [| a [| b [| x rest]]]; simpl; try discriminate.
  destruct a as [| | | la | | |]; try discriminate.
  destruct b as [| | | lo | | |]; try discriminate.
  intros H.
  apply andb_prop in H. destruct H as [H H4].
  apply andb_prop in H. destruct H as [H H3].
  apply andb_prop in H. destruct H as [H1 H2].
  destruct (bounded_is_finite _ _ _ H1 H2) as (x & -> & Hx1 & Hx2).
  destruct (bounded_is_finite _ _ _ H3 H4) as (y & -> & Hy1 & Hy2).
  exists (JNum (Fin x)), (JNum (Fin y)).
  split; [reflexivity |]. split; [exists x | exists y]; auto.
Qed.

Lemma isValidCoordinates_complete coords :
  valid_pair coords -> LocationParser.isValidCoordinates coords = true.
Proof.
  intros (la & lo & -> & (x & -> & Hx1 & Hx2) & (y & -> & Hy1 & Hy2)).
  simpl. unfold num_ge, num. simpl.
  apply Qle_bool_iff in Hx1, Hx2, Hy1, Hy2.
  rewrite Hx1, Hx2, Hy1, Hy2. reflexivity.
Qed.


(** Rounding to the nearest double does not cross a double: a bound
    [m * 2^j] that the 53 bits of the argument can resolve is kept. *)
Module Binary64Facts.
Import Binary64.

Lemma pow2_pos k : (0 < pow2 k)%Q.
Proof. apply Qpower_0_lt. reflexivity. Qed.

Lemma pow2_add j k : (pow2 (j + k) == pow2 j * pow2 k)%Q.
Proof. apply Qpower_plus. discriminate. Qed.

Lemma pow2_Z k : (0 <= k)%Z -> (pow2 k == inject_Z (2 ^ k))%Q.
Proof. intros H. unfold pow2. rewrite Zpower_Qpower by exact H. reflexivity. Qed.

Lemma pow2_lt_inv j k : (pow2 j < pow2 k)%Q -> (j < k)%Z.
Proof. intros H. apply (Qpower_lt_compat_l_inv 2); [exact H | reflexivity]. Qed.

Lemma nearest_even_lower q n : (inject_Z n <= q)%Q -> (n <= nearest_even q)%Z.
Proof.
  intros H. assert (Hf : (n <= Qfloor q)%Z).
  { rewrite <- (Qfloor_Z n). apply Qfloor_resp_le. exact H. }
  unfold nearest_even. destruct (Qcompare _ _); [destruct (Z.even _)| |]; lia.
Qed.

Lemma nearest_even_upper q n : (q <= inject_Z n)%Q -> (nearest_even q <= n)%Z.
Proof.
  intros H. pose proof (Qfloor_le q) as Hle.
  assert (Hf : (Qfloor q <= n)%Z).
  { rewrite Zle_Qle. eapply Qle_trans; eassumption. }
  assert (Hup : (inject_Z (Qfloor q) < q)%Q -> (Qfloor q + 1 <= n)%Z).
  { intros Hlt. assert (Hs : (inject_Z (Qfloor q) < inject_Z n)%Q)
      by (eapply Qlt_le_trans; eassumption).
    rewrite <- Zlt_Qlt in Hs. lia. }
  unfold nearest_even.
  destruct (Qcompare (q - inject_Z (Qfloor q)) (1 # 2)) eqn:Hc.
  - destruct (Z.even _); [exact Hf|]. apply Hup.
    apply Qeq_alt in Hc. lra.
  - exact Hf.
  - apply Hup. apply Qgt_alt in Hc. lra.
Qed.

Lemma ilog2_below q : (0 < q)%Q -> (pow2 (ilog2 q) <= q)%Q.
Proof.
  intros Hq. unfold ilog2.
  destruct (Qle_bool _ q) eqn:Ht; [apply Qle_bool_iff; exact Ht|].
  destruct q as [n d]. cbn [Qnum Qden].
  assert (Hn : (0 < n)%Z) by (unfold Qlt in Hq; cbn in Hq; lia).
  pose proof (Z.log2_spec n Hn) as [Hlo _].
  pose proof (Z.log2_spec (Zpos d) eq_refl) as [_ Hhi].
  pose proof (Z.log2_nonneg n) as Ha.
  pose proof (Z.log2_nonneg (Zpos d)) as Hb.
  set (a := Z.log2 n) in *. set (b := Z.log2 (Zpos d)) in *.
  replace (a - b - 1)%Z with (a + - (b + 1))%Z by lia.
  rewrite pow2_add. unfold pow2 at 2. rewrite Qpower_opp.
  fold (pow2 (b + 1)). rewrite !pow2_Z by lia.
  replace (Z.succ b) with (b + 1)%Z in Hhi by lia.
  assert (Hp : (0 < 2 ^ (b + 1))%Z) by (apply Z.pow_pos_nonneg; lia).
  change (inject_Z (2 ^ a) / inject_Z (2 ^ (b + 1)) <= n # d)%Q.
  apply Qle_shift_div_r; [rewrite <- (Zlt_Qlt 0); exact Hp|].
  unfold Qle. cbn [Qnum Qden inject_Z Qmult]. 
  set (p := (2 ^ (b + 1))%Z) in *. set (p2 := (2 ^ a)%Z) in *.
  nia.
Qed.

Lemma exponent_le q j :
  (0 < q)%Q -> (q < pow2 (j + 53))%Q -> (-1074 <= j)%Z -> (exponent q <= j)%Z.
Proof.
  intros Hq Hlt Hj. unfold exponent.
  replace (Qabs q) with q.
  2:{ destruct q as [n d]. unfold Qabs. rewrite Z.abs_eq; [reflexivity|].
      unfold Qlt in Hq. cbn in Hq. lia. }
  assert (ilog2 q < j + 53)%Z; [|lia].
  apply pow2_lt_inv. eapply Qle_lt_trans; [apply ilog2_below; exact Hq | exact Hlt].
Qed.

Lemma grid_refines e j m :
  (e <= j)%Z -> (inject_Z m * pow2 j == inject_Z (m * 2 ^ (j - e)) * pow2 e)%Q.
Proof.
  intros H. replace j with ((j - e) + e)%Z at 1 by lia.
  rewrite pow2_add, pow2_Z by lia. rewrite inject_Z_mult. ring.
Qed.

Lemma round_upper q m j :
  (0 < q)%Q -> (q <= inject_Z m * pow2 j)%Q -> (q < pow2 (j + 53))%Q ->
  (-1074 <= j)%Z -> (round q <= inject_Z m * pow2 j)%Q.
Proof.
  intros Hq Hle Hlt Hj. unfold round.
  destruct (Qeq_bool q 0) eqn:Hz.
  { apply Qeq_bool_iff in Hz. lra. }
  pose proof (exponent_le q j Hq Hlt Hj) as He.
  pose proof (pow2_pos (exponent q)) as Hp.
  rewrite (grid_refines _ _ m He) in *.
  apply Qmult_le_compat_r; [|lra].
  rewrite <- Zle_Qle. apply nearest_even_upper.
  apply Qle_shift_div_r; assumption.
Qed.

Lemma round_lower q m j :
  (0 < q)%Q -> (inject_Z m * pow2 j <= q)%Q -> (q < pow2 (j + 53))%Q ->
  (-1074 <= j)%Z -> (inject_Z m * pow2 j <= round q)%Q.
Proof.
  intros Hq Hle Hlt Hj. unfold round.
  destruct (Qeq_bool q 0) eqn:Hz.
  { apply Qeq_bool_iff in Hz. lra. }
  pose proof (exponent_le q j Hq Hlt Hj) as He.
  pose proof (pow2_pos (exponent q)) as Hp.
  rewrite (grid_refines _ _ m He) in *.
  apply Qmult_le_compat_r; [|lra].
  rewrite <- Zle_Qle. apply nearest_even_lower.
  apply Qle_shift_div_l; assumption.
Qed.

Lemma round_nonneg q : (0 <= q)%Q -> (0 <= round q)%Q.
Proof.
  intros Hq. unfold round. destruct (Qeq_bool q 0); [lra|].
  pose proof (pow2_pos (exponent q)) as Hp.
  apply Qmult_le_0_compat; [|lra].
  rewrite <- (Zle_Qle 0). apply nearest_even_lower.
  apply Qle_shift_div_l; [exact Hp|].
  change (inject_Z 0) with 0%Q. rewrite Qmult_0_l. exact Hq.
Qed.

End Binary64Facts.

(** [4.5 + r * 0.5] for [r] in [[0, 1)]: rounding can reach 5, and
    cannot pass it. *)
Lemma random_rating_bounds r :
  (0 <= r)%Q -> (r < 1)%Q ->
  ((9 # 2) <= random_rating r)%Q /\ (random_rating r <= 5)%Q.
Proof.
  intros H0 H1. unfold random_rating.
  set (y := Binary64.round (r * (1 # 2))).
  assert (Hy0 : (0 <= y)%Q) by (apply Binary64Facts.round_nonneg; lra).
  assert (Hy1 : (y <= 1 # 2)%Q).
  { destruct (Qlt_le_dec 0 (r * (1 # 2))) as [Hpos | Hneg].
    - apply (Binary64Facts.round_upper _ 1 (-1));
        [exact Hpos | | | lia].
      + change (inject_Z 1 * Binary64.pow2 (-1))%Q with (1 * (1 # 2))%Q. lra.
      + change (Binary64.pow2 (-1 + 53)) with (inject_Z (2 ^ 52)). 
        assert (1 <= inject_Z (2 ^ 52))%Q by (rewrite <- (Zle_Qle 1); lia). lra.
    - unfold y, Binary64.round.
      destruct (Qeq_bool _ 0) eqn:Hz; [lra|].
      apply Qeq_bool_neq in Hz. exfalso. apply Hz. lra. }
  assert (H8 : (8 <= Binary64.pow2 (-1 + 53))%Q).
  { change (Binary64.pow2 (-1 + 53)) with (inject_Z (2 ^ 52)).
    rewrite <- (Zle_Qle 8). lia. }
  split.
  - apply (Binary64Facts.round_lower _ 9 (-1)); [lra | | lra | lia].
    change (inject_Z 9 * Binary64.pow2 (-1))%Q with (9 * (1 # 2))%Q. lra.
  - change 5%Q with (inject_Z 5 * Binary64.pow2 0)%Q.
    apply Binary64Facts.round_upper; [lra | | | lia].
    + change (inject_Z 5 * Binary64.pow2 0)%Q with 5%Q. lra.
    + assert (8 <= Binary64.pow2 (0 + 53))%Q; [|lra].
      change (Binary64.pow2 (0 + 53)) with (inject_Z (2 ^ 53)).
      rewrite <- (Zle_Qle 8). lia.
Qed.

(** The largest double below 1 is drawn: the sum rounds to 5. *)
Example rating_can_reach_five :
  (random_rating (1 - (1 # 2 ^ 52)) == 5)%Q.
Proof. vm_compute. reflexivity. Qed.

(* ================================================================== *)
(** ** Identifiers *)
(* ================================================================== *)

Lemma append_assoc (a b c : string) : (a ++ b) ++ c = a ++ (b ++ c).
Proof. induction a as [| x a IH]; simpl; [reflexivity | now rewrite IH]. Qed.

Lemma has_dash_app p d : has_dash (p ++ String "-" d) = true.
Proof.
  induction p as [| x p IH]; simpl.
  - reflexivity.
  - rewrite IH. apply orb_true_r.
Qed.

Lemma after_last_dash_app p d :
  has_dash d = false -> after_last_dash (p ++ String "-" d) = d.
Proof.
  intros Hd. induction p as [| x p IH]; simpl.
  - rewrite Hd. reflexivity.
  - rewrite has_dash_app. exact IH.
Qed.

Lemma string_of_uint_no_dash d :
  has_dash (NilEmpty.string_of_uint d) = false.
Proof. induction d; simpl; auto. Qed.

Lemma string_of_nat_inj n m : string_of_nat n = string_of_nat m -> n = m.
Proof.
  unfold string_of_nat. intros H.
  apply DecimalNat.Unsigned.to_uint_inj.
  assert (E : Some (Nat.to_uint n) = Some (Nat.to_uint m)).
  { rewrite <- (NilEmpty.usu (Nat.to_uint n)), <- (NilEmpty.usu (Nat.to_uint m)).
    now rewrite H. }
  now inversion E.
Qed.

Lemma carries_index_inj i j ident :
  carries_index i ident -> carries_index j ident -> i = j.
Proof.
  intros [p ->] [q H].
  apply string_of_nat_inj.
  rewrite <- (after_last_dash_app p (string_of_nat i))
    by apply string_of_uint_no_dash.
  rewrite H. apply after_last_dash_app, string_of_uint_no_dash.
Qed.

Lemma loc_id_carries_index t i :
  carries_index i ("loc-" ++ string_of_Z t ++ "-" ++ string_of_nat i).
Proof.
  exists ("loc-" ++ string_of_Z t). rewrite append_assoc. reflexivity.
Qed.

Lemma json_id_carries_index t i :
  carries_index i (string_of_Z t ++ "-loc-" ++ string_of_nat i).
Proof.
  exists (string_of_Z t ++ "-loc").
  rewrite append_assoc. reflexivity.
Qed.

Lemma indexed_from_above i ids :
  indexed_from i ids ->
  forall ident, In ident ids -> exists j, i <= j /\ carries_index j ident.
Proof.
  induction 1 as [| i ident rest Hc _ IH]; intros x Hin; simpl in Hin.
  - contradiction.
  - destruct Hin as [<- | Hin].
    + exists i. split; [lia | exact Hc].
    + destruct (IH x Hin) as (j & Hj & Hx). exists j. split; [lia | exact Hx].
Qed.

Lemma indexed_from_NoDup i ids : indexed_from i ids -> NoDup ids.
Proof.
  induction 1 as [| i ident rest Hc Hrest IH]; constructor.
  - intros Hin.
    destruct (indexed_from_above _ _ Hrest _ Hin) as (j & Hj & Hx).
    pose proof (carries_index_inj _ _ _ Hc Hx). lia.
  - exact IH.
Qed.

Lemma indexed_from_snoc i ids ident :
  indexed_from i ids -> carries_index (i + length ids) ident ->
  indexed_from i (ids ++ [ident])%list.
Proof.
  induction 1 as [i | i x rest Hc Hrest IH]; simpl; intros Hn.
  - rewrite Nat.add_0_r in Hn. constructor; [exact Hn | constructor].
  - constructor; [exact Hc |]. apply IH.
    replace (S i + length rest) with (i + S (length rest)) by lia. exact Hn.
Qed.

(* ================================================================== *)
(** ** What the callbacks build *)
(* ================================================================== *)

Section Callbacks.

Variable h : Host.

Lemma json_location_inv loc i c l c' :
  LocationParser.json_location h loc i c = (Ok l, c') ->
  exists s rating0 reviews0,
    get loc "coordinates" = Some (JsonLocation.coordinates l) /\
    LocationParser.isValidCoordinates (JsonLocation.coordinates l) = true /\
    get loc "name" = Some (JStr s) /\
    get loc "rating" = Some rating0 /\
    get loc "reviews" = Some reviews0 /\
    JsonLocation.name l = trim s /\
    JsonLocation.rating l = LocationParser.or_zero (Number h rating0) /\
    JsonLocation.reviews l = LocationParser.or_zero (Number h reviews0) /\
    JsonLocation.id l =
      string_of_Z (Date_now h (clock_reads c)) ++ "-loc-" ++ string_of_nat i.
Proof.
  unfold LocationParser.json_location, LocationParser.number_or_zero.
  intros H.
  steps_ok; simpl;
    match goal with
    | E : negb _ = false |- _ => apply negb_false_iff in E
    end;
    repeat match goal with
    | H1 : get loc ?k = Some _, H2 : get loc ?k = Some _ |- _ =>
        rewrite H1 in H2; inversion H2; subst; clear H2
    end;
    eauto 12.
Qed.

Lemma response_location_inv loc i c l c' :
  LocationParser.response_location h loc i c = (Ok l, c') ->
  exists coordinates rating0 reviews0,
    get loc "name" = Some (name l) /\
    get loc "coordinates" = Some coordinates /\
    get_index coordinates 0 = Some (lat (position l)) /\
    get_index coordinates 1 = Some (lng (position l)) /\
    get loc "rating" = Some rating0 /\
    rating l = or_else rating0 (JNum (Fin (9 # 2))) /\
    get loc "reviews" = Some reviews0 /\
    (if truthy reviews0 then reviews l = reviews0
     else exists n,
         reviews l = JNum (num (random_reviews (Math_random h n)))) /\
    id l = "loc-" ++ string_of_Z (Date_now h (clock_reads c)) ++ "-"
                  ++ string_of_nat i.
Proof.
  unfold LocationParser.response_location. intros H.
  steps_ok; simpl;
    match goal with
    | E : truthy ?r = _ |- context [get loc "reviews" = Some ?r] => idtac
    | _ => idtac
    end;
    do 3 eexists; repeat (split; [eassumption || reflexivity |]);
    try reflexivity.
  all: try (split; [| reflexivity]).
  all: try match goal with
           | E : truthy ?r = true |- (if truthy ?r then _ else _) =>
               rewrite E; reflexivity
           | E : truthy ?r = false |- (if truthy ?r then _ else _) =>
               rewrite E; eexists; reflexivity
           end.
Qed.

Lemma chat_location_inv loc i c l c' :
  ChatMessage.chat_location h loc i c = (Ok l, c') ->
  exists coordinates c0 c1 rating0 reviews0,
    get loc "name" = Some (name l) /\
    get loc "coordinates" = Some coordinates /\
    get_index coordinates 0 = Some c0 /\
    get_index coordinates 1 = Some c1 /\
    position l = mkPosition (JNum (Number h c0)) (JNum (Number h c1)) /\
    get loc "rating" = Some rating0 /\
    rating l = or_else rating0 (JNum (Fin (9 # 2))) /\
    get loc "reviews" = Some reviews0 /\
    reviews l = or_else reviews0 (JNum (num 1000)) /\
    id l = "loc-" ++ string_of_Z (Date_now h (clock_reads c)) ++ "-"
                  ++ string_of_nat i.
Proof.
  unfold ChatMessage.chat_location. intros H.
  steps_ok; simpl;
    do 5 eexists; repeat (split; [eassumption || reflexivity |]);
    reflexivity.
Qed.

Lemma text_location_inv m count c l c' :
  LocationParser.text_location h m count c = (Ok (Some l), c') ->
  exists nm r1 r2,
    Regex.capture 2 (Regex.m_groups m) = Some nm /\
    (String.length nm <? 2)%nat = false /\
    name l = JStr (trim nm) /\
    getCoordinates h (trim nm) = Some (position l) /\
    r1 = Math_random h (random_draws c) /\
    r2 = Math_random h (S (random_draws c)) /\
    rating l = JNum (Fin (random_rating r1)) /\
    reviews l = JNum (num (random_reviews r2)) /\
    id l = "loc-" ++ string_of_Z (Date_now h (clock_reads c)) ++ "-"
                  ++ string_of_nat count.
Proof.
  unfold LocationParser.text_location. intros H.
  destruct (Regex.capture 2 (Regex.m_groups m)) as [nm |] eqn:Hnm.
  - destruct (String.length nm <? 2)%nat eqn:Hlen.
    + apply ret_ok_inv in H. destruct H as [H _]. discriminate H.
    + steps_ok. simpl.
      match goal with
      | E : Some _ = Some l |- _ => inversion E; subst; clear E
      end.
      simpl. do 3 eexists. repeat (split; [eassumption || reflexivity |]).
      reflexivity.
  - apply ret_ok_inv in H. destruct H as [H _]. discriminate H.
Qed.

End Callbacks.

(* ================================================================== *)
(** ** The entry points *)
(* ================================================================== *)

Lemma try_catch_ret_total {A} (m : M A) (d : A) c :
  exists a c', try_catch m (fun _ => ret d) c = (Ok a, c').
Proof.
  unfold try_catch, ret. destruct (m c) as [[a | e] c1]; eauto.
Qed.

Lemma try_catch_ret_inv {A} (m : M A) (d : A) c a c' :
  try_catch m (fun _ => ret d) c = (Ok a, c') ->
  m c = (Ok a, c') \/ (a = d /\ exists e, m c = (Throw e, c')).
Proof.
  unfold try_catch, ret. destruct (m c) as [[x | e] c1]; intros H;
    inversion H; subst; eauto.
Qed.

(** [extractLocationsFromResponse] always returns an array. *)
Lemma extractLocationsFromResponse_total h text c :
  exists ls c', LocationParser.extractLocationsFromResponse h text c = (Ok ls, c').
Proof. apply try_catch_ret_total. Qed.

(** It is all or nothing: the empty array, or one [Location] for each
    entry of [data.locations], in order. *)
Lemma extractLocationsFromResponse_inv h text c ls c' :
  LocationParser.extractLocationsFromResponse h text c = (Ok ls, c') ->
  ls = [] \/
  exists jsonMatch data items,
    Regex.search LocationParser.locations_block_captured text = Some jsonMatch /\
    JSON_parse h (Regex.m_text jsonMatch) = Some data /\
    get data "locations" = Some (JArr items) /\
    mapped (LocationParser.response_location h) 0 items ls.
Proof.
  unfold LocationParser.extractLocationsFromResponse. intros H.
  apply try_catch_ret_inv in H. destruct H as [H | [-> _]]; [| now left].
  destruct (Regex.search _ text) as [jsonMatch |] eqn:Hs.
  - steps_ok; try (now left).
    right. do 3 eexists. repeat split; eauto.
    eapply map_from_mapped. eassumption.
  - apply ret_ok_inv in H. destruct H as [<- _]. now left.
Qed.

Lemma parseJsonLocations_inv h text c locs c' :
  LocationParser.parseJsonLocations h text c = (Ok locs, c') ->
  mapped (LocationParser.json_location h) 0
    (LocationParser.first_parsed h LocationParser.patterns text) locs.
Proof.
  unfold LocationParser.parseJsonLocations. intros H.
  destruct (length _ =? 0)%nat.
  - discriminate H.
  - eapply map_from_mapped. exact H.
Qed.

Lemma processedLocations_inv h json streaming c ls c' :
  ChatMessage.processedLocations h json streaming c = (Ok (Some ls), c') ->
  exists text data items,
    json = Some text /\ streaming = false /\
    JSON_parse h text = Some data /\
    get data "locations" = Some (JArr items) /\
    mapped (ChatMessage.chat_location h) 0 items ls.
Proof.
  unfold ChatMessage.processedLocations. intros H.
  destruct json as [text |]; [| apply ret_ok_inv in H; destruct H; discriminate].
  destruct (String.eqb text "" || streaming) eqn:Hg.
  - apply ret_ok_inv in H. destruct H; discriminate.
  - apply orb_false_elim in Hg. destruct Hg as [_ ->].
    apply try_catch_ret_inv in H. destruct H as [H | [H _]]; [| discriminate H].
    steps_ok; try discriminate.
    match goal with
    | E : Some _ = Some ls |- _ => inversion E; subst; clear E
    end.
    do 3 eexists. repeat split; eauto.
    eapply map_from_mapped. eassumption.
Qed.

Lemma extractLocationsFromResponse_mapped h text c ls c' :
  LocationParser.extractLocationsFromResponse h text c = (Ok ls, c') ->
  ls = [] \/
  mapped (LocationParser.response_location h) 0 (response_payload h text) ls.
Proof.
  intros H. apply extractLocationsFromResponse_inv in H.
  destruct H as [-> | (jm & data & items & Hs & Hp & Hg & Hm)]; [now left |].
  right. unfold response_payload. rewrite Hs, Hp, Hg. exact Hm.
Qed.

Lemma processedLocations_mapped h json streaming c ls c' :
  ChatMessage.processedLocations h (Some json) streaming c = (Ok (Some ls), c') ->
  mapped (ChatMessage.chat_location h) 0 (chat_payload h json) ls.
Proof.
  intros H. apply processedLocations_inv in H.
  destruct H as (text & data & items & Hj & _ & Hp & Hg & Hm).
  inversion Hj; subst. unfold chat_payload. rewrite Hp, Hg. exact Hm.
Qed.

(** A throw by the callback at entry [k], after the entries before it
    went through, is the outcome of the whole [map]. *)
Lemma map_from_throws_at {A B} (f : A -> nat -> M B) l :
  forall k a i c bs c1 e c2,
    nth_error l k = Some a ->
    map_from f (firstn k l) i c = (Ok bs, c1) ->
    f a (i + k) c1 = (Throw e, c2) ->
    map_from f l i c = (Throw e, c2).
Proof.
  induction l as [| x l IH]; intros k a i c bs c1 e c2 Hn Hpre Hf.
  - destruct k; discriminate Hn.
  - destruct k as [| k]; simpl in *.
    + inversion Hn; subst. apply ret_ok_inv in Hpre. destruct Hpre as [_ <-].
      rewrite Nat.add_0_r in Hf. erewrite bind_throw; eauto.
    + apply bind_ok_inv in Hpre. destruct Hpre as (b & c0 & Hx & Hpre).
      apply bind_ok_inv in Hpre. destruct Hpre as (bs0 & c3 & Hpre & Hr).
      apply ret_ok_inv in Hr. destruct Hr as [_ <-].
      erewrite bind_ok by eassumption.
      erewrite bind_throw; [reflexivity |].
      eapply IH; eauto.
      replace (S i + k) with (i + S k) by lia. exact Hf.
Qed.

(* ================================================================== *)
(** ** C1: coordinates in range *)
(* ================================================================== *)

(** C1, as stated, fails: on a payload whose latitude is 200,
    [extractLocationsFromResponse] and the JSON branch of [ChatMessage]
    both return a [Location] with that latitude. *)
Lemma C1_permissive_paths_return_out_of_range :
  (exists l c',
      LocationParser.extractLocationsFromResponse Demo.host Texts.bad start
        = (Ok [l], c') /\
      lat (position l) = JNum (num 200) /\
      ~ in_range (-90) 90 (lat (position l)))
  /\
  (exists l c',
      ChatMessage.processedLocations Demo.host (Some Texts.bad) false start
        = (Ok (Some [l]), c') /\
      lat (position l) = JNum (num 200) /\
      ~ in_range (-90) 90 (lat (position l))).
Proof.
  split; eexists; eexists; (split; [vm_compute; reflexivity |]);
    (split; [vm_compute; reflexivity |]);
    simpl; intros (q & Hq & _ & Hhi); inversion Hq; subst;
    vm_compute in Hhi; apply Hhi; reflexivity.
Qed.

(** C1 (amended): every location [parseJsonLocations] returns holds a
    pair of finite numbers, the first in [-90, 90] and the second in
    [-180, 180], whatever the text, the host and the state of the clock
    and random source.  (The two other entry points copy the coordinates
    of the payload without a range check.) *)
Theorem parseJsonLocations_coordinates_in_range :
  forall h text c locs c',
    LocationParser.parseJsonLocations h text c = (Ok locs, c') ->
    Forall (fun l => valid_pair (JsonLocation.coordinates l)) locs.
Proof.
  intros h text c locs c' H.
  apply parseJsonLocations_inv in H.
  eapply mapped_Forall; [| exact H].
  intros a i c0 b c1 Hcb. simpl.
  apply json_location_inv in Hcb.
  destruct Hcb as (s & r0 & v0 & _ & Hv & _).
  apply isValidCoordinates_sound. exact Hv.
Qed.

Lemma parseJsonLocations_coordinates_in_range_witness :
  exists locs c',
    LocationParser.parseJsonLocations Demo.host Texts.eiffel start = (Ok locs, c') /\
    length locs = 1 /\
    Forall (fun l => valid_pair (JsonLocation.coordinates l)) locs.
Proof.
  eexists. eexists.
  split; [vm_compute; reflexivity |].
  split; [reflexivity |].
  eapply (parseJsonLocations_coordinates_in_range Demo.host Texts.eiffel start).
  vm_compute. reflexivity.
Defined.

(* ================================================================== *)
(** ** C2: what each mode does with invalid coordinates *)
(* ================================================================== *)

(** The callback of [parseJsonLocations] on an entry whose coordinates
    fail [isValidCoordinates]: it throws the error that names the entry,
    before reading the clock. *)
Lemma json_location_invalid h loc i c coords nm :
  get loc "coordinates" = Some coords ->
  LocationParser.isValidCoordinates coords = false ->
  get loc "name" = Some nm ->
  LocationParser.json_location h loc i c
    = (Throw (if printable nm then InvalidCoordinates nm else TypeError), c).
Proof.
  intros Hc Hv Hn. unfold LocationParser.json_location.
  rewrite Hc. simpl. unfold bind at 1. simpl. rewrite Hv. simpl.
  rewrite Hn. unfold bind, or_throw, ret, to_string, throw.
  destruct (printable nm); reflexivity.
Qed.

(** C2, as stated, fails for the permissive mode: a record with latitude
    200 is returned, not omitted; and a record without coordinates makes
    the whole call return the empty array, so the valid record that
    follows it is not processed. *)
Lemma C2_permissive_mode_does_not_filter :
  (exists l1 l2 c',
      LocationParser.extractLocationsFromResponse Demo.host Texts.bad_then_good start
        = (Ok [l1; l2], c') /\
      name l1 = JStr "Bad" /\ lat (position l1) = JNum (num 200) /\
      name l2 = JStr "Good")
  /\
  (exists c',
      LocationParser.extractLocationsFromResponse Demo.host Texts.missing_then_good start
        = (Ok [], c')).
Proof.
  split.
  - do 3 eexists. split; [vm_compute; reflexivity |].
    repeat split; vm_compute; reflexivity.
  - eexists. vm_compute. reflexivity.
Qed.

(** The message of the error is a template literal around the name: a
    name that cannot be printed makes the literal itself throw. *)
Lemma unprintable_name_raises_TypeError :
  LocationParser.parseJsonLocations Demo.host Texts.unprintable_name start
  = (Throw TypeError, start).
Proof. vm_compute. reflexivity. Qed.

(** C2 (amended).  Strict mode: when the entry at index [k] of the batch
    has coordinates that fail validation and the entries before it
    normalise, [parseJsonLocations] throws the error that names that
    entry (so the error names the first offending record), or the
    TypeError of the template literal when that name cannot be printed
    into the message.  Permissive
    mode: [extractLocationsFromResponse] never throws and never filters;
    it returns either the empty array or one [Location] per entry of
    the batch, in order, whose position is read from the entry's
    coordinates with no check; an entry whose coordinates are absent or
    null makes the whole result empty. *)
Theorem invalid_coordinates_by_mode :
  forall h : Host,
    (forall text c k loc coords nm before c1,
        nth_error (json_payload h text) k = Some loc ->
        map_from (LocationParser.json_location h)
                 (firstn k (json_payload h text)) 0 c = (Ok before, c1) ->
        get loc "coordinates" = Some coords ->
        LocationParser.isValidCoordinates coords = false ->
        get loc "name" = Some nm ->
        LocationParser.parseJsonLocations h text c
          = (Throw (if printable nm then InvalidCoordinates nm
                    else TypeError), c1))
    /\
    (forall text c,
        exists ls c',
          LocationParser.extractLocationsFromResponse h text c = (Ok ls, c') /\
          (ls = [] \/
           Forall2 (fun loc l =>
                      exists coords,
                        get loc "coordinates" = Some coords /\
                        get_index coords 0 = Some (lat (position l)) /\
                        get_index coords 1 = Some (lng (position l)))
                   (response_payload h text) ls))
    /\
    (forall text c loc coords ls c',
        In loc (response_payload h text) ->
        get loc "coordinates" = Some coords ->
        not_nullish coords = false ->
        LocationParser.extractLocationsFromResponse h text c = (Ok ls, c') ->
        ls = []).
Proof.
  intros h. split; [| split].
  - intros text c k loc coords nm before c1 Hn Hpre Hc Hv Hnm.
    unfold LocationParser.parseJsonLocations. fold (json_payload h text).
    destruct (length (json_payload h text) =? 0)%nat eqn:Hlen.
    + apply Nat.eqb_eq in Hlen.
      destruct (json_payload h text); [destruct k; discriminate Hn | discriminate Hlen].
    + unfold array_map. eapply map_from_throws_at; eauto.
      eapply json_location_invalid; eassumption.
  - intros text c.
    destruct (extractLocationsFromResponse_total h text c) as (ls & c' & H).
    exists ls, c'. split; [exact H |].
    apply extractLocationsFromResponse_mapped in H.
    destruct H as [-> | H]; [now left | right].
    eapply mapped_Forall2; [| exact H].
    intros a i c0 b c1 Hcb. apply response_location_inv in Hcb.
    destruct Hcb as (coords & r0 & v0 & _ & Hc & H0 & H1 & _).
    exists coords. auto.
  - intros text c loc coords ls c' Hin Hc Hnull H.
    apply extractLocationsFromResponse_mapped in H.
    destruct H as [-> | H]; [reflexivity | exfalso].
    assert (HF : Forall2 (fun loc l =>
                            exists cs, get loc "coordinates" = Some cs /\
                                       get_index cs 0 = Some (lat (position l)))
                         (response_payload h text) ls).
    { eapply mapped_Forall2; [| exact H].
      intros a i c0 b c1 Hcb. apply response_location_inv in Hcb.
      destruct Hcb as (cs & r0 & v0 & _ & Hcs & H0 & _). eauto. }
    clear H. induction HF as [| x y xs ys (cs & Hcs & H0) _ IH].
    + contradiction.
    + destruct Hin as [-> | Hin]; [| exact (IH Hin)].
      rewrite Hc in Hcs. inversion Hcs; subst.
      destruct cs; simpl in *; discriminate.
Qed.

Lemma invalid_coordinates_by_mode_witness :
  LocationParser.parseJsonLocations Demo.host Texts.good_then_bad_twice start
    = (Throw (InvalidCoordinates (JStr "First")), mkCalls 1 0)
  /\
  (forall ls c',
      LocationParser.extractLocationsFromResponse Demo.host
        Texts.missing_then_good start = (Ok ls, c') ->
      ls = []).
Proof.
  destruct (invalid_coordinates_by_mode Demo.host) as (Hstrict & _ & Hnull).
  split.
  - eapply (Hstrict Texts.good_then_bad_twice start 1 _ _ (JStr "First")).
    + vm_compute. reflexivity.
    + vm_compute. reflexivity.
    + vm_compute. reflexivity.
    + vm_compute. reflexivity.
    + vm_compute. reflexivity.
  - intros ls c' H.
    eapply (Hnull Texts.missing_then_good start
              (JObj [("name", JStr "Bad"); ("rating", JNum (num 5))])
              JUndefined).
    + vm_compute. left. reflexivity.
    + reflexivity.
    + reflexivity.
    + exact H.
Defined.

(** The later revision of [ChatMessage] is the one place that filters
    and goes on: entries without a two-element [coordinates] array are
    left out and the others are mapped, still with no range check. *)
Lemma filteredLocations_keeps_coordinate_pairs h items c ls c' :
  ChatMessage.filteredLocations h items c = (Ok ls, c') ->
  Forall2 (fun loc l =>
             exists a b,
               get loc "coordinates" = Some (JArr [a; b]) /\
               position l = mkPosition (JNum (Number h a)) (JNum (Number h b)))
          (filter ChatMessage.has_coordinate_pair items) ls.
Proof.
  unfold ChatMessage.filteredLocations, array_map. intros H.
  apply map_from_mapped in H.
  assert (Hpair : Forall (fun loc => ChatMessage.has_coordinate_pair loc = true)
                         (filter ChatMessage.has_coordinate_pair items)).
  { apply Forall_forall. intros x Hx. apply filter_In in Hx. tauto. }
  remember (filter ChatMessage.has_coordinate_pair items) as kept eqn:Ek.
  clear Ek. induction H as [i | i a b rest bs c0 c1 Hf _ IH]; constructor.
  - inversion Hpair as [| ? ? Ha _]; subst.
    unfold ChatMessage.chat_location_with_city in Hf.
    apply bind_ok_inv in Hf. destruct Hf as (l0 & c2 & Hf & Hrest).
    apply chat_location_inv in Hf.
    destruct Hf as (cs & x0 & x1 & r0 & v0 & _ & Hcs & H0 & H1 & Hpos & _).
    assert (position b = position l0) as ->.
    { steps_ok. reflexivity. }
    unfold ChatMessage.has_coordinate_pair in Ha.
    rewrite Hcs in Ha. apply andb_prop in Ha. destruct Ha as [_ Ha].
    destruct cs as [| | | | | its |]; try discriminate Ha.
    destruct its as [| u [| v [| w its]]]; try discriminate Ha.
    simpl in H0, H1. inversion H0; inversion H1; subst.
    exists x0, x1. split; [exact Hcs | exact Hpos].
  - apply IH. inversion Hpair; assumption.
Qed.

Lemma filteredLocations_example :
  exists l c',
    ChatMessage.filteredLocations Demo.host
      (chat_payload Demo.host Texts.missing_then_good) start = (Ok [l], c') /\
    name l = JStr "Good".
Proof. do 2 eexists. split; vm_compute; reflexivity. Qed.

(* ================================================================== *)
(** ** C3 and C4: the defaults of [rating] and [reviews] *)
(* ================================================================== *)

Lemma missing_falsy v : missing v -> truthy v = false.
Proof. intros [-> | ->]; reflexivity. Qed.

Lemma number_or_zero_missing h v :
  missing v -> LocationParser.or_zero (Number h v) = num 0.
Proof. intros [-> | ->]; reflexivity. Qed.

(** Whatever [parseTextLocations] returns was built by its callback or
    was already in the array. *)
Lemma scan_Forall h (P : Location -> Prop) :
  (forall m count c l c',
      LocationParser.text_location h m count c = (Ok (Some l), c') -> P l) ->
  forall ms locs c,
    Forall P locs -> Forall P (fst (LocationParser.scan h ms locs c)).
Proof.
  intros HP ms. induction ms as [| m rest IH]; intros locs c Hlocs; simpl.
  - exact Hlocs.
  - destruct (LocationParser.text_location h m (length locs) c)
      as [[[l |] | e] c1] eqn:Hm.
    + apply IH. apply Forall_app. split; [exact Hlocs |].
      constructor; [eapply HP; eassumption | constructor].
    + apply IH. exact Hlocs.
    + exact Hlocs.
Qed.

Lemma Demo_random_in_unit : random_in_unit Demo.host.
Proof.
  intros n.
  pose proof (Nat.mod_upper_bound n 7 ltac:(discriminate)) as Hlt.
  change (Math_random Demo.host n) with (Qmake (Z.of_nat (n mod 7)) 7).
  unfold Qle, Qlt. cbn [Qnum Qden]. split; lia.
Qed.

(** C3, as stated, fails.  [parseJsonLocations] gives a record without a
    rating the rating 0, and [extractLocationsFromResponse] passes on a
    rating that is not a number at all. *)
Lemma C3_rating_fallback_differs :
  (exists loc l c',
      json_payload Demo.host Texts.eiffel = [loc] /\
      get loc "rating" = Some JUndefined /\
      LocationParser.parseJsonLocations Demo.host Texts.eiffel start
        = (Ok [l], c') /\
      JsonLocation.rating l = num 0 /\
      JsonLocation.rating l <> Fin (9 # 2))
  /\
  (exists loc l c',
      response_payload Demo.host Texts.rated = [loc] /\
      get loc "rating" = Some (JStr "great") /\
      Number Demo.host (JStr "great") = NaN /\
      LocationParser.extractLocationsFromResponse Demo.host Texts.rated start
        = (Ok [l], c') /\
      rating l = JStr "great").
Proof.
  split.
  - do 3 eexists. split; [vm_compute; reflexivity |].
    split; [vm_compute; reflexivity |].
    split; [vm_compute; reflexivity |].
    split; [vm_compute; reflexivity | vm_compute; discriminate].
  - do 3 eexists. split; [vm_compute; reflexivity |].
    repeat split; vm_compute; reflexivity.
Qed.

(** C3 (amended).  For a record whose rating is absent or null:
    [extractLocationsFromResponse] and [ChatMessage] produce the rating
    4.5, [parseJsonLocations] produces 0, as it does for a rating that
    [Number] turns into NaN.  A rating that is present and truthy is
    returned as it is by the first two, number or not.  Every location
    of [parseTextLocations] has the rating 4.5 plus half a random draw,
    rounded as a double: a value in [[4.5, 5]], so that the jitter is at
    most 0.5. *)
Theorem rating_defaults :
  forall h : Host,
    (forall text c ls c',
        LocationParser.extractLocationsFromResponse h text c = (Ok ls, c') ->
        ls <> [] ->
        Forall2 (fun loc l =>
                   forall r, get loc "rating" = Some r ->
                     (missing r -> rating l = JNum (Fin (9 # 2))) /\
                     (truthy r = true -> rating l = r))
                (response_payload h text) ls)
    /\
    (forall json c ls c',
        ChatMessage.processedLocations h (Some json) false c
          = (Ok (Some ls), c') ->
        Forall2 (fun loc l =>
                   forall r, get loc "rating" = Some r ->
                     (missing r -> rating l = JNum (Fin (9 # 2))) /\
                     (truthy r = true -> rating l = r))
                (chat_payload h json) ls)
    /\
    (forall text c locs c',
        LocationParser.parseJsonLocations h text c = (Ok locs, c') ->
        Forall2 (fun loc l =>
                   forall r, get loc "rating" = Some r ->
                     missing r \/ Number h r = NaN ->
                     JsonLocation.rating l = num 0)
                (json_payload h text) locs)
    /\
    (forall text c,
        random_in_unit h ->
        Forall (fun l => jittered_rating (rating l))
               (fst (LocationParser.parseTextLocations h text c))).
Proof.
  intros h. repeat split.
  - intros text c ls c' H Hne.
    apply extractLocationsFromResponse_mapped in H.
    destruct H as [-> | H]; [congruence |].
    eapply mapped_Forall2; [| exact H].
    intros a i c0 b c1 Hcb r Hr. apply response_location_inv in Hcb.
    destruct Hcb as (cs & r0 & v0 & _ & _ & _ & _ & Hr0 & Hrat & _).
    rewrite Hr in Hr0. inversion Hr0; subst r0. rewrite Hrat. unfold or_else.
    split; [intros Hm; rewrite (missing_falsy _ Hm) | intros ->]; reflexivity.
  - intros json c ls c' H.
    apply processedLocations_mapped in H.
    eapply mapped_Forall2; [| exact H].
    intros a i c0 b c1 Hcb r Hr. apply chat_location_inv in Hcb.
    destruct Hcb as (cs & x0 & x1 & r0 & v0 & _ & _ & _ & _ & _ & Hr0 & Hrat & _).
    rewrite Hr in Hr0. inversion Hr0; subst r0. rewrite Hrat. unfold or_else.
    split; [intros Hm; rewrite (missing_falsy _ Hm) | intros ->]; reflexivity.
  - intros text c locs c' H.
    apply parseJsonLocations_inv in H.
    eapply mapped_Forall2; [| exact H].
    intros a i c0 b c1 Hcb r Hr Hm. apply json_location_inv in Hcb.
    destruct Hcb as (s & r0 & v0 & _ & _ & _ & Hr0 & _ & _ & Hrat & _).
    rewrite Hr in Hr0. inversion Hr0; subst r0. rewrite Hrat.
    destruct Hm as [Hm | Hnan]; [apply number_or_zero_missing; exact Hm |].
    unfold LocationParser.number_or_zero. rewrite Hnan. reflexivity.
  - intros text c Hrand. unfold LocationParser.parseTextLocations.
    apply scan_Forall; [| constructor].
    intros m count c0 l c1 Hcb. apply text_location_inv in Hcb.
    destruct Hcb as (nm & r1 & r2 & _ & _ & _ & _ & Hr1 & _ & Hrat & _).
    destruct (Hrand (random_draws c0)) as [H0 H1]. rewrite <- Hr1 in H0, H1.
    destruct (random_rating_bounds r1 H0 H1) as [Hlo Hhi].
    exists (random_rating r1). auto.
Qed.

Lemma rating_defaults_witness :
  (exists l c',
      LocationParser.extractLocationsFromResponse Demo.host Texts.bad start
        = (Ok [l], c') /\
      rating l = JNum (Fin (9 # 2)))
  /\
  Forall (fun l => jittered_rating (rating l))
         (fst (LocationParser.parseTextLocations Demo.host
                 "1. Louvre Museum - art. 2. Eiffel Tower - iron." start)).
Proof.
  destruct (rating_defaults Demo.host) as (Hresp & _ & _ & Htext).
  split.
  - do 2 eexists. split; [vm_compute; reflexivity |].
    assert (HF := Hresp Texts.bad start _ _ ltac:(vm_compute; reflexivity)
                    ltac:(discriminate)).
    vm_compute response_payload in HF.
    inversion HF as [| loc l ? ? Hhead _]; subst.
    apply (Hhead JUndefined); [reflexivity | left; reflexivity].
  - apply Htext. exact Demo_random_in_unit.
Defined.




(* ================================================================== *)
(** ** C5: positions are the input coordinates, in input order *)
(* ================================================================== *)

Lemma map_from_ok {A B} (f : A -> nat -> M B) (P : A -> B -> Prop) l :
  (forall a, In a l ->
     forall i c, exists b c', f a i c = (Ok b, c') /\ P a b) ->
  forall i c, exists bs c', map_from f l i c = (Ok bs, c') /\ Forall2 P l bs.
Proof.
  induction l as [| a l IH]; intros Hf i c; simpl.
  - exists [], c. split; [reflexivity | constructor].
  - destruct (Hf a (or_introl eq_refl) i c) as (b & c1 & Hb & Pb).
    destruct (IH (fun x Hx => Hf x (or_intror Hx)) (S i) c1)
      as (bs & c2 & Hbs & Pbs).
    exists (b :: bs), c2. split.
    + erewrite bind_ok by eassumption. erewrite bind_ok by eassumption.
      reflexivity.
    + constructor; assumption.
Qed.

Lemma get_object fields k :
  get (JObj fields) k
  = Some (match assoc k fields with Some x => x | None => JUndefined end).
Proof. reflexivity. Qed.




Lemma response_location_ok h loc i c :
  raw_location h loc ->
  exists l c',
    LocationParser.response_location h loc i c = (Ok l, c') /\
    exists la lo,
      get loc "coordinates" = Some (JArr [la; lo]) /\
      position l = mkPosition la lo.
Proof.
  intros (fields & s & coords & d & img & -> & Hn & Hc & Hv & Hd & Hds & Hi & His).
  destruct Hv as (la & lo & -> & _ & _).
  unfold LocationParser.response_location.
  erewrite bind_ok by reflexivity.
  rewrite Hn. cbn [or_throw]. erewrite bind_ok by reflexivity.
  rewrite Hc. cbn [or_throw]. erewrite bind_ok by reflexivity.
  cbn [get_index nth or_throw].
  erewrite bind_ok by reflexivity. erewrite bind_ok by reflexivity.
  rewrite (get_object fields "rating"), (get_object fields "reviews").
  cbn [or_throw].
  erewrite bind_ok by reflexivity. erewrite bind_ok by reflexivity.
  set (reviews0 := match assoc "reviews" fields with
                   | Some x => x
                   | None => JUndefined
                   end).
  assert (Hrev : exists v c1,
             (if truthy reviews0 then ret reviews0
              else r <- random h ;; ret (JNum (num (random_reviews r))))
               (mkCalls (S (clock_reads c)) (random_draws c)) = (Ok v, c1)).
  { destruct (truthy reviews0); do 2 eexists; reflexivity. }
  destruct Hrev as (v & c1 & Hrev).
  erewrite bind_ok by exact Hrev.
  rewrite Hi. cbn [or_throw]. erewrite bind_ok by reflexivity.
  assert (Himg : exists u,
             (if truthy img then ret img
              else or_throw CollaboratorError (generateImageUrl h (JStr s))) c1
             = (Ok u, c1)).
  { destruct His as [-> | [u Hu]]; [eexists; reflexivity |].
    destruct (truthy img); [eexists; reflexivity |].
    rewrite Hu. eexists; reflexivity. }
  destruct Himg as (u & Himg).
  erewrite bind_ok by exact Himg.
  rewrite Hd. cbn [or_throw]. erewrite bind_ok by reflexivity.
  assert (Hdesc : exists t,
             (if truthy d then ret d
              else s0 <- to_string h (JStr s) ;; ret (JStr ("Visit " ++ s0))) c1
             = (Ok t, c1)).
  { destruct (truthy d); eexists; reflexivity. }
  destruct Hdesc as (t & Hdesc).
  erewrite bind_ok by exact Hdesc.
  do 2 eexists. split; [reflexivity |].
  exists la, lo. split; reflexivity.
Qed.

(** Evaluates the batch a goal talks about. *)
Ltac eval_batch :=
  match goal with
  | |- Forall _ ?l =>
      let x := eval vm_compute in l in
      replace l with x by (vm_compute; reflexivity)
  end.

Ltac finite_in_range :=
  eexists; split; [reflexivity |];
  split; unfold Qle; cbn [Qnum Qden inject_Z]; lia.

Ltac is_raw_location :=
  do 5 eexists;
  split; [reflexivity |];
  split; [reflexivity |];
  split; [reflexivity |];
  split; [do 2 eexists; split; [reflexivity |];
          split; finite_in_range |];
  split; [reflexivity |];
  split; [left; reflexivity |];
  split; [reflexivity |];
  right; eexists; reflexivity.


(** What [extractLocationsFromResponse] returns when its callback
    succeeds on every entry of the batch. *)
Lemma extract_of_payload h (P : JsVal -> Location -> Prop) text c :
  (forall a, In a (response_payload h text) ->
     forall i c0, exists b c1,
       LocationParser.response_location h a i c0 = (Ok b, c1) /\ P a b) ->
  exists ls c',
    LocationParser.extractLocationsFromResponse h text c = (Ok ls, c') /\
    Forall2 P (response_payload h text) ls.
Proof.
  intros Hall.
  unfold LocationParser.extractLocationsFromResponse.
  unfold response_payload in *.
  destruct (Regex.search _ text) as [jm |];
    [| exists [], c; split; [reflexivity | constructor]].
  destruct (JSON_parse h (Regex.m_text jm)) as [data |];
    [| exists [], c; split; [reflexivity | constructor]].
  unfold try_catch. cbn [or_throw].
  erewrite (bind_ok (ret data)) by reflexivity.
  destruct (get data "locations") as [[| | b | n | s | items | fields] |];
    try (exists [], c; split; [reflexivity | constructor]).
  destruct (map_from_ok (LocationParser.response_location h) P items Hall 0 c)
    as (bs & c1 & Hbs & HF).
  exists bs, c1. split; [| exact HF].
  cbn [or_throw]. erewrite bind_ok by reflexivity.
  cbv beta iota. unfold array_map.
  rewrite Hbs. reflexivity.
Qed.




(** A remark on the pattern that finds the block.  Its middle part is
    lazy, so the match ends at the first closing bracket that a closing
    brace follows.  When a record ends with its [coordinates] array this
    is the bracket of that array: the match is cut short, does not
    parse, and the text yields no batch. *)
Lemma locations_block_stops_at_first_bracket_brace :
  Regex.search LocationParser.locations_block_captured
    (dq "{'locations':[{'name':'Eiffel Tower','coordinates':[48.8584,2.2945]}]}")
  = Some (Regex.mkMatch
            (dq "{'locations':[{'name':'Eiffel Tower','coordinates':[48.8584,2.2945]}")
            [(1, dq "{'name':'Eiffel Tower','coordinates':[48.8584,2.2945")])
  /\
  response_payload Demo.host
    (dq "{'locations':[{'name':'Eiffel Tower','coordinates':[48.8584,2.2945]}]}")
  = [].
Proof. split; vm_compute; reflexivity. Qed.

(* ================================================================== *)
(** ** C6: the identifiers of one batch are pairwise distinct *)
(* ================================================================== *)

Lemma mapped_indexed {A B} (f : A -> nat -> M B) (ident : B -> string) :
  (forall a i c b c', f a i c = (Ok b, c') -> carries_index i (ident b)) ->
  forall i l bs, mapped f i l bs -> indexed_from i (map ident bs).
Proof.
  intros Hf i l bs H. induction H; simpl; constructor; eauto.
Qed.

Lemma scan_indexed h ms :
  forall locs c,
    indexed_from 0 (map id locs) ->
    indexed_from 0 (map id (fst (LocationParser.scan h ms locs c))).
Proof.
  induction ms as [| m rest IH]; intros locs c Hlocs; simpl.
  - exact Hlocs.
  - destruct (LocationParser.text_location h m (length locs) c)
      as [[[l |] | e] c1] eqn:Hm.
    + apply IH. rewrite map_app. simpl.
      apply indexed_from_snoc; [exact Hlocs |].
      rewrite length_map. simpl.
      apply text_location_inv in Hm.
      destruct Hm as (nm & r1 & r2 & _ & _ & _ & _ & _ & _ & _ & _ & ->).
      apply loc_id_carries_index.
    + apply IH. exact Hlocs.
    + exact Hlocs.
Qed.

(** C6.  Whatever the clock returns, also when it returns the same
    millisecond for every element, the identifiers produced by one call of
    [parseJsonLocations], of [extractLocationsFromResponse] or of
    [parseTextLocations] are pairwise distinct: each ends with the index
    of its element. *)
Theorem batch_ids_distinct :
  forall h : Host,
    (forall text c locs c',
        LocationParser.parseJsonLocations h text c = (Ok locs, c') ->
        NoDup (map JsonLocation.id locs))
    /\
    (forall text c ls c',
        LocationParser.extractLocationsFromResponse h text c = (Ok ls, c') ->
        NoDup (map id ls))
    /\
    (forall text c,
        NoDup (map id (fst (LocationParser.parseTextLocations h text c)))).
Proof.
  intros h. repeat split.
  - intros text c locs c' H.
    apply parseJsonLocations_inv in H.
    apply indexed_from_NoDup with (i := 0).
    eapply mapped_indexed; [| exact H].
    intros a i c0 b c1 Hcb. apply json_location_inv in Hcb.
    destruct Hcb as (s & r0 & v0 & _ & _ & _ & _ & _ & _ & _ & _ & ->).
    apply json_id_carries_index.
  - intros text c ls c' H.
    apply extractLocationsFromResponse_mapped in H.
    destruct H as [-> | H]; [constructor |].
    apply indexed_from_NoDup with (i := 0).
    eapply mapped_indexed; [| exact H].
    intros a i c0 b c1 Hcb. apply response_location_inv in Hcb.
    destruct Hcb as (cs & r0 & v0 & _ & _ & _ & _ & _ & _ & _ & _ & ->).
    apply loc_id_carries_index.
  - intros text c. apply indexed_from_NoDup with (i := 0).
    unfold LocationParser.parseTextLocations.
    apply scan_indexed. constructor.
Qed.

Lemma batch_ids_distinct_witness :
  (exists l1 l2 c',
      LocationParser.parseJsonLocations Demo.host Texts.two_places start
        = (Ok [l1; l2], c') /\
      NoDup (map JsonLocation.id [l1; l2]))
  /\
  (exists l1 l2 c',
      LocationParser.extractLocationsFromResponse Demo.host Texts.two_places start
        = (Ok [l1; l2], c') /\
      NoDup (map id [l1; l2])).
Proof.
  destruct (batch_ids_distinct Demo.host) as (Hstrict & Hperm & _).
  split.
  - do 3 eexists. split; [vm_compute; reflexivity |].
    eapply (Hstrict Texts.two_places start). vm_compute. reflexivity.
  - do 3 eexists. split; [vm_compute; reflexivity |].
    eapply (Hperm Texts.two_places start). vm_compute. reflexivity.
Defined.

(* ================================================================== *)
(** ** C8 and C9: the text-mode scan *)
(* ================================================================== *)

Lemma scan_accepted h ms locs c locs' c' :
  accepted h ms locs c locs' c' ->
  LocationParser.scan h ms locs c = (locs', c').
Proof.
  induction 1 as [| m rest locs c c1 locs' c' Hm _ IH
                    | m rest locs c l c1 locs' c' Hm _ IH]; simpl.
  - reflexivity.
  - rewrite Hm. exact IH.
  - rewrite Hm. exact IH.
Qed.

Lemma scan_stops_at_throw h ms :
  forall k m locs c locs1 c1 e c2,
    nth_error ms k = Some m ->
    accepted h (firstn k ms) locs c locs1 c1 ->
    LocationParser.text_location h m (length locs1) c1 = (Throw e, c2) ->
    LocationParser.scan h ms locs c = (locs1, c2).
Proof.
  induction ms as [| x ms IH]; intros k m locs c locs1 c1 e c2 Hn Hacc Hthrow.
  - destruct k; discriminate Hn.
  - destruct k as [| k]; simpl in Hn, Hacc.
    + inversion Hn; subst. inversion Hacc; subst. simpl.
      rewrite Hthrow. reflexivity.
    + inversion Hacc; subst; simpl;
        match goal with
        | H : LocationParser.text_location _ _ _ _ = _ |- _ => rewrite H
        end;
        eapply IH; eauto.
Qed.

Lemma scan_extends h ms :
  forall locs c, exists more,
    fst (LocationParser.scan h ms locs c) = (locs ++ more)%list.
Proof.
  induction ms as [| m rest IH]; intros locs c; simpl.
  - exists []. now rewrite app_nil_r.
  - destruct (LocationParser.text_location h m (length locs) c)
      as [[[l |] | e] c1].
    + destruct (IH (locs ++ [l])%list c1) as [more Hmore].
      exists (l :: more). rewrite Hmore, <- app_assoc. reflexivity.
    + apply IH.
    + exists []. now rewrite app_nil_r.
Qed.

(** The same, with a property of the matches that are scanned. *)
Lemma scan_Forall_matches h (Q : Regex.Match -> Prop) (P : Location -> Prop) :
  (forall m count c l c',
      Q m ->
      LocationParser.text_location h m count c = (Ok (Some l), c') -> P l) ->
  forall ms locs c,
    Forall Q ms -> Forall P locs ->
    Forall P (fst (LocationParser.scan h ms locs c)).
Proof.
  intros HP ms. induction ms as [| m rest IH]; intros locs c Hms Hlocs; simpl.
  - exact Hlocs.
  - inversion Hms; subst.
    destruct (LocationParser.text_location h m (length locs) c)
      as [[[l |] | e] c1] eqn:Hm.
    + apply IH; [assumption |]. apply Forall_app. split; [exact Hlocs |].
      constructor; [eapply HP; eassumption | constructor].
    + apply IH; assumption.
    + exact Hlocs.
Qed.

Ltac eval_matches :=
  match goal with
  | |- accepted _ ?ms _ _ _ _ =>
      let x := eval vm_compute in ms in change ms with x
  end.

(** C8, as stated, fails in its second half.  With a coordinate lookup
    that throws on an unknown name, the candidate [Atlantis] ends the
    scan: the candidate after it, which the scan would accept, is never
    looked at. *)
Lemma C8_scan_stops_at_first_throw :
  exists m1 m2 m3 kept c1 c2 c3 later,
    Regex.exec_all LocationParser.LOCATION_PATTERN
      "1. Eiffel Tower - iron. 2. Atlantis - lost. 3. Louvre Museum - art."
      = [m1; m2; m3] /\
    LocationParser.text_location Demo.throwing_host m1 0 start
      = (Ok (Some kept), c1) /\
    LocationParser.text_location Demo.throwing_host m2 1 c1
      = (Throw CollaboratorError, c2) /\
    LocationParser.text_location Demo.throwing_host m3 1 c2
      = (Ok (Some later), c3) /\
    name later = JStr "Louvre Museum" /\
    LocationParser.parseTextLocations Demo.throwing_host
      "1. Eiffel Tower - iron. 2. Atlantis - lost. 3. Louvre Museum - art." start
      = ([kept], c2).
Proof.
  do 8 eexists.
  split; [vm_compute; reflexivity |].
  split; [vm_compute; reflexivity |].
  split; [vm_compute; reflexivity |].
  split; [vm_compute; reflexivity |].
  split; vm_compute; reflexivity.
Qed.

(** C8 (amended).  [parseTextLocations] never raises: the loop runs
    inside a [try] whose [catch] only logs.  When the handling of a
    candidate throws, the scan stops there, and the call returns the
    locations accepted from the candidates before it; a scan without a
    throw returns the locations accepted from all candidates.  Locations
    already accepted are never dropped. *)
Theorem parseTextLocations_stops_at_first_throw :
  forall h : Host,
    (forall text c k m locs1 c1 e c2,
        nth_error (Regex.exec_all LocationParser.LOCATION_PATTERN text) k
          = Some m ->
        accepted h
          (firstn k (Regex.exec_all LocationParser.LOCATION_PATTERN text))
          [] c locs1 c1 ->
        LocationParser.text_location h m (length locs1) c1 = (Throw e, c2) ->
        LocationParser.parseTextLocations h text c = (locs1, c2))
    /\
    (forall text c locs' c',
        accepted h (Regex.exec_all LocationParser.LOCATION_PATTERN text)
          [] c locs' c' ->
        LocationParser.parseTextLocations h text c = (locs', c'))
    /\
    (forall ms locs c,
        exists more, fst (LocationParser.scan h ms locs c) = (locs ++ more)%list).
Proof.
  intros h. repeat split.
  - intros text c k m locs1 c1 e c2 Hn Hacc Hthrow.
    unfold LocationParser.parseTextLocations.
    eapply scan_stops_at_throw; eassumption.
  - intros text c locs' c' Hacc. apply scan_accepted. exact Hacc.
  - intros ms locs c. apply scan_extends.
Qed.

Lemma parseTextLocations_stops_at_first_throw_witness :
  exists kept c2,
    LocationParser.parseTextLocations Demo.throwing_host
      "1. Eiffel Tower - iron. 2. Atlantis - lost. 3. Louvre Museum - art." start
    = ([kept], c2) /\
    name kept = JStr "Eiffel Tower".
Proof.
  destruct (parseTextLocations_stops_at_first_throw Demo.throwing_host)
    as (Hstop & _ & _).
  do 2 eexists. split.
  - eapply (Hstop _ start 1).
    + vm_compute. reflexivity.
    + eval_matches. eapply accepted_push.
      * vm_compute. reflexivity.
      * apply accepted_done.
    + vm_compute. reflexivity.
  - reflexivity.
Defined.

(** C9, as stated, fails: the length test reads the name as matched,
    before [trim].  On the text [1. A ] (with its final space) the name
    matched is the letter and the space, two characters; it passes the
    test and a location named [A], one character long, is returned. *)
Lemma C9_length_is_tested_before_trim :
  exists m l c',
    Regex.exec_all LocationParser.LOCATION_PATTERN "1. A " = [m] /\
    Regex.capture 2 (Regex.m_groups m) = Some "A " /\
    String.length (trim "A ") = 1 /\
    LocationParser.parseTextLocations Demo.host "1. A " start = ([l], c') /\
    name l = JStr "A".
Proof.
  do 3 eexists.
  split; [vm_compute; reflexivity |].
  split; [vm_compute; reflexivity |].
  split; [vm_compute; reflexivity |].
  split; vm_compute; reflexivity.
Qed.

(** C9 (amended).  A candidate whose name as matched by the pattern,
    before trimming, has fewer than 2 characters is discarded: the loop
    goes on with the array, the clock and the random source untouched.
    Hence every location returned bears the trimmed form of the name of
    one of the matches of the pattern in the text, a name of at least 2
    characters. *)
Theorem short_names_are_discarded :
  forall h : Host,
    (forall m rest locs c nm,
        Regex.capture 2 (Regex.m_groups m) = Some nm ->
        String.length nm < 2 ->
        LocationParser.text_location h m (length locs) c = (Ok None, c) /\
        LocationParser.scan h (m :: rest) locs c
          = LocationParser.scan h rest locs c)
    /\
    (forall text c,
        Forall (fun l =>
                  exists m nm,
                    In m (Regex.exec_all LocationParser.LOCATION_PATTERN text) /\
                    Regex.capture 2 (Regex.m_groups m) = Some nm /\
                    2 <= String.length nm /\
                    name l = JStr (trim nm))
               (fst (LocationParser.parseTextLocations h text c))).
Proof.
  intros h. split.
  - intros m rest locs c nm Hcap Hlen.
    assert (Hm : LocationParser.text_location h m (length locs) c = (Ok None, c)).
    { unfold LocationParser.text_location. rewrite Hcap.
      apply Nat.ltb_lt in Hlen. rewrite Hlen. reflexivity. }
    split; [exact Hm |]. simpl. rewrite Hm. reflexivity.
  - intros text c. unfold LocationParser.parseTextLocations.
    apply scan_Forall_matches
      with (Q := fun m =>
                   In m (Regex.exec_all LocationParser.LOCATION_PATTERN text));
      [| apply Forall_forall; auto | constructor].
    intros m count c0 l c1 Hin Hcb. apply text_location_inv in Hcb.
    destruct Hcb as (nm & r1 & r2 & Hcap & Hlen & Hname & _).
    exists m, nm. split; [exact Hin |]. split; [exact Hcap |].
    split; [| exact Hname].
    apply Nat.ltb_ge in Hlen. exact Hlen.
Qed.

Lemma short_names_are_discarded_witness :
  exists m1 m2,
    Regex.exec_all LocationParser.LOCATION_PATTERN
      "1. A - tiny. 2. Eiffel Tower" = [m1; m2] /\
    Regex.capture 2 (Regex.m_groups m1) = Some "A" /\
    LocationParser.scan Demo.host [m1; m2] [] start
      = LocationParser.scan Demo.host [m2] [] start.
Proof.
  destruct (short_names_are_discarded Demo.host) as [Hshort _].
  do 2 eexists.
  split; [vm_compute; reflexivity |].
  split; [vm_compute; reflexivity |].
  eapply (Hshort _ _ [] start "A").
  - vm_compute. reflexivity.
  - simpl. lia.
Defined.

(* ================================================================== *)
(** ** C10: the map only follows valid positions *)
(* ================================================================== *)

Lemma isValid_sound h l :
  MapUpdater.isValid h l = true -> valid_position h (position l).
Proof.
  unfold MapUpdater.isValid, MapUpdater.isValidCoordinates. intros H.
  apply andb_prop in H. destruct H as [Hpresent H].
  apply andb_prop in Hpresent. destruct Hpresent as [Hlat Hlng].
  apply andb_prop in H. destruct H as [H Hl2].
  apply andb_prop in H. destruct H as [H Hg2].
  apply andb_prop in H. destruct H as [H Hl1].
  apply andb_prop in H. destruct H as [_ Hg1].
  destruct (bounded_is_finite _ _ _ Hg1 Hl1) as (la & Hla & Hla1 & Hla2).
  destruct (bounded_is_finite _ _ _ Hg2 Hl2) as (lo & Hlo & Hlo1 & Hlo2).
  split; [exact Hlat |]. split; [exact Hlng |].
  exists la, lo. repeat split; assumption.
Qed.

Section MapEffects.

Import MapUpdater.

Lemma has_position_reads loc :
  Untyped.has_position loc = true ->
  exists nm p,
    get loc "name" = Some nm /\
    get loc "position" = Some p /\
    get p "lat" = Some (lat (Untyped.position_read loc)) /\
    get p "lng" = Some (lng (Untyped.position_read loc)).
Proof.
  unfold Untyped.has_position, Untyped.position_read, Untyped.optional. intros H.
  destruct loc as [| | b | n | s | items | fields]; try discriminate H;
    simpl in *.
  all: try discriminate H.
  exists (match assoc "name" fields with Some x => x | None => JUndefined end).
  destruct (match assoc "position" fields with
            | Some x => x
            | None => JUndefined
            end) as [| | b | n | s | items | fs] eqn:E;
    try discriminate H; eexists; repeat split; reflexivity.
Qed.

Lemma position_of_ok loc c :
  Untyped.has_position loc = true ->
  Untyped.position_of loc c = (Ok (Untyped.position_read loc), c).
Proof.
  intros H. destruct (has_position_reads loc H) as (nm & p & _ & Hp & Hla & Hlo).
  unfold Untyped.position_of, Untyped.coordinate. rewrite Hp. cbn [or_throw].
  erewrite (bind_ok (bind (ret p) _)) by (erewrite bind_ok by reflexivity;
                                         rewrite Hla; reflexivity).
  erewrite (bind_ok (bind (ret p) _)) by (erewrite bind_ok by reflexivity;
                                         rewrite Hlo; reflexivity).
  destruct (Untyped.position_read loc). reflexivity.
Qed.

Lemma logged_ok loc i c :
  Untyped.has_position loc = true -> exists v, Untyped.logged loc i c = (Ok v, c).
Proof.
  intros H. destruct (has_position_reads loc H) as (nm & p & Hn & _).
  unfold Untyped.logged. rewrite Hn. cbn [or_throw]. erewrite bind_ok by reflexivity.
  erewrite bind_ok by (apply position_of_ok; exact H).
  eexists. reflexivity.
Qed.

(** The slip: the first logging statement reads [loc.position.lat] of
    every location with no guard. *)
Lemma logged_throws loc i c :
  Untyped.has_position loc = false -> Untyped.logged loc i c = (Throw TypeError, c).
Proof.
  unfold Untyped.has_position, Untyped.optional, Untyped.logged,
    Untyped.position_of, Untyped.coordinate.
  intros H.
  destruct loc as [| | b | n | s | items | fields]; try reflexivity;
    simpl in H; try discriminate H.
  simpl. destruct (match assoc "position" fields with
                   | Some x => x
                   | None => JUndefined
                   end); try discriminate H; reflexivity.
Qed.

Lemma map_logged_ok l :
  forallb Untyped.has_position l = true ->
  forall i c, exists vs, map_from Untyped.logged l i c = (Ok vs, c).
Proof.
  induction l as [| a l IH]; intros H i c; simpl.
  - eexists. reflexivity.
  - simpl in H. apply andb_prop in H. destruct H as [Ha Hl].
    destruct (logged_ok a i c Ha) as (v & Hv).
    destruct (IH Hl (S i) c) as (vs & Hvs).
    erewrite bind_ok by exact Hv. erewrite bind_ok by exact Hvs.
    eexists. reflexivity.
Qed.

Lemma map_logged_throws l :
  forallb Untyped.has_position l = false ->
  forall i c, map_from Untyped.logged l i c = (Throw TypeError, c).
Proof.
  induction l as [| a l IH]; intros H i c; simpl in *; [discriminate H |].
  destruct (Untyped.has_position a) eqn:Ha; simpl in H.
  - destruct (logged_ok a i c Ha) as (v & Hv).
    erewrite bind_ok by exact Hv.
    erewrite bind_throw by (apply IH; exact H). reflexivity.
  - erewrite bind_throw by (apply logged_throws; exact Ha). reflexivity.
Qed.

Lemma isValidCoordinates_cases h la lo c :
  (Untyped.isValidCoordinates h la lo c
     = (Ok (MapUpdater.isValidCoordinates h la lo), c) \/
   Untyped.isValidCoordinates h la lo c = (Throw TypeError, c))
  /\
  (printable la && printable lo = true ->
   Untyped.isValidCoordinates h la lo c
     = (Ok (MapUpdater.isValidCoordinates h la lo), c)).
Proof.
  unfold Untyped.isValidCoordinates, MapUpdater.isValidCoordinates, to_number, bind,
    ret, throw.
  destruct (printable la); [| split; [right; reflexivity | discriminate]].
  destruct (num_isNaN (Number h la)); [split; [left |]; reflexivity |].
  destruct (printable lo); [| split; [right; reflexivity | discriminate]].
  destruct (num_isNaN (Number h lo)); split; try left; reflexivity.
Qed.

Lemma isValid_cases h loc c :
  Untyped.has_position loc = true ->
  (Untyped.isValid h loc c = (Ok (Untyped.passes h loc), c) \/
   Untyped.isValid h loc c = (Throw TypeError, c))
  /\
  (Untyped.coordinates_printable loc = true ->
   Untyped.isValid h loc c = (Ok (Untyped.passes h loc), c)).
Proof.
  intros H. destruct (has_position_reads loc H) as (nm & p & Hn & Hp & _).
  pose proof (isValidCoordinates_cases h (lat (Untyped.position_read loc))
                (lng (Untyped.position_read loc)) c) as [Hcases Hprint].
  destruct (not_nullish (lat (Untyped.position_read loc)) &&
            not_nullish (lng (Untyped.position_read loc))) eqn:Hnn.
  - assert (Hcall :
              (p0 <- Untyped.position_of loc ;;
               Untyped.isValidCoordinates h (lat p0) (lng p0)) c
              = Untyped.isValidCoordinates h (lat (Untyped.position_read loc))
                  (lng (Untyped.position_read loc)) c).
    { erewrite bind_ok by (apply position_of_ok; exact H). reflexivity. }
    assert (Hok : Untyped.isValidCoordinates h (lat (Untyped.position_read loc))
                    (lng (Untyped.position_read loc)) c
                  = (Ok (MapUpdater.isValidCoordinates h
                           (lat (Untyped.position_read loc))
                           (lng (Untyped.position_read loc))), c) ->
                  Untyped.isValid h loc c = (Ok (Untyped.passes h loc), c)).
    { intros E. unfold Untyped.isValid, Untyped.passes. rewrite Hnn.
      erewrite bind_ok by (rewrite Hcall; exact E).
      destruct (MapUpdater.isValidCoordinates h _ _); [reflexivity |].
      rewrite Hn, Hp. reflexivity. }
    split.
    + destruct Hcases as [E | E]; [left; exact (Hok E) | right].
      unfold Untyped.isValid. rewrite Hnn.
      erewrite bind_throw by (rewrite Hcall; exact E). reflexivity.
    + intros Hpr. exact (Hok (Hprint Hpr)).
  - assert (E : Untyped.isValid h loc c = (Ok (Untyped.passes h loc), c)).
    { unfold Untyped.isValid, Untyped.passes. rewrite Hnn.
      erewrite bind_ok by reflexivity.
      rewrite Hn, Hp. reflexivity. }
    split; [left |]; intros; exact E.
Qed.

Lemma filter_cases h l :
  forallb Untyped.has_position l = true ->
  forall c,
    (array_filter (Untyped.isValid h) l c = (Ok (filter (Untyped.passes h) l), c) \/
     array_filter (Untyped.isValid h) l c = (Throw TypeError, c))
    /\
    (forallb Untyped.coordinates_printable l = true ->
     array_filter (Untyped.isValid h) l c = (Ok (filter (Untyped.passes h) l), c)).
Proof.
  induction l as [| a l IH]; intros H c; simpl.
  - split; [left |]; reflexivity.
  - simpl in H. apply andb_prop in H. destruct H as [Ha Hl].
    destruct (isValid_cases h a c Ha) as [Hcase Hpr].
    destruct (IH Hl c) as [Hrest Hrest_pr].
    assert (Hok : Untyped.isValid h a c = (Ok (Untyped.passes h a), c) ->
                  array_filter (Untyped.isValid h) l c
                  = (Ok (filter (Untyped.passes h) l), c) ->
                  (keep <- Untyped.isValid h a ;;
                   kept <- array_filter (Untyped.isValid h) l ;;
                   ret (if keep then a :: kept else kept)) c
                  = (Ok (if Untyped.passes h a then a :: filter (Untyped.passes h) l
                         else filter (Untyped.passes h) l), c)).
    { intros E1 E2. erewrite bind_ok by exact E1.
      erewrite bind_ok by exact E2. reflexivity. }
    split.
    + destruct Hcase as [E1 | E1].
      * destruct Hrest as [E2 | E2]; [left; exact (Hok E1 E2) | right].
        erewrite bind_ok by exact E1. erewrite bind_throw by exact E2.
        reflexivity.
      * right. erewrite bind_throw by exact E1. reflexivity.
    + intros Hall. apply andb_prop in Hall. destruct Hall as [Hpa Hpl].
      exact (Hok (Hpr Hpa) (Hrest_pr Hpl)).
Qed.

Lemma filter_keeps_positions h l :
  forallb Untyped.has_position l = true ->
  forallb Untyped.has_position (filter (Untyped.passes h) l) = true.
Proof.
  induction l as [| a l IH]; simpl; intros H; [reflexivity |].
  apply andb_prop in H. destruct H as [Ha Hl].
  destruct (Untyped.passes h a); simpl; [rewrite Ha |]; auto.
Qed.

Lemma positions_ok l :
  forallb Untyped.has_position l = true ->
  forall i c,
    map_from (fun loc (_ : nat) => Untyped.position_of loc) l i c
    = (Ok (map Untyped.position_read l), c).
Proof.
  induction l as [| a l IH]; intros H i c; simpl; [reflexivity |].
  simpl in H. apply andb_prop in H. destruct H as [Ha Hl].
  erewrite bind_ok by (apply position_of_ok; exact Ha).
  erewrite bind_ok by (apply IH; exact Hl). reflexivity.
Qed.

(** What the [try] does once the filter has returned. *)
Lemma flight_ok valid st c :
  forallb Untyped.has_position valid = true ->
  (match valid with
   | [] => ret st
   | [location] =>
       _ <- or_throw TypeError (get location "name") ;;
       p <- Untyped.position_of location ;;
       ret (MapUpdater.mkMapState (Some (MapUpdater.flyTo p 13)) true)
   | _ =>
       ps <- array_map (fun loc (_ : nat) => Untyped.position_of loc) valid ;;
       ret (MapUpdater.mkMapState (Some (MapUpdater.flyToBounds ps 13)) true)
   end) c = (Ok (Untyped.flown valid st), c).
Proof.
  intros H. destruct valid as [| a [| b rest]].
  - reflexivity.
  - simpl in H. rewrite andb_true_r in H.
    destruct (has_position_reads a H) as (nm & p & Hn & _).
    rewrite Hn. cbn [or_throw]. erewrite bind_ok by reflexivity.
    erewrite bind_ok by (apply position_of_ok; exact H). reflexivity.
  - unfold array_map. erewrite bind_ok by (apply positions_ok; exact H).
    reflexivity.
Qed.

(** The effect when every location has a position: the filter returns
    and the map follows, or the filter throws and the [catch] resets the
    flag. *)
Lemma locationsEffect_returns h locations st c :
  forallb Untyped.has_position locations = true ->
  (Untyped.locationsEffect h locations JNull st c
     = (Ok (Untyped.flown (filter (Untyped.passes h) locations) st), c) \/
   Untyped.locationsEffect h locations JNull st c
     = (Ok (MapUpdater.mkMapState (MapUpdater.view st) false), c))
  /\
  (forallb Untyped.coordinates_printable locations = true ->
   Untyped.locationsEffect h locations JNull st c
     = (Ok (Untyped.flown (filter (Untyped.passes h) locations) st), c)).
Proof.
  intros H. unfold Untyped.locationsEffect.
  destruct locations as [| l0 rest].
  { split; [left |]; reflexivity. }
  cbn [length Nat.eqb truthy orb]. unfold array_map.
  destruct (map_logged_ok (l0 :: rest) H 0 c) as (vs & Hvs).
  rewrite !(bind_ok _ _ _ _ _ Hvs).
  destruct (filter_cases h (l0 :: rest) H c) as [Hfilter Hprint].
  pose proof (flight_ok (filter (Untyped.passes h) (l0 :: rest)) st c
                (filter_keeps_positions h _ H)) as Hflight.
  unfold array_map in Hflight.
  match goal with |- (?X = _ \/ _) /\ _ => set (run := X) end.
  assert (Hok : array_filter (Untyped.isValid h) (l0 :: rest) c
                = (Ok (filter (Untyped.passes h) (l0 :: rest)), c) ->
                run = (Ok (Untyped.flown
                             (filter (Untyped.passes h) (l0 :: rest))
                             st), c)).
  { intros E. subst run. unfold try_catch. erewrite bind_ok by exact E.
    rewrite Hflight. reflexivity. }
  assert (Hthrow : array_filter (Untyped.isValid h) (l0 :: rest) c
                   = (Throw TypeError, c) ->
                   run = (Ok (MapUpdater.mkMapState (MapUpdater.view st) false),
                          c)).
  { intros E. subst run. unfold try_catch. erewrite bind_throw by exact E.
    reflexivity. }
  clearbody run. split.
  - destruct Hfilter as [E | E]; [left; exact (Hok E) | right; exact (Hthrow E)].
  - intros Hpr. exact (Hok (Hprint Hpr)).
Qed.

(** The slip: one location without a position, and the logging
    statement throws before the [try] is entered. *)
Lemma locationsEffect_slip h locations st c :
  forallb Untyped.has_position locations = false ->
  Untyped.locationsEffect h locations JNull st c = (Throw TypeError, c).
Proof.
  intros H. unfold Untyped.locationsEffect.
  destruct locations as [| l0 rest]; [discriminate H |].
  cbn [length Nat.eqb truthy orb]. unfold array_map.
  erewrite bind_throw by (apply map_logged_throws; exact H). reflexivity.
Qed.

(** The objects [parseJsonLocations] returns are of that kind: they hold
    [coordinates] and no [position]. *)
Lemma strict_result_raises_in_the_map h text c locs c' st c0 :
  LocationParser.parseJsonLocations h text c = (Ok locs, c') ->
  Untyped.locationsEffect h (map json_location_value locs) JNull st c0
  = (Throw TypeError, c0).
Proof.
  intros H. apply locationsEffect_slip.
  pose proof (parseJsonLocations_inv _ _ _ _ _ H) as Hm.
  apply mapped_length in Hm.
  unfold LocationParser.parseJsonLocations in H.
  destruct (length (LocationParser.first_parsed h LocationParser.patterns text)
            =? 0)%nat eqn:Hlen; [discriminate H |].
  apply Nat.eqb_neq in Hlen.
  destruct locs as [| l ls]; [| reflexivity].
  rewrite <- Hm in Hlen. exfalso. apply Hlen. reflexivity.
Qed.

Lemma flown_cases valid st :
  (valid = [] -> Untyped.flown valid st = st) /\
  (valid <> [] ->
   exists cmd,
     Untyped.flown valid st = MapUpdater.mkMapState (Some cmd) true /\
     command_points cmd = map Untyped.position_read valid).
Proof.
  destruct valid as [| a [| b rest]]; (split; [intros E | intros Hne]);
    try discriminate E; try reflexivity; try congruence;
    eexists; split; reflexivity.
Qed.

Lemma passes_sound h loc :
  Untyped.passes h loc = true -> valid_position h (Untyped.position_read loc).
Proof.
  unfold Untyped.passes, MapUpdater.isValidCoordinates. intros H.
  apply andb_prop in H. destruct H as [Hpresent H].
  apply andb_prop in Hpresent. destruct Hpresent as [Hlat Hlng].
  apply andb_prop in H. destruct H as [H Hl2].
  apply andb_prop in H. destruct H as [H Hg2].
  apply andb_prop in H. destruct H as [H Hl1].
  apply andb_prop in H. destruct H as [_ Hg1].
  destruct (bounded_is_finite _ _ _ Hg1 Hl1) as (la & Hla & Hla1 & Hla2).
  destruct (bounded_is_finite _ _ _ Hg2 Hl2) as (lo & Hlo & Hlo1 & Hlo2).
  split; [exact Hlat |]. split; [exact Hlng |].
  exists la, lo. repeat split; assumption.
Qed.

Lemma passes_complete h loc :
  valid_position h (Untyped.position_read loc) ->
  Untyped.passes h loc = true.
Proof.
  intros (Hlat & Hlng & la & lo & Hla & Hlo & H1 & H2 & H3 & H4).
  unfold Untyped.passes, MapUpdater.isValidCoordinates.
  rewrite Hlat, Hlng, Hla, Hlo. cbn [andb num_isNaN negb].
  unfold num_ge, num. cbn [num_le].
  apply Qle_bool_iff in H1, H2, H3, H4.
  rewrite H1, H2, H3, H4. reflexivity.
Qed.

(** C10, on the code.  With no location selected, the effect that
    follows an update of [locations] raises a TypeError as soon as one
    location of the list has no position: its first logging statement
    reads [loc.position.lat] of every location, before the [try] and
    before the filter that guards that very read.  When every location
    has a position nothing is raised, and the map either keeps its view
    or is sent to the positions of exactly the locations that pass the
    filter, of which there is at least one; when moreover every
    coordinate can be coerced, the map is left as it is if no location
    passes and is sent to those that pass otherwise.  A location passes
    exactly when both its coordinates are present, not NaN, with the
    latitude in [-90, 90] and the longitude in [-180, 180]. *)
Theorem locations_update_uses_valid_positions :
  forall (h : Host) (locations : list JsVal) (st : MapUpdater.MapState)
         (c : Calls),
    let effect := Untyped.locationsEffect h locations JNull st c in
    let valid := filter (Untyped.passes h) locations in
    (forallb Untyped.has_position locations = false ->
     effect = (Throw TypeError, c))
    /\
    (forallb Untyped.has_position locations = true ->
     exists st',
       effect = (Ok st', c) /\
       (MapUpdater.view st' = MapUpdater.view st \/
        exists cmd,
          st' = MapUpdater.mkMapState (Some cmd) true /\
          valid <> [] /\
          command_points cmd = map Untyped.position_read valid) /\
       (forallb Untyped.coordinates_printable locations = true ->
        (valid = [] -> st' = st) /\
        (valid <> [] ->
         exists cmd,
           st' = MapUpdater.mkMapState (Some cmd) true /\
           command_points cmd = map Untyped.position_read valid)))
    /\
    (forall loc,
        Untyped.passes h loc = true <->
        valid_position h (Untyped.position_read loc)).
Proof.
  intros h locations st c effect valid. subst effect valid.
  split; [| split].
  - apply locationsEffect_slip.
  - intros H.
    destruct (locationsEffect_returns h locations st c H) as [Hcases Hprint].
    destruct (flown_cases (filter (Untyped.passes h) locations) st) as [Hnil Hcons].
    destruct Hcases as [E | E].
    + exists (Untyped.flown (filter (Untyped.passes h) locations) st).
      split; [exact E |]. split.
      * destruct (filter (Untyped.passes h) locations) as [| v vs] eqn:Ef.
        -- left. rewrite (Hnil eq_refl). reflexivity.
        -- right. destruct (Hcons ltac:(discriminate)) as (cmd & Hcmd & Hpts).
           exists cmd. split; [exact Hcmd |]. split; [discriminate | exact Hpts].
      * intros _. split; [exact Hnil | exact Hcons].
    + exists (MapUpdater.mkMapState (MapUpdater.view st) false).
      split; [exact E |]. split; [left; reflexivity |].
      intros Hpr. rewrite (Hprint Hpr) in E. inversion E as [E'].
      split; [exact Hnil | exact Hcons].
  - intros loc. split; [apply passes_sound | apply passes_complete].
Qed.

(** The effect run without a selection on a list of one location that
    has no position: a TypeError leaves the effect, although the list
    simply holds no valid location. *)
Lemma locations_update_uses_valid_positions_witness :
  Untyped.locationsEffect Demo.host [Places.nowhere] JNull Places.idle start
  = (Throw TypeError, start)
  /\
  filter (Untyped.passes Demo.host) [Places.nowhere] = [].
Proof.
  split.
  - apply (proj1 (locations_update_uses_valid_positions Demo.host
                    [Places.nowhere] Places.idle start)).
    reflexivity.
  - reflexivity.
Defined.

(** A coordinate that cannot be coerced makes the filter throw inside
    the [try]: nothing is flown to, not even the valid location before
    it, and the [catch] resets the flag. *)
Lemma unprintable_coordinate_stops_the_flight :
  Untyped.locationsEffect Demo.host
    [location_value Places.paris; Places.odd] JNull
    (mkMapState None true) start
  = (Ok (mkMapState None false), start).
Proof. vm_compute. reflexivity. Qed.

(** On locations that follow the [Location] type and whose coordinates
    can be coerced, the effect is the one written on that type. *)
Lemma location_value_position l :
  Untyped.position_read (MapUpdater.location_value l) = position l.
Proof. destruct l as [? ? ? ? [la lo] ? ? ? ?]. reflexivity. Qed.

Lemma passes_location_value h l :
  Untyped.passes h (MapUpdater.location_value l) = MapUpdater.isValid h l.
Proof.
  unfold Untyped.passes, MapUpdater.isValid. rewrite location_value_position.
  reflexivity.
Qed.

Lemma filter_location_values h ls :
  filter (Untyped.passes h) (map MapUpdater.location_value ls)
  = map MapUpdater.location_value (MapUpdater.validLocations h ls).
Proof.
  unfold MapUpdater.validLocations.
  induction ls as [| l ls IH]; simpl; [reflexivity |].
  rewrite passes_location_value. destruct (MapUpdater.isValid h l); simpl;
    rewrite IH; reflexivity.
Qed.

Lemma flown_location_values ls st :
  Untyped.flown (map MapUpdater.location_value ls) st
  = match ls with
    | [] => st
    | [location] =>
        MapUpdater.mkMapState (Some (MapUpdater.flyTo (position location) 13)) true
    | valid =>
        MapUpdater.mkMapState
          (Some (MapUpdater.flyToBounds (map position valid) 13)) true
    end.
Proof.
  destruct ls as [| a [| b rest]]; simpl; [reflexivity | |].
  - rewrite location_value_position. reflexivity.
  - rewrite !location_value_position. rewrite map_map.
    rewrite (map_ext _ position (fun l => location_value_position l)).
    reflexivity.
Qed.

Lemma locationsEffect_typed h ls st c :
  Forall (fun l => printable (lat (position l)) = true /\
                   printable (lng (position l)) = true) ls ->
  Untyped.locationsEffect h (map MapUpdater.location_value ls)
    JNull st c
  = (Ok (MapUpdater.locationsEffect h ls None st), c).
Proof.
  intros Hpr.
  assert (Hpos : forallb Untyped.has_position
                   (map MapUpdater.location_value ls) = true).
  { clear Hpr. induction ls as [| l ls IH]; [reflexivity |]. simpl. exact IH. }
  assert (Hco : forallb Untyped.coordinates_printable
                  (map MapUpdater.location_value ls) = true).
  { clear Hpos. induction Hpr as [| l ls [Hla Hlo] _ IH]; [reflexivity |].
    simpl. rewrite IH, andb_true_r.
    unfold Untyped.coordinates_printable.
    rewrite location_value_position, Hla, Hlo. reflexivity. }
  destruct (locationsEffect_returns h (map MapUpdater.location_value ls) st c Hpos)
    as [_ Hexact].
  rewrite (Hexact Hco), filter_location_values, flown_location_values.
  unfold MapUpdater.locationsEffect.
  destruct ls as [| l0 rest]; [reflexivity |].
  destruct (MapUpdater.validLocations h (l0 :: rest)) as [| v [| w vs]];
    reflexivity.
Qed.

Lemma selectionEffect_typed h sel st c :
  (forall l, sel = Some l ->
     printable (lat (position l)) && printable (lng (position l)) = true) ->
  Untyped.selectionEffect h (MapUpdater.selection_value sel) st c
  = (Ok (MapUpdater.selectionEffect h sel st), c).
Proof.
  intros Hpr. destruct sel as [l |]; [| reflexivity].
  specialize (Hpr l eq_refl).
  unfold Untyped.selectionEffect, MapUpdater.selectionEffect.
  destruct l as [? ? ? ? [la lo] ? ? ? ?]. simpl in Hpr |- *.
  erewrite bind_ok by reflexivity.
  erewrite bind_ok by reflexivity.
  erewrite bind_ok by reflexivity.
  erewrite bind_ok
    by exact (proj2 (isValidCoordinates_cases h la lo c) Hpr).
  destruct (MapUpdater.isValidCoordinates h la lo); reflexivity.
Qed.

End MapEffects.

(* ================================================================== *)
(** ** Further properties: strings *)
(* ================================================================== *)

Lemma trimStart_no_leading s : starts_with_space (trimStart s) = false.
Proof.
  induction s as [| c s IH]; simpl; [reflexivity |].
  destruct (is_space c) eqn:E; [exact IH | simpl; exact E].
Qed.

Lemma trimEnd_no_trailing s : ends_with_space (trimEnd s) = false.
Proof.
  induction s as [| c s IH]; simpl; [reflexivity |].
  destruct (trimEnd s) as [| d t] eqn:E.
  - destruct (is_space c) eqn:Ec; simpl; [reflexivity | exact Ec].
  - simpl. simpl in IH. exact IH.
Qed.

Lemma trimEnd_keeps_head s :
  starts_with_space s = false -> starts_with_space (trimEnd s) = false.
Proof.
  destruct s as [| c s]; simpl; [reflexivity |].
  intros Hc. destruct (trimEnd s); [rewrite Hc |]; simpl; [exact Hc | exact Hc].
Qed.

Lemma trim_trimmed s : trimmed (trim s).
Proof.
  unfold trim. split.
  - apply trimEnd_keeps_head, trimStart_no_leading.
  - apply trimEnd_no_trailing.
Qed.

Lemma all_chars_trimStart p s :
  all_chars p s = true -> all_chars p (trimStart s) = true.
Proof.
  induction s as [| c s IH]; simpl; [reflexivity |].
  intros H. destruct (is_space c); [| exact H].
  apply andb_prop in H. apply IH. tauto.
Qed.

Lemma all_chars_trimEnd p s :
  all_chars p s = true -> all_chars p (trimEnd s) = true.
Proof.
  induction s as [| c s IH]; simpl; [reflexivity |].
  intros H. apply andb_prop in H. destruct H as [Hc Hs].
  specialize (IH Hs). destruct (trimEnd s) as [| d t].
  - destruct (is_space c); simpl; [reflexivity | now rewrite Hc].
  - simpl. simpl in IH. now rewrite Hc, IH.
Qed.

Lemma all_chars_trim p s : all_chars p s = true -> all_chars p (trim s) = true.
Proof. intros H. apply all_chars_trimEnd, all_chars_trimStart, H. Qed.

Lemma all_chars_app p a b :
  all_chars p (a ++ b) = all_chars p a && all_chars p b.
Proof.
  induction a as [| c a IH]; simpl; [reflexivity |].
  now rewrite IH, andb_assoc.
Qed.

(* ================================================================== *)
(** ** Further properties: validation and the map *)
(* ================================================================== *)

(** X1.  [isValidCoordinates] of [locationParser.ts] accepts exactly the
    arrays of two finite numbers with the first in [-90, 90] and the
    second in [-180, 180]; anything else (another length, a string, NaN,
    an infinity, a value out of range) is rejected. *)
Theorem strict_validator_accepts_exactly_valid_pairs :
  forall coords : JsVal,
    LocationParser.isValidCoordinates coords = true <-> valid_pair coords.
Proof.
  intros coords. split.
  - apply isValidCoordinates_sound.
  - apply isValidCoordinates_complete.
Qed.

Lemma number_of_number h n : Number h (JNum n) = n.
Proof. reflexivity. Qed.

Lemma in_range_bounds lo hi q :
  (inject_Z lo <= q)%Q -> (q <= inject_Z hi)%Q ->
  num_ge (Fin q) (num lo) = true /\ num_le (Fin q) (num hi) = true.
Proof.
  intros H1 H2. unfold num_ge, num. simpl.
  split; apply Qle_bool_iff; assumption.
Qed.

Lemma valid_pair_passes_filter h l :
  valid_pair (JArr [lat (position l); lng (position l)]) ->
  MapUpdater.isValid h l = true.
Proof.
  intros (la & lo & Heq & (x & -> & Hx1 & Hx2) & (y & -> & Hy1 & Hy2)).
  inversion Heq as [[Hla Hlo]].
  unfold MapUpdater.isValid, MapUpdater.isValidCoordinates.
  rewrite Hla, Hlo, !number_of_number.
  destruct (in_range_bounds _ _ _ Hx1 Hx2) as [-> ->].
  destruct (in_range_bounds _ _ _ Hy1 Hy2) as [-> ->].
  reflexivity.
Qed.

Lemma map_filter_on_numbers h l :
  typeof_number (lat (position l)) = true ->
  typeof_number (lng (position l)) = true ->
  MapUpdater.isValid h l = true ->
  LocationParser.isValidCoordinates
    (JArr [lat (position l); lng (position l)]) = true.
Proof.
  intros Hla Hlo H.
  unfold MapUpdater.isValid, MapUpdater.isValidCoordinates in H.
  destruct (lat (position l)) as [| | | la | | |]; try discriminate Hla.
  destruct (lng (position l)) as [| | | lo | | |]; try discriminate Hlo.
  rewrite !number_of_number in H. simpl in H.
  apply andb_prop in H. destruct H as [H H6].
  apply andb_prop in H. destruct H as [H H5].
  apply andb_prop in H. destruct H as [H H4].
  apply andb_prop in H. destruct H as [_ H3].
  simpl. rewrite H3, H4, H5, H6. reflexivity.
Qed.

(** X2.  The two validators agree on numbers: a position whose
    coordinates pass [isValidCoordinates] of [locationParser.ts] passes
    the filter of [MapUpdater], and a position made of two numbers that
    passes the filter of [MapUpdater] passes the strict validator. *)
Theorem strict_validation_and_map_filter_agree :
  forall (h : Host) (l : Location),
    (LocationParser.isValidCoordinates
       (JArr [lat (position l); lng (position l)]) = true ->
     MapUpdater.isValid h l = true)
    /\
    (typeof_number (lat (position l)) = true ->
     typeof_number (lng (position l)) = true ->
     MapUpdater.isValid h l = true ->
     LocationParser.isValidCoordinates
       (JArr [lat (position l); lng (position l)]) = true).
Proof.
  intros h l. split.
  - intros H. apply valid_pair_passes_filter.
    apply isValidCoordinates_sound. exact H.
  - apply map_filter_on_numbers.
Qed.

Lemma strict_validation_and_map_filter_agree_witness :
  MapUpdater.isValid Demo.host Places.paris = true.
Proof.
  apply (proj1 (strict_validation_and_map_filter_agree Demo.host Places.paris)).
  vm_compute. reflexivity.
Defined.



Lemma response_location_valid h loc i c :
  raw_location h loc ->
  exists l c',
    LocationParser.response_location h loc i c = (Ok l, c') /\
    MapUpdater.isValid h l = true.
Proof.
  intros Hraw.
  destruct (response_location_ok h loc i c Hraw)
    as (l & c' & Hl & la & lo & Hc & Hpos).
  exists l, c'. split; [exact Hl |].
  destruct Hraw as (fields & s & coords & d & img & _ & _ & Hc' & Hv & _).
  rewrite Hc in Hc'. inversion Hc'; subst coords.
  apply valid_pair_passes_filter. rewrite Hpos. exact Hv.
Qed.

Lemma filter_all {A} (f : A -> bool) l :
  Forall (fun x => f x = true) l -> filter f l = l.
Proof.
  induction 1 as [| x l Hx _ IH]; simpl; [reflexivity |].
  now rewrite Hx, IH.
Qed.

(** X4.  From the reply to the map: when the batch found in a text is
    not empty and all its records follow the [RawLocation] interface with
    coordinates in range, [extractLocationsFromResponse] returns one
    location per record and the locations effect of [MapUpdater], with
    no selection, sends the map to the positions of all of them. *)
Theorem well_formed_batch_reaches_the_map :
  forall (h : Host) (text : string) (c : Calls) (st : MapUpdater.MapState),
    response_payload h text <> [] ->
    Forall (raw_location h) (response_payload h text) ->
    exists ls c' cmd,
      LocationParser.extractLocationsFromResponse h text c = (Ok ls, c') /\
      length ls = length (response_payload h text) /\
      MapUpdater.locationsEffect h ls None st
        = MapUpdater.mkMapState (Some cmd) true /\
      command_points cmd = map position ls.
Proof.
  intros h text c st Hne Hraw.
  destruct (extract_of_payload h (fun _ l => MapUpdater.isValid h l = true) text c)
    as (ls & c' & Hls & HF).
  { intros a Ha i c0. apply response_location_valid.
    rewrite Forall_forall in Hraw. exact (Hraw a Ha). }
  assert (Hlen : length ls = length (response_payload h text)).
  { symmetry. eapply Forall2_length. exact HF. }
  assert (Hvalid : Forall (fun l => MapUpdater.isValid h l = true) ls).
  { clear Hls Hlen Hne Hraw. induction HF; constructor; assumption. }
  assert (Hfilter : MapUpdater.validLocations h ls = ls)
    by (apply filter_all; exact Hvalid).
  destruct ls as [| l1 [| l2 rest]].
  - destruct (response_payload h text); [congruence | discriminate Hlen].
  - exists [l1], c'. eexists. split; [exact Hls |]. split; [exact Hlen |].
    unfold MapUpdater.locationsEffect. cbv beta iota. rewrite Hfilter.
    split; reflexivity.
  - exists (l1 :: l2 :: rest), c'. eexists.
    split; [exact Hls |]. split; [exact Hlen |].
    unfold MapUpdater.locationsEffect. cbv beta iota. rewrite Hfilter.
    split; reflexivity.
Qed.

Lemma well_formed_batch_reaches_the_map_witness :
  exists ls c' cmd,
    LocationParser.extractLocationsFromResponse Demo.host Texts.two_places start
      = (Ok ls, c') /\
    length ls = length (response_payload Demo.host Texts.two_places) /\
    MapUpdater.locationsEffect Demo.host ls None Places.idle
      = MapUpdater.mkMapState (Some cmd) true /\
    command_points cmd = map position ls.
Proof.
  apply (well_formed_batch_reaches_the_map Demo.host Texts.two_places start
           Places.idle).
  - vm_compute. discriminate.
  - eval_batch. repeat constructor; is_raw_location.
Defined.

(* ================================================================== *)
(** ** Further properties: what a call reads and how much it returns *)
(* ================================================================== *)

(** The reads of a [map] are the reads of its callback, summed. *)
Lemma map_from_reads {A B} (f : A -> nat -> M B) (dc dr : A -> nat) :
  (forall a i c b c',
      f a i c = (Ok b, c') ->
      clock_reads c' = clock_reads c + dc a /\
      random_draws c' = random_draws c + dr a) ->
  forall l i c bs c',
    map_from f l i c = (Ok bs, c') ->
    clock_reads c' = clock_reads c + list_sum (map dc l) /\
    random_draws c' = random_draws c + list_sum (map dr l).
Proof.
  intros Hf l. induction l as [| a l IH]; intros i c bs c' H; simpl in H.
  - apply ret_ok_inv in H. destruct H as [_ <-]. simpl. lia.
  - apply bind_ok_inv in H. destruct H as (b & c1 & Hb & H).
    apply bind_ok_inv in H. destruct H as (bs0 & c2 & Hbs & H).
    apply ret_ok_inv in H. destruct H as [_ <-].
    destruct (Hf _ _ _ _ _ Hb) as [Hc1 Hr1].
    destruct (IH _ _ _ _ Hbs) as [Hc2 Hr2].
    simpl. lia.
Qed.

Lemma json_location_reads h loc i c l c' :
  LocationParser.json_location h loc i c = (Ok l, c') ->
  clock_reads c' = clock_reads c + 1 /\ random_draws c' = random_draws c + 0.
Proof.
  unfold LocationParser.json_location, LocationParser.number_or_zero.
  intros H. steps_ok; simpl; lia.
Qed.

Lemma response_location_reads h loc i c l c' :
  LocationParser.response_location h loc i c = (Ok l, c') ->
  clock_reads c' = clock_reads c + 1 /\
  random_draws c' = random_draws c + (if draws_reviews loc then 1 else 0).
Proof.
  unfold LocationParser.response_location, draws_reviews. intros H.
  steps_ok; simpl;
    match goal with
    | Hr : get loc "reviews" = Some _ |- _ => rewrite Hr
    end;
    match goal with
    | E : truthy _ = _ |- _ => rewrite E
    end; simpl; lia.
Qed.

Lemma list_sum_const {A} (l : list A) : list_sum (map (fun _ => 1) l) = length l.
Proof. induction l as [| a l IH]; simpl; [reflexivity | now rewrite IH]. Qed.

Lemma list_sum_zero {A} (l : list A) : list_sum (map (fun _ => 0) l) = 0.
Proof. induction l as [| a l IH]; simpl; [reflexivity | exact IH]. Qed.

Lemma list_sum_filter {A} (f : A -> bool) (l : list A) :
  list_sum (map (fun a => if f a then 1 else 0) l) = length (filter f l).
Proof.
  induction l as [| a l IH]; simpl; [reflexivity |].
  destruct (f a); simpl; now rewrite IH.
Qed.

(** X5.  [parseJsonLocations] never returns an empty array: when no
    pattern yields a batch it throws the error [No valid locations found
    in text] before reading anything, and when it returns, it returns
    exactly one location per record of the batch, having read the clock
    once per record and never the random source. *)
Theorem parseJsonLocations_returns_one_location_per_record :
  forall (h : Host) (text : string) (c : Calls),
    (json_payload h text = [] ->
     LocationParser.parseJsonLocations h text c = (Throw NoValidLocations, c))
    /\
    (forall locs c',
        LocationParser.parseJsonLocations h text c = (Ok locs, c') ->
        locs <> [] /\
        length locs = length (json_payload h text) /\
        clock_reads c' = clock_reads c + length locs /\
        random_draws c' = random_draws c).
Proof.
  intros h text c. split.
  - intros Hp. unfold LocationParser.parseJsonLocations.
    fold (json_payload h text). rewrite Hp. reflexivity.
  - intros locs c' H.
    pose proof (parseJsonLocations_inv _ _ _ _ _ H) as Hm.
    apply mapped_length in Hm. fold (json_payload h text) in Hm.
    unfold LocationParser.parseJsonLocations in H.
    fold (json_payload h text) in H.
    destruct (length (json_payload h text) =? 0)%nat eqn:Hlen;
      [discriminate H |].
    apply Nat.eqb_neq in Hlen.
    unfold array_map in H.
    apply (map_from_reads _ (fun _ => 1) (fun _ => 0)
             (json_location_reads h)) in H.
    rewrite list_sum_const, list_sum_zero in H.
    repeat split; try lia.
    intros ->. simpl in Hm. lia.
Qed.

Lemma parseJsonLocations_returns_one_location_per_record_witness :
  LocationParser.parseJsonLocations Demo.host "No block here." start
    = (Throw NoValidLocations, start)
  /\
  exists locs c',
    LocationParser.parseJsonLocations Demo.host Texts.two_places start
      = (Ok locs, c') /\
    locs <> [] /\
    length locs = length (json_payload Demo.host Texts.two_places) /\
    clock_reads c' = clock_reads start + length locs /\
    random_draws c' = random_draws start.
Proof.
  split.
  - apply (proj1 (parseJsonLocations_returns_one_location_per_record
                    Demo.host "No block here." start)).
    vm_compute. reflexivity.
  - do 2 eexists. split; [vm_compute; reflexivity |].
    apply (proj2 (parseJsonLocations_returns_one_location_per_record
                    Demo.host Texts.two_places start)).
    vm_compute. reflexivity.
Defined.

(** X6.  A call of [extractLocationsFromResponse] that returns
    locations has read the clock exactly once per location, and has drawn
    exactly one random number for each record of the batch whose
    [reviews] is falsy, none for the others. *)
Theorem extractLocationsFromResponse_reads :
  forall (h : Host) (text : string) (c : Calls) ls c',
    LocationParser.extractLocationsFromResponse h text c = (Ok ls, c') ->
    ls <> [] ->
    length ls = length (response_payload h text) /\
    clock_reads c' = clock_reads c + length ls /\
    random_draws c'
      = random_draws c + length (filter draws_reviews (response_payload h text)).
Proof.
  intros h text c ls c' H Hne.
  pose proof (extractLocationsFromResponse_mapped _ _ _ _ _ H) as Hm.
  destruct Hm as [-> | Hm]; [congruence |].
  apply mapped_length in Hm.
  unfold LocationParser.extractLocationsFromResponse in H.
  apply try_catch_ret_inv in H.
  destruct H as [H | [-> _]]; [| congruence].
  unfold response_payload in *.
  destruct (Regex.search _ text) as [jm |];
    [| apply ret_ok_inv in H; destruct H as [<- _]; congruence].
  steps_ok; try congruence.
  match goal with
  | Hp : JSON_parse h _ = Some _ |- _ => rewrite Hp in *
  end.
  match goal with
  | Hg : get _ "locations" = Some _ |- _ => rewrite Hg in *
  end.
  unfold array_map in H.
  apply (map_from_reads _ (fun _ => 1)
           (fun a => if draws_reviews a then 1 else 0)
           (response_location_reads h)) in H.
  rewrite list_sum_const, list_sum_filter in H.
  split; [exact Hm |]. rewrite Hm. exact H.
Qed.

Lemma extractLocationsFromResponse_reads_witness :
  exists ls c',
    LocationParser.extractLocationsFromResponse Demo.host Texts.bad_then_good start
      = (Ok ls, c') /\
    length ls = length (response_payload Demo.host Texts.bad_then_good) /\
    clock_reads c' = clock_reads start + length ls /\
    random_draws c'
      = random_draws start
        + length (filter draws_reviews
                    (response_payload Demo.host Texts.bad_then_good)).
Proof.
  do 2 eexists. split; [vm_compute; reflexivity |].
  apply (extractLocationsFromResponse_reads Demo.host Texts.bad_then_good start).
  - vm_compute. reflexivity.
  - discriminate.
Defined.

Lemma json_location_description h loc i c l c' :
  LocationParser.json_location h loc i c = (Ok l, c') ->
  JsonLocation.description l = "" \/
  exists s,
    get loc "description" = Some (JStr s) /\
    JsonLocation.description l = trim s.
Proof.
  unfold LocationParser.json_location. intros H.
  steps_ok; simpl;
    first [ left; reflexivity
          | right; eexists; split; [eassumption | reflexivity] ].
Qed.

Lemma trimmed_empty : trimmed "".
Proof. split; reflexivity. Qed.

(** X7.  Names come out trimmed: the name and the description of every
    location returned by [parseJsonLocations], and the name of every
    location returned by [parseTextLocations], have no white space at
    either end. *)
Theorem returned_names_are_trimmed :
  forall h : Host,
    (forall text c locs c',
        LocationParser.parseJsonLocations h text c = (Ok locs, c') ->
        Forall (fun l => trimmed (JsonLocation.name l) /\
                         trimmed (JsonLocation.description l)) locs)
    /\
    (forall text c,
        Forall (fun l => exists s, name l = JStr s /\ trimmed s)
               (fst (LocationParser.parseTextLocations h text c))).
Proof.
  intros h. split.
  - intros text c locs c' H. apply parseJsonLocations_inv in H.
    eapply mapped_Forall; [| exact H].
    intros a i c0 b c1 Hcb. simpl. split.
    + apply json_location_inv in Hcb.
      destruct Hcb as (s & r0 & v0 & _ & _ & _ & _ & _ & -> & _).
      apply trim_trimmed.
    + apply json_location_description in Hcb.
      destruct Hcb as [-> | (s & _ & ->)];
        [apply trimmed_empty | apply trim_trimmed].
  - intros text c. unfold LocationParser.parseTextLocations.
    apply scan_Forall; [| constructor].
    intros m count c0 l c1 Hcb. apply text_location_inv in Hcb.
    destruct Hcb as (nm & r1 & r2 & _ & _ & Hname & _).
    exists (trim nm). split; [exact Hname | apply trim_trimmed].
Qed.

Lemma returned_names_are_trimmed_witness :
  exists locs c',
    LocationParser.parseJsonLocations Demo.host Texts.eiffel start
      = (Ok locs, c') /\
    Forall (fun l => trimmed (JsonLocation.name l) /\
                     trimmed (JsonLocation.description l)) locs.
Proof.
  do 2 eexists. split; [vm_compute; reflexivity |].
  eapply (proj1 (returned_names_are_trimmed Demo.host) Texts.eiffel start).
  vm_compute. reflexivity.
Defined.

(* ================================================================== *)
(** ** Further properties: the text-mode scan *)
(* ================================================================== *)





Lemma exec_loop_count r :
  forall fuel s,
    length (Regex.exec_loop fuel r s) * Regex.min_len r <= String.length s.
Proof.
  induction fuel as [| fuel IH]; intros s; simpl; [lia |].
  destruct (Regex.search_from r s) as [[m rest] |] eqn:E; simpl; [| lia].
  apply search_from_consumes in E. specialize (IH rest). lia.
Qed.

Lemma scan_length h ms :
  forall locs c,
    length (fst (LocationParser.scan h ms locs c)) <= length locs + length ms.
Proof.
  induction ms as [| m rest IH]; intros locs c; simpl; [lia |].
  destruct (LocationParser.text_location h m (length locs) c)
    as [[[l |] | e] c1].
  - specialize (IH (locs ++ [l])%list c1). rewrite length_app in IH.
    simpl in IH. lia.
  - specialize (IH locs c1). lia.
  - simpl. lia.
Qed.

(** X9.  The loop of [parseTextLocations] cannot spin and cannot
    flood: every match of [LOCATION_PATTERN] consumes at least three
    characters (a digit, the dot, one character of name), so a text of
    [n] characters yields at most [n / 3] locations. *)
Theorem parseTextLocations_at_most_a_third :
  forall (h : Host) (text : string) (c : Calls),
    3 * length (fst (LocationParser.parseTextLocations h text c))
    <= String.length text.
Proof.
  intros h text c. unfold LocationParser.parseTextLocations.
  pose proof (scan_length h (Regex.exec_all LocationParser.LOCATION_PATTERN text)
                [] c) as Hscan.
  pose proof (exec_loop_count LocationParser.LOCATION_PATTERN
                (S (String.length text)) text) as Hcount.
  rewrite LOCATION_PATTERN_consumes in Hcount.
  unfold Regex.exec_all in *. cbn [length plus] in Hscan. lia.
Qed.

(* ================================================================== *)
(** ** Further properties: the JSON branch of ChatMessage *)
(* ================================================================== *)

(** X10.  [ChatMessage] coerces the coordinates with [Number]: in every
    location it builds, [position.lat] and [position.lng] are numbers
    (NaN when the payload's value does not convert), never [null],
    [undefined] or a string; and such a location passes the filter of
    [MapUpdater] exactly when the pair is finite and in range. *)
Theorem chat_positions_are_numbers :
  forall (h : Host) (json : string) (c : Calls) ls c',
    ChatMessage.processedLocations h (Some json) false c = (Ok (Some ls), c') ->
    Forall (fun l =>
              typeof_number (lat (position l)) = true /\
              typeof_number (lng (position l)) = true /\
              (MapUpdater.isValid h l = true <->
               valid_pair (JArr [lat (position l); lng (position l)])))
           ls.
Proof.
  intros h json c ls c' H.
  apply processedLocations_mapped in H.
  eapply mapped_Forall; [| exact H].
  intros a i c0 b c1 Hcb. simpl.
  apply chat_location_inv in Hcb.
  destruct Hcb as (cs & x0 & x1 & r0 & v0 & _ & _ & _ & _ & Hpos & _).
  assert (Hla : typeof_number (lat (position b)) = true)
    by (rewrite Hpos; reflexivity).
  assert (Hlo : typeof_number (lng (position b)) = true)
    by (rewrite Hpos; reflexivity).
  split; [exact Hla |]. split; [exact Hlo |]. split.
  - intros Hv. apply isValidCoordinates_sound.
    apply (map_filter_on_numbers h); assumption.
  - apply valid_pair_passes_filter.
Qed.

Lemma chat_positions_are_numbers_witness :
  exists ls c',
    ChatMessage.processedLocations Demo.host (Some Texts.bad) false start
      = (Ok (Some ls), c') /\
    Forall (fun l =>
              typeof_number (lat (position l)) = true /\
              typeof_number (lng (position l)) = true /\
              (MapUpdater.isValid Demo.host l = true <->
               valid_pair (JArr [lat (position l); lng (position l)])))
           ls.
Proof.
  do 2 eexists. split; [vm_compute; reflexivity |].
  eapply (chat_positions_are_numbers Demo.host Texts.bad start).
  vm_compute. reflexivity.
Defined.

Lemma has_coordinate_pair_inv loc :
  ChatMessage.has_coordinate_pair loc = true ->
  exists fields a b,
    loc = JObj fields /\ get loc "coordinates" = Some (JArr [a; b]).
Proof.
  unfold ChatMessage.has_coordinate_pair. intros H.
  apply andb_prop in H. destruct H as [_ H].
  destruct loc as [| | b0 | n | s | items | fields]; simpl in H;
    try discriminate H.
  destruct (assoc "coordinates" fields) as [[| | b1 | n | s | its | fs] |] eqn:E;
    try discriminate H.
  destruct its as [| a [| b [| x its]]]; try discriminate H.
  exists fields, a, b. split; [reflexivity |].
  simpl. rewrite E. reflexivity.
Qed.

Lemma chat_location_ok h fields a b i c :
  (forall s, encodeURIComponent h s <> None) ->
  get (JObj fields) "coordinates" = Some (JArr [a; b]) ->
  coercible (JObj fields) ->
  exists l c', ChatMessage.chat_location h (JObj fields) i c = (Ok l, c').
Proof.
  intros Henc Hc [Hnum Hname].
  destruct (Hnum a b Hc) as [Ha Hb].
  unfold ChatMessage.chat_location.
  erewrite (bind_ok (now h)) by reflexivity.
  rewrite (get_object fields "name"). cbn [or_throw].
  erewrite bind_ok by reflexivity.
  rewrite Hc. cbn [or_throw]. erewrite bind_ok by reflexivity.
  cbn [get_index nth or_throw].
  erewrite bind_ok by reflexivity.
  erewrite bind_ok by (apply to_number_ok; exact Ha).
  erewrite bind_ok by reflexivity.
  erewrite bind_ok by (apply to_number_ok; exact Hb).
  pose proof (fun E => Hname _ _ (get_object fields "image") E
                          (get_object fields "name")) as Hnm.
  rewrite (get_object fields "rating"), (get_object fields "reviews"),
    (get_object fields "image"), (get_object fields "description").
  cbn [or_throw].
  erewrite bind_ok by reflexivity. erewrite bind_ok by reflexivity.
  erewrite bind_ok by reflexivity.
  set (nm := match assoc "name" fields with Some x => x | None => JUndefined end)
    in *.
  set (img := match assoc "image" fields with Some x => x | None => JUndefined end)
    in *.
  assert (Himg : forall c0, exists u,
             (if truthy img then ret img else ChatMessage.landmark_url h nm) c0
             = (Ok u, c0)).
  { intros c0. destruct (truthy img) eqn:Eimg; [eexists; reflexivity |].
    unfold ChatMessage.landmark_url.
    erewrite bind_ok by (apply to_string_ok; apply Hnm; reflexivity).
    destruct (encodeURIComponent h (str h nm ++ " landmark")) as [e |] eqn:E;
      [| exfalso; exact (Henc _ E)].
    eexists. reflexivity. }
  destruct (Himg (mkCalls (S (clock_reads c)) (random_draws c))) as (u & Hu).
  erewrite bind_ok by exact Hu.
  erewrite bind_ok by reflexivity.
  do 2 eexists. reflexivity.
Qed.

Lemma chat_location_with_city_ok h loc i c :
  (forall s, encodeURIComponent h s <> None) ->
  ChatMessage.has_coordinate_pair loc = true ->
  coercible loc ->
  exists l c',
    ChatMessage.chat_location_with_city h loc i c = (Ok l, c').
Proof.
  intros Henc Hpair Hco.
  destruct (has_coordinate_pair_inv loc Hpair) as (fields & a & b & -> & Hc).
  destruct (chat_location_ok h fields a b i c Henc Hc Hco) as (l & c1 & Hl).
  unfold ChatMessage.chat_location_with_city.
  erewrite bind_ok by exact Hl.
  rewrite (get_object fields "city"), (get_object fields "country").
  cbn [or_throw].
  erewrite bind_ok by reflexivity. erewrite bind_ok by reflexivity.
  do 2 eexists. reflexivity.
Qed.

(** Peels the failing run of a sequence of binds, one layer per call. *)
Ltac step_throw :=
  match goal with
  | H : bind _ _ _ = (Throw _, _) |- _ =>
      apply bind_throw_inv in H; destruct H as [H | (? & ? & ? & H)]
  | H : or_throw TypeError ?o _ = (Throw _, _) |- _ =>
      destruct o; inversion H; subst
  | H : ret _ _ = (Throw _, _) |- _ => discriminate H
  | H : now _ _ = (Throw _, _) |- _ => discriminate H
  | H : throw _ _ = (Throw _, _) |- _ => inversion H; subst
  | H : to_number _ ?v _ = (Throw _, _) |- _ =>
      unfold to_number in H; destruct (printable v); inversion H; subst
  | H : to_string _ ?v _ = (Throw _, _) |- _ =>
      unfold to_string in H; destruct (printable v); inversion H; subst
  | H : (if ?b then _ else _) _ = (Throw _, _) |- _ => destruct b
  end.

(** With an [encodeURIComponent] that does not throw, the callback
    throws nothing but the TypeError of a failed read or coercion. *)
Lemma chat_location_with_city_throws h loc i c e c' :
  (forall s, encodeURIComponent h s <> None) ->
  ChatMessage.chat_location_with_city h loc i c = (Throw e, c') ->
  e = TypeError.
Proof.
  intros Henc H.
  unfold ChatMessage.chat_location_with_city, ChatMessage.chat_location,
    ChatMessage.landmark_url in H.
  repeat step_throw; try reflexivity.
  all: match goal with
       | H : or_throw URIError ?o _ = (Throw _, _) |- _ =>
           destruct o eqn:E; [discriminate H | exfalso; exact (Henc _ E)]
       end.
Qed.

Lemma chat_location_with_city_not_coercible h loc a b i c :
  get loc "coordinates" = Some (JArr [a; b]) ->
  printable a && printable b = false ->
  exists e c', ChatMessage.chat_location_with_city h loc i c = (Throw e, c').
Proof.
  intros Hc Hp.
  assert (H : exists e c',
             ChatMessage.chat_location h loc i c = (Throw e, c')).
  { unfold ChatMessage.chat_location.
    erewrite (bind_ok (now h)) by reflexivity.
    destruct (get loc "name") as [nm |]; [| do 2 eexists; reflexivity].
    cbn [or_throw]. erewrite bind_ok by reflexivity.
    rewrite Hc. cbn [or_throw]. erewrite bind_ok by reflexivity.
    cbn [get_index nth or_throw].
    erewrite bind_ok by reflexivity.
    unfold to_number at 1. destruct (printable a); [| do 2 eexists; reflexivity].
    erewrite bind_ok by reflexivity. erewrite bind_ok by reflexivity.
    unfold to_number at 1. simpl in Hp. rewrite Hp. do 2 eexists. reflexivity. }
  destruct H as (e & c' & H). exists e, c'.
  unfold ChatMessage.chat_location_with_city.
  erewrite bind_throw by exact H. reflexivity.
Qed.

(** A [map] whose callback throws on one element throws. *)
Lemma map_from_some_throw {A B} (f : A -> nat -> M B) (e : Thrown) l :
  (forall a i c e' c', f a i c = (Throw e', c') -> e' = e) ->
  (exists a, In a l /\ forall i c, exists e' c', f a i c = (Throw e', c')) ->
  forall i c, exists c', map_from f l i c = (Throw e, c').
Proof.
  intros Honly. induction l as [| x l IH]; intros (a & Hin & Ha) i c.
  - contradiction.
  - simpl. destruct (f x i c) as [[b | e'] c1] eqn:Hx.
    + destruct Hin as [-> | Hin].
      * destruct (Ha i c) as (e' & c' & Hthrow). congruence.
      * destruct (IH (ex_intro _ a (conj Hin Ha)) (S i) c1) as (c' & Hrest).
        exists c'. erewrite bind_ok by exact Hx.
        erewrite bind_throw by exact Hrest. reflexivity.
    + exists c1. rewrite (Honly _ _ _ _ _ Hx) in Hx.
      erewrite bind_throw by exact Hx. reflexivity.
Qed.

(** X11.  The later revision of [ChatMessage] filters before it maps,
    and the map is still all or nothing.  With an [encodeURIComponent]
    that does not throw: when every record that has a two-element
    [coordinates] array can be coerced (its two coordinates by [Number],
    its name by [+] when it has no image), the filter-then-map over
    [data.locations] succeeds, the records without such an array are
    left out and every other record yields one location, in order, whose
    position is the pair coerced by [Number] (with no range check); when
    one of the records kept has a coordinate that cannot be coerced, the
    map throws a TypeError and no location is built. *)
Theorem filtered_batch_skips_malformed_records :
  forall (h : Host) (items : list JsVal) (c : Calls),
    (forall s, encodeURIComponent h s <> None) ->
    (Forall coercible (filter ChatMessage.has_coordinate_pair items) ->
     exists ls c',
       ChatMessage.filteredLocations h items c = (Ok ls, c') /\
       Forall2 (fun loc l =>
                  exists a b,
                    get loc "coordinates" = Some (JArr [a; b]) /\
                    position l
                    = mkPosition (JNum (Number h a)) (JNum (Number h b)))
               (filter ChatMessage.has_coordinate_pair items) ls)
    /\
    (forall loc a b,
        In loc items ->
        get loc "coordinates" = Some (JArr [a; b]) ->
        printable a && printable b = false ->
        exists c', ChatMessage.filteredLocations h items c = (Throw TypeError, c')).
Proof.
  intros h items c Henc. split.
  - intros Hco.
    destruct (map_from_ok (ChatMessage.chat_location_with_city h)
                (fun _ _ => True)
                (filter ChatMessage.has_coordinate_pair items)) with (i := 0) (c := c)
      as (ls & c' & Hls & _).
    { intros a Ha i c0. rewrite Forall_forall in Hco.
      pose proof (Hco a Ha) as Hca.
      apply filter_In in Ha. destruct Ha as [_ Ha].
      destruct (chat_location_with_city_ok h a i c0 Henc Ha Hca) as (l & c1 & Hl).
      exists l, c1. split; [exact Hl | exact I]. }
    exists ls, c'. split; [exact Hls |].
    eapply filteredLocations_keeps_coordinate_pairs. exact Hls.
  - intros loc a b Hin Hc Hp.
    unfold ChatMessage.filteredLocations, array_map.
    apply map_from_some_throw.
    + intros x i c0 e c1. apply chat_location_with_city_throws. exact Henc.
    + exists loc. split.
      * apply filter_In. split; [exact Hin |].
        unfold ChatMessage.has_coordinate_pair. rewrite Hc.
        destruct loc; try discriminate Hc; reflexivity.
      * intros i c0. eapply chat_location_with_city_not_coercible; eassumption.
Qed.

Lemma Demo_encode_total : forall s, encodeURIComponent Demo.host s <> None.
Proof. intros s. discriminate. Qed.

Lemma filtered_batch_skips_malformed_records_witness :
  (exists ls c',
      ChatMessage.filteredLocations Demo.host
        (chat_payload Demo.host Texts.missing_then_good) start = (Ok ls, c') /\
      Forall2 (fun loc l =>
                 exists a b,
                   get loc "coordinates" = Some (JArr [a; b]) /\
                   position l
                   = mkPosition (JNum (Number Demo.host a))
                                (JNum (Number Demo.host b)))
              (filter ChatMessage.has_coordinate_pair
                      (chat_payload Demo.host Texts.missing_then_good)) ls)
  /\
  (exists c',
      ChatMessage.filteredLocations Demo.host
        (chat_payload Demo.host Texts.unprintable_latitude) start
      = (Throw TypeError, c')).
Proof.
  split.
  - apply (proj1 (filtered_batch_skips_malformed_records Demo.host
                    (chat_payload Demo.host Texts.missing_then_good) start
                    Demo_encode_total)).
    eval_batch. constructor; [| constructor]. split.
    + intros x y H. vm_compute in H. inversion H. split; reflexivity.
    + intros img nm _ _ H. vm_compute in H. inversion H. reflexivity.
  - apply (proj2 (filtered_batch_skips_malformed_records Demo.host
                    (chat_payload Demo.host Texts.unprintable_latitude) start
                    Demo_encode_total)
             (JObj [("coordinates",
                     JArr [JObj [("toString", JNum (num 0))]; JNum (num 0)]);
                    ("name", JStr "Odd")])
             (JObj [("toString", JNum (num 0))]) (JNum (num 0))).
    + vm_compute. right. left. reflexivity.
    + reflexivity.
    + reflexivity.
Defined.

(* ================================================================== *)
(** ** Further properties: what the patterns can match *)
(* ================================================================== *)

Lemma star_greedy_prefix R p s :
  forall (k : string -> option R) x,
    Regex.star_greedy R p s k = Some x ->
    exists pre s', s = pre ++ s' /\ all_chars p pre = true /\ k s' = Some x.
Proof.
  induction s as [| c s IH]; intros k x H; simpl in H.
  - exists "", "". auto.
  - destruct (p c) eqn:Hc.
    + destruct (Regex.star_greedy R p s k) as [y |] eqn:E.
      * inversion H; subst y. destruct (IH k x E) as (pre & s' & -> & Hp & Hk).
        exists (String c pre), s'. simpl. rewrite Hc, Hp. auto.
      * exists "", (String c s). auto.
    + exists "", (String c s). auto.
Qed.

Lemma star_lazy_prefix R p s :
  forall (k : string -> option R) x,
    Regex.star_lazy R p s k = Some x ->
    exists pre s', s = pre ++ s' /\ all_chars p pre = true /\ k s' = Some x.
Proof.
  induction s as [| c s IH]; intros k x H; simpl in H.
  - destruct (k EmptyString) as [y |] eqn:E; [| discriminate H].
    exists "", "". rewrite E. auto.
  - destruct (k (String c s)) as [y |] eqn:E.
    + exists "", (String c s). rewrite E. auto.
    + destruct (p c) eqn:Hc; [| discriminate H].
      destruct (IH k x H) as (pre & s' & -> & Hp & Hk).
      exists (String c pre), s'. simpl. rewrite Hc, Hp. auto.
Qed.

Lemma strip_prefix_app w :
  forall s s', Regex.strip_prefix w s = Some s' -> s = w ++ s'.
Proof.
  induction w as [| a w IH]; intros s s' H; simpl in H.
  - inversion H. reflexivity.
  - destruct s as [| b s]; [discriminate H |].
    destruct (Ascii.eqb a b) eqn:E; [| discriminate H].
    apply Ascii.eqb_eq in E. subst b. simpl. f_equal. apply IH. exact H.
Qed.

(** A successful run reads a prefix of its input and leaves alone the
    groups its pattern does not write. *)
Lemma run_reads_prefix R r :
  forall s caps (k : string -> Regex.Caps -> option R) x,
    Regex.run R r s caps k = Some x ->
    exists pre s' caps',
      s = pre ++ s' /\ k s' caps' = Some x /\
      forall i, binds i r = false ->
                Regex.capture i caps' = Regex.capture i caps.
Proof.
  induction r as [| c | w | p | p | p | p | p | r1 IH1 r2 IH2 | r1 IH1 r2 IH2
                  | j r1 IH1 |];
    intros s caps k x H; simpl in H.
  - exists "", s, caps. auto.
  - destruct s as [| c' s]; [discriminate H |].
    destruct (Ascii.eqb c c'); [| discriminate H].
    exists (String c' ""), s, caps. auto.
  - destruct (Regex.strip_prefix w s) as [s' |] eqn:E; [| discriminate H].
    apply strip_prefix_app in E. exists w, s', caps. auto.
  - destruct s as [| c' s]; [discriminate H |].
    destruct (p c'); [| discriminate H].
    exists (String c' ""), s, caps. auto.
  - apply star_greedy_prefix in H. destruct H as (pre & s' & -> & _ & Hk).
    exists pre, s', caps. auto.
  - destruct s as [| c' s]; [discriminate H |].
    destruct (p c'); [| discriminate H].
    apply star_greedy_prefix in H. destruct H as (pre & s' & -> & _ & Hk).
    exists (String c' pre), s', caps. auto.
  - apply star_lazy_prefix in H. destruct H as (pre & s' & -> & _ & Hk).
    exists pre, s', caps. auto.
  - destruct s as [| c' s]; [discriminate H |].
    destruct (p c'); [| discriminate H].
    apply star_lazy_prefix in H. destruct H as (pre & s' & -> & _ & Hk).
    exists (String c' pre), s', caps. auto.
  - apply IH1 in H. destruct H as (pre1 & s1 & caps1 & -> & H & Hc1).
    apply IH2 in H. destruct H as (pre2 & s2 & caps2 & -> & H & Hc2).
    exists (pre1 ++ pre2), s2, caps2.
    split; [symmetry; apply append_assoc |]. split; [exact H |].
    intros i Hi. apply orb_false_elim in Hi. destruct Hi as [Hi1 Hi2].
    rewrite (Hc2 i Hi2). apply Hc1. exact Hi1.
  - destruct (Regex.run R r1 s caps k) as [y |] eqn:E.
    + inversion H; subst y. apply IH1 in E.
      destruct E as (pre & s' & caps' & -> & Hk & Hc).
      exists pre, s', caps'. split; [reflexivity |]. split; [exact Hk |].
      intros i Hi. apply orb_false_elim in Hi. apply Hc. apply Hi.
    + apply IH2 in H. destruct H as (pre & s' & caps' & -> & Hk & Hc).
      exists pre, s', caps'. split; [reflexivity |]. split; [exact Hk |].
      intros i Hi. apply orb_false_elim in Hi. apply Hc. apply Hi.
  - apply IH1 in H. destruct H as (pre & s' & caps' & -> & Hk & Hc).
    eexists pre, s', _. split; [reflexivity |]. split; [exact Hk |].
    intros i Hi. apply orb_false_elim in Hi. destruct Hi as [Hij Hi].
    simpl. rewrite Hij. apply Hc. exact Hi.
  - destruct s as [| c' s]; [| discriminate H].
    exists "", "", caps. auto.
Qed.

Lemma run_seq_cons R r rs s caps (k : string -> Regex.Caps -> option R) x :
  Regex.run R (Regex.seq (r :: rs)) s caps k = Some x ->
  exists pre s' caps',
    s = pre ++ s' /\ Regex.run R (Regex.seq rs) s' caps' k = Some x /\
    forall i, binds i r = false ->
              Regex.capture i caps' = Regex.capture i caps.
Proof.
  intros H. apply (run_reads_prefix R r s caps _ x) in H. exact H.
Qed.

Lemma includes_app w pre :
  forall s, includes w s = true -> includes w (pre ++ s) = true.
Proof.
  induction pre as [| c pre IH]; intros s H; [exact H |].
  change (String c pre ++ s) with (String c (pre ++ s)).
  cbn [includes].
  destruct (Regex.strip_prefix w (String c (pre ++ s))); [reflexivity |].
  apply IH. exact H.
Qed.

Lemma star_greedy_head R p s (k : string -> option R) x :
  Regex.star_greedy R p s k = Some x ->
  k s = Some x \/ exists c rest, s = String c rest /\ p c = true.
Proof.
  destruct s as [| c s]; simpl; intros H; [left; exact H |].
  destruct (p c) eqn:Hc; [| left; exact H].
  right. exists c, s. auto.
Qed.

(** The second pattern of [parseJsonLocations] asks for an opening
    bracket, one character and at least two closing brackets in a row. *)
Lemma single_location_needs_two_brackets s x :
  Regex.match_here LocationParser.single_location s = Some x ->
  includes "]]" s = true.
Proof.
  unfold Regex.match_here, LocationParser.single_location. intros H.
  do 10 (apply run_seq_cons in H;
         let pre := fresh "pre" in
         destruct H as (pre & ? & ? & -> & H & _);
         apply includes_app).
  cbn [Regex.seq fold_right] in H.
  cbn [Regex.run] in H.
  match type of H with
  | match ?t with _ => _ end = _ => destruct t as [| c0 s0]; [discriminate H |]
  end.
  destruct (Ascii.eqb "[" c0); [| discriminate H].
  destruct s0 as [| c1 s1]; [discriminate H |].
  cbn [Regex.any] in H.
  destruct s1 as [| c2 s2]; [discriminate H |].
  destruct (Regex.is_char "]" c2) eqn:E2; [| discriminate H].
  apply Ascii.eqb_eq in E2. subst c2.
  apply (includes_app "]]" (String c0 (String c1 ""))).
  apply star_greedy_head in H. destruct H as [H | (c3 & s3 & -> & E3)].
  - destruct s2 as [| c3 s3]; [discriminate H |].
    destruct (Ascii.eqb "]" c3) eqn:E3; [| discriminate H].
    apply Ascii.eqb_eq in E3. subst c3. reflexivity.
  - apply Ascii.eqb_eq in E3. subst c3. reflexivity.
Qed.

Lemma includes_tail w c s :
  includes w (String c s) = false -> includes w s = false.
Proof.
  cbn [includes].
  destruct (Regex.strip_prefix w (String c s)); [discriminate | auto].
Qed.

Lemma single_location_search s :
  includes "]]" s = false ->
  Regex.search_from LocationParser.single_location s = None.
Proof.
  induction s as [| c s IH]; intros H.
  - vm_compute. reflexivity.
  - cbn [Regex.search_from].
    destruct (Regex.match_here LocationParser.single_location (String c s))
      as [[rest caps] |] eqn:E.
    + apply single_location_needs_two_brackets in E. congruence.
    + apply IH. eapply includes_tail. exact H.
Qed.

(** X12.  The fallback pattern of [parseJsonLocations] for a bare
    location object never matches an ordinary coordinates array: it asks
    for two closing brackets in a row.  On a text without two consecutive
    closing brackets the records therefore come from a [locations] block
    alone, and when there is none the call throws 'No valid locations
    found in text'. *)
Theorem bare_location_object_is_not_read :
  forall (h : Host) (text : string) (c : Calls),
    includes "]]" text = false ->
    json_payload h text
      = LocationParser.first_parsed h [LocationParser.locations_block] text
    /\
    (Regex.search LocationParser.locations_block text = None ->
     LocationParser.parseJsonLocations h text c = (Throw NoValidLocations, c)).
Proof.
  intros h text c H.
  assert (Hsingle : Regex.search LocationParser.single_location text = None).
  { unfold Regex.search. rewrite (single_location_search _ H). reflexivity. }
  assert (Hpayload : json_payload h text
            = LocationParser.first_parsed h [LocationParser.locations_block] text).
  { unfold json_payload, LocationParser.patterns.
    cbn [LocationParser.first_parsed]. rewrite Hsingle. reflexivity. }
  split; [exact Hpayload |].
  intros Hblock. unfold LocationParser.parseJsonLocations.
  fold (json_payload h text). rewrite Hpayload.
  cbn [LocationParser.first_parsed]. rewrite Hblock. reflexivity.
Qed.

Lemma bare_location_object_is_not_read_witness :
  LocationParser.parseJsonLocations Demo.host
    (dq "{'name':'Eiffel Tower','coordinates':[48.8584,2.2945]}") start
  = (Throw NoValidLocations, start).
Proof.
  apply (bare_location_object_is_not_read Demo.host); vm_compute; reflexivity.
Defined.

Lemma length_app_string pre s :
  String.length (pre ++ s) = String.length pre + String.length s.
Proof. induction pre as [| c pre IH]; simpl; [reflexivity | rewrite IH; reflexivity]. Qed.

Lemma consumed_app pre :
  forall s, Regex.consumed (pre ++ s) s = pre.
Proof.
  intros s. unfold Regex.consumed. rewrite length_app_string.
  replace (String.length pre + String.length s - String.length s)
    with (String.length pre) by lia.
  induction pre as [| c pre IH]; simpl.
  - destruct s; reflexivity.
  - f_equal. exact IH.
Qed.

(** What a match of [LOCATION_PATTERN] captures: group 2 holds
    characters other than a dash and a line feed; group 3, when it took
    part in the match, holds at least one character, none of them a full
    stop or a line feed. *)
Lemma LOCATION_PATTERN_captures s rest caps :
  Regex.match_here LocationParser.LOCATION_PATTERN s = Some (rest, caps) ->
  (exists nm, Regex.capture 2 caps = Some nm /\ no_dash_no_break nm = true) /\
  (forall d, Regex.capture 3 caps = Some d ->
             d <> "" /\ one_sentence d = true).
Proof.
  unfold Regex.match_here, LocationParser.LOCATION_PATTERN. intros H.
  apply run_seq_cons in H. destruct H as (pre1 & s1 & caps1 & -> & H & Hc1).
  cbn [Regex.seq fold_right] in H.
  change (Regex.run (string * Regex.Caps)
            (Regex.Seq (Regex.Group 2 (Regex.PlusLazy (Regex.none_of ["-"%char; Regex.LF])))
               ?r) s1 caps1 ?k)
    with (Regex.run (string * Regex.Caps)
            (Regex.PlusLazy (Regex.none_of ["-"%char; Regex.LF])) s1 caps1
            (fun s' caps' =>
               Regex.run (string * Regex.Caps) r s'
                 ((2, Regex.consumed s1 s') :: caps') k)) in H.
  cbn [Regex.run] in H.
  destruct s1 as [| c s1]; [discriminate H |].
  destruct (Regex.none_of ["-"%char; Regex.LF] c) eqn:Hc; [| discriminate H].
  apply star_lazy_prefix in H. destruct H as (pre2 & s2 & -> & Hp2 & H).
  change (String c (pre2 ++ s2)) with (String c pre2 ++ s2) in H.
  rewrite consumed_app in H.
  assert (Hname : no_dash_no_break (String c pre2) = true).
  { unfold no_dash_no_break. simpl all_chars. rewrite Hc, Hp2. reflexivity. }
  assert (H3 : Regex.capture 3 ((2, String c pre2) :: caps1) = None).
  { simpl. apply (Hc1 3). reflexivity. }
  destruct (Regex.star_greedy _ is_space s2 _) as [y |] eqn:Ebranch.
  - inversion H; subst y; clear H.
    apply star_greedy_prefix in Ebranch. destruct Ebranch as (? & s3 & -> & _ & H).
    destruct s3 as [| c3 s3]; [discriminate H |].
    destruct (Ascii.eqb "-" c3); [| discriminate H].
    apply star_greedy_prefix in H. destruct H as (? & s4 & -> & _ & H).
    destruct s4 as [| c4 s4]; [discriminate H |].
    destruct (Regex.none_of [Regex.LF; "."%char] c4) eqn:Hc4; [| discriminate H].
    apply star_greedy_prefix in H. destruct H as (pre5 & s5 & -> & Hp5 & H).
    destruct s5 as [| c5 s5]; [discriminate H |].
    destruct (Regex.one_of ["."%char; Regex.LF] c5); [| discriminate H].
    inversion H; subst; clear H.
    change (String c4 (pre5 ++ String c5 rest))
      with (String c4 pre5 ++ String c5 rest).
    rewrite consumed_app. simpl Regex.capture. split.
    + exists (String c pre2). auto.
    + intros d Hd. inversion Hd; subst d. split; [discriminate |].
      unfold one_sentence. simpl all_chars. rewrite Hc4, Hp5. reflexivity.
  - destruct s2 as [| c2 s2]; [| discriminate H].
    inversion H; subst; clear H. split.
    + exists (String c pre2). simpl. auto.
    + intros d Hd. rewrite H3 in Hd. discriminate Hd.
Qed.

Lemma search_from_match_here r :
  forall s m rest,
    Regex.search_from r s = Some (m, rest) ->
    exists s0, Regex.match_here r s0 = Some (rest, Regex.m_groups m).
Proof.
  induction s as [| c s IH]; intros m rest H; cbn [Regex.search_from] in H.
  - destruct (Regex.match_here r "") as [[rest' caps] |] eqn:E; [| discriminate H].
    inversion H; subst. exists "". exact E.
  - destruct (Regex.match_here r (String c s)) as [[rest' caps] |] eqn:E.
    + inversion H; subst. exists (String c s). exact E.
    + apply IH. exact H.
Qed.

Lemma exec_loop_match_here r (Q : Regex.Match -> Prop) :
  (forall s rest m,
      Regex.match_here r s = Some (rest, Regex.m_groups m) -> Q m) ->
  forall fuel s, Forall Q (Regex.exec_loop fuel r s).
Proof.
  intros HQ. induction fuel as [| fuel IH]; intros s; simpl; [constructor |].
  destruct (Regex.search_from r s) as [[m rest] |] eqn:E; [| constructor].
  constructor; [| apply IH].
  apply search_from_match_here in E. destruct E as (s0 & E).
  eapply HQ. exact E.
Qed.

Lemma text_location_description h m count c l c' :
  LocationParser.text_location h m count c = (Ok (Some l), c') ->
  exists nm known,
    Regex.capture 2 (Regex.m_groups m) = Some nm /\
    getLocationDescription h (trim nm) = Some known /\
    description l
    = or_else (match Regex.capture 3 (Regex.m_groups m) with
               | Some d => JStr d
               | None => JUndefined
               end) known.
Proof.
  unfold LocationParser.text_location. intros H.
  destruct (Regex.capture 2 (Regex.m_groups m)) as [nm |] eqn:Hnm.
  - destruct (String.length nm <? 2)%nat eqn:Hlen.
    + apply ret_ok_inv in H. destruct H as [H _]. discriminate H.
    + steps_ok.
      match goal with
      | E : Some _ = Some l |- _ => inversion E; subst; clear E
      end.
      simpl. do 2 eexists. repeat (split; [eassumption || reflexivity |]).
      reflexivity.
  - apply ret_ok_inv in H. destruct H as [H _]. discriminate H.
Qed.

(** X13.  What [parseTextLocations] can read from a line.  The name of
    every location it returns holds neither a dash nor a line feed: a
    hyphenated name is cut at its first dash.  The description is either
    a piece of the text without a full stop and without a line feed (a
    description is cut at its first full stop), or what
    [getLocationDescription] answered for the name. *)
Theorem text_names_and_descriptions_are_cut :
  forall (h : Host) (text : string) (c : Calls),
    Forall (fun l =>
              (exists s, name l = JStr s /\ no_dash_no_break s = true) /\
              ((exists d, description l = JStr d /\ d <> "" /\
                          one_sentence d = true)
               \/
               (exists s, name l = JStr s /\
                          getLocationDescription h s = Some (description l))))
           (fst (LocationParser.parseTextLocations h text c)).
Proof.
  intros h text c. unfold LocationParser.parseTextLocations.
  apply scan_Forall_matches with
    (Q := fun m =>
            (exists nm, Regex.capture 2 (Regex.m_groups m) = Some nm /\
                        no_dash_no_break nm = true) /\
            (forall d, Regex.capture 3 (Regex.m_groups m) = Some d ->
                       d <> "" /\ one_sentence d = true));
    [| | constructor].
  - intros m count c0 l c' ((nm & Hnm & Hclean) & Hd) Hl.
    pose proof (text_location_inv h m count c0 l c' Hl)
      as (nm' & r1 & r2 & Hnm' & _ & Hname & _).
    pose proof (text_location_description h m count c0 l c' Hl)
      as (nm'' & known & Hnm'' & Hknown & Hdesc).
    rewrite Hnm in Hnm', Hnm''. inversion Hnm'; subst nm'.
    inversion Hnm''; subst nm''. split.
    + exists (trim nm). split; [exact Hname |].
      unfold no_dash_no_break. apply all_chars_trim. exact Hclean.
    + destruct (Regex.capture 3 (Regex.m_groups m)) as [d |] eqn:E3.
      * destruct (Hd d eq_refl) as [Hne Hone]. left. exists d.
        split; [| split; assumption].
        rewrite Hdesc. unfold or_else. simpl.
        destruct d; [congruence | reflexivity].
      * right. exists (trim nm). split; [exact Hname |].
        rewrite Hdesc. unfold or_else. simpl. exact Hknown.
  - unfold Regex.exec_all. apply exec_loop_match_here.
    intros s rest m Hm. eapply LOCATION_PATTERN_captures. exact Hm.
Qed.

(* ================================================================== *)
(** ** Further properties: sending a message (App.tsx) *)
(* ================================================================== *)

Lemma string_of_Z_inj a b : string_of_Z a = string_of_Z b -> a = b.
Proof.
  unfold string_of_Z. intros H. apply DecimalZ.to_int_inj.
  assert (E : Some (Z.to_int a) = Some (Z.to_int b)).
  { rewrite <- (NilEmpty.isi (Z.to_int a)), <- (NilEmpty.isi (Z.to_int b)).
    now rewrite H. }
  now inversion E.
Qed.

Lemma append_empty_r (s : string) : s ++ "" = s.
Proof. induction s as [| c s IH]; simpl; [reflexivity | now rewrite IH]. Qed.

Lemma join_empty_cons chunk rest :
  join "" (chunk :: rest) = chunk ++ join "" rest.
Proof.
  destruct rest as [| next rest]; simpl; [now rewrite append_empty_r | reflexivity].
Qed.

Lemma with_content_other botId text msg :
  App.Message.id msg <> botId -> App.with_content botId text msg = msg.
Proof.
  intros H. unfold App.with_content.
  destruct (String.eqb (App.Message.id msg) botId) eqn:E; [| reflexivity].
  apply String.eqb_eq in E. contradiction.
Qed.

Lemma with_content_others botId text ms :
  Forall (fun m => App.Message.id m <> botId) ms ->
  map (App.with_content botId text) ms = ms.
Proof.
  induction 1 as [| m ms Hm _ IH]; simpl; [reflexivity |].
  rewrite IH, (with_content_other _ _ _ Hm). reflexivity.
Qed.

Lemma with_content_exchange botId text old u s acc d :
  Forall (fun m => App.Message.id m <> botId) old ->
  App.Message.id u <> botId ->
  map (App.with_content botId text) (old ++ [u; App.Message.make botId acc s d])
  = (old ++ [u; App.Message.make botId text s d])%list.
Proof.
  intros Hold Hu. rewrite map_app, (with_content_others _ _ _ Hold). simpl.
  rewrite (with_content_other _ _ _ Hu). unfold App.with_content. simpl.
  rewrite String.eqb_refl. reflexivity.
Qed.

(** The loop changes the messages and the streaming message only. *)
Lemma receive_keeps botId stream :
  forall acc st,
    App.locations (App.receive botId stream acc st) = App.locations st /\
    App.selectedLocation (App.receive botId stream acc st) = App.selectedLocation st /\
    App.error (App.receive botId stream acc st) = App.error st /\
    App.requests (App.receive botId stream acc st) = App.requests st /\
    length (App.messages (App.receive botId stream acc st))
    = length (App.messages st).
Proof.
  induction stream as [| chunk rest IH]; intros acc st; simpl; [auto |].
  destruct (IH (acc ++ chunk)
              (App.setMessages (map (App.with_content botId (acc ++ chunk)))
                 (App.setCurrentStreamingMessage
                    (fun prev =>
                       match prev with
                       | Some m =>
                           Some (App.Message.make (App.Message.id m) (acc ++ chunk)
                                   (App.Message.sender m) (App.Message.timestamp m))
                       | None => None
                       end) st)))
    as (H1 & H2 & H3 & H4 & H5).
  rewrite H1, H2, H3, H4, H5. simpl. rewrite length_map. auto.
Qed.

(** After the loop the bot's message holds everything received. *)
Lemma receive_exchange botId stream :
  forall acc st old u s d,
    Forall (fun m => App.Message.id m <> botId) old ->
    App.Message.id u <> botId ->
    App.messages st = (old ++ [u; App.Message.make botId acc s d])%list ->
    App.messages (App.receive botId stream acc st)
    = (old ++ [u; App.Message.make botId (acc ++ join "" stream) s d])%list.
Proof.
  induction stream as [| chunk rest IH]; intros acc st old u s d Hold Hu Hst.
  - simpl. rewrite append_empty_r. exact Hst.
  - cbn [App.receive]. rewrite join_empty_cons, <- append_assoc.
    apply IH; [exact Hold | exact Hu |].
    simpl. rewrite Hst. apply with_content_exchange; assumption.
Qed.

(** X14.  Whatever the query is and whatever the response stream does,
    also when it throws, [handleSendMessage] returns with the two
    progress flags reset and no streaming message left; it adds exactly
    two messages, clears the selection, leaves the locations alone, and
    calls the model once, or not at all for a weather query. *)
Theorem handleSendMessage_always_settles :
  forall (h : Host) (validateQuery : string -> App.Validation)
         (getCurrentCity text : string) (stream : App.Stream)
         (st : App.State) (c : Calls),
    exists st',
      App.handleSendMessage h validateQuery getCurrentCity text stream st c
        = (Ok st', mkCalls (4 + clock_reads c) (random_draws c)) /\
      App.isLoading st' = false /\
      App.isStreaming st' = false /\
      length (App.messages st') = 2 + length (App.messages st) /\
      App.selectedLocation st' = None /\
      App.locations st' = App.locations st /\
      (if String.eqb (App.type (validateQuery text)) "weather"
       then App.requests st' = App.requests st /\
            App.currentStreamingMessage st' = App.currentStreamingMessage st
       else App.requests st'
            = (App.requests st ++ [App.claudeMessages (App.messages st) text])%list /\
            App.currentStreamingMessage st' = None).
Proof.
  intros h vq city text stream st c. unfold App.handleSendMessage.
  unfold bind, now. cbn [clock_reads random_draws].
  destruct (String.eqb (App.type (vq text)) "weather") eqn:Hw.
  - eexists. split; [reflexivity |]. cbn.
    rewrite !length_app. cbn. repeat split; lia.
  - eexists. split; [reflexivity |].
    match goal with
    | |- context [App.receive ?b ?s ?a ?x] =>
        destruct (receive_keeps b s a x) as (H1 & H2 & H3 & H4 & H5);
        set (received := App.receive b s a x) in *
    end.
    destruct (App.failure stream) as [f |]; cbn;
      rewrite ?length_map, ?H1, ?H2, ?H4, ?H5; cbn;
      rewrite !length_app; cbn; repeat split; lia.
Qed.

(** X15.  The reply shown is what was streamed.  For a query that is
    not about the weather, when the clock did not go backwards between
    the two identifiers and no earlier message carries the bot's
    identifier, [handleSendMessage] appends the user's message and the
    bot's and touches no other message; the bot's message ends up holding
    the chunks received, concatenated in order, or, when the stream
    throws, the apology with the error message, which is also what
    [error] is set to. *)
Theorem streamed_reply_is_the_concatenation :
  forall (h : Host) (validateQuery : string -> App.Validation)
         (getCurrentCity text : string) (stream : App.Stream)
         (st : App.State) (c : Calls),
    let t0 := Date_now h (clock_reads c) in
    let t1 := Date_now h (2 + clock_reads c) in
    App.type (validateQuery text) <> "weather" ->
    (t0 <= t1)%Z ->
    Forall (fun m => App.Message.id m <> string_of_Z (t1 + 1)) (App.messages st) ->
    exists st' c' d0 d1,
      App.handleSendMessage h validateQuery getCurrentCity text stream st c
        = (Ok st', c') /\
      App.messages st'
      = (App.messages st ++
         [App.Message.make (string_of_Z t0) text App.user d0;
          App.Message.make (string_of_Z (t1 + 1))
            (match App.failure stream with
             | None => join "" (App.chunks stream)
             | Some f => "I'm sorry, I encountered an error: " ++ App.errorMessage f
             end)
            App.bot d1])%list /\
      App.error st' = option_map App.errorMessage (App.failure stream).
Proof.
  intros h vq city text stream st c t0 t1 Hw Hclock Hold.
  apply String.eqb_neq in Hw.
  unfold App.handleSendMessage. rewrite Hw.
  unfold bind, now. cbn [clock_reads random_draws].
  fold t0. change (S (S (clock_reads c))) with (2 + clock_reads c). fold t1.
  do 4 eexists. split; [reflexivity |].
  assert (Huser : App.Message.id
                    (App.Message.make (string_of_Z t0) text App.user
                       (Date_now h (S (clock_reads c))))
                  <> string_of_Z (t1 + 1)).
  { simpl. intros E. apply string_of_Z_inj in E. lia. }
  match goal with
  | |- context [App.receive ?b ?s ?a ?x] =>
      pose proof (receive_exchange b s a x (App.messages st) _ App.bot
                    (Date_now h (S (S (S (clock_reads c))))) Hold Huser) as Hm;
      destruct (receive_keeps b s a x) as (_ & _ & He & _ & _);
      set (received := App.receive b s a x) in *
  end.
  cbn in Hm. specialize (Hm ltac:(rewrite <- app_assoc; reflexivity)).
  destruct (App.failure stream) as [f |]; cbn.
  - split; [| reflexivity]. rewrite Hm.
    apply with_content_exchange; assumption.
  - split; [exact Hm | rewrite He; reflexivity].
Qed.

Lemma streamed_reply_is_the_concatenation_witness :
  exists st' c' d0 d1,
    App.handleSendMessage Demo.host Chats.general "Paris" "Hi" Chats.greeting
      Chats.welcome start = (Ok st', c') /\
    App.messages st'
    = (App.messages Chats.welcome ++
       [App.Message.make "1700000000000" "Hi" App.user d0;
        App.Message.make "1700000000001" "Bonjour" App.bot d1])%list /\
    App.error st' = None.
Proof.
  apply (streamed_reply_is_the_concatenation Demo.host Chats.general "Paris" "Hi"
           Chats.greeting Chats.welcome start).
  - vm_compute. discriminate.
  - vm_compute. discriminate.
  - repeat constructor; vm_compute; discriminate.
Defined.

(* ================================================================== *)
(** ** Further properties: the streaming effect and the selection (App.tsx) *)
(* ================================================================== *)

(** What the [then] callback changes: nothing, or the city context and
    the weather location, both set to the same truthy value. *)
Lemma cityResolved_sets_a_city cityName st :
  App.messages (App.cityResolved cityName st) = App.messages st /\
  App.locations (App.cityResolved cityName st) = App.locations st /\
  App.selectedLocation (App.cityResolved cityName st) = App.selectedLocation st /\
  ((App.cityContext (App.cityResolved cityName st) = App.cityContext st /\
    App.currentWeatherLocation (App.cityResolved cityName st)
    = App.currentWeatherLocation st)
   \/
   (truthy cityName = true /\
    App.cityContext (App.cityResolved cityName st)
    = (App.cityContext st ++ [cityName])%list /\
    App.currentWeatherLocation (App.cityResolved cityName st) = cityName)).
Proof.
  unfold App.cityResolved. destruct (truthy cityName) eqn:E; cbn; auto 10.
Qed.

(** X16.  The effect that follows the streamed reply never blanks the
    map.  When the splitter returns, the effect does not throw, leaves
    messages and selection alone, and either leaves [locations] as it is
    or replaces it with the non-empty array
    [extractLocationsFromResponse] returned for the JSON part of the
    reply.  A reply in which a weather location is recognised changes
    nothing but [currentWeatherLocation], and the parser is not called.
    When the splitter throws, the effect throws with the state as it
    was: its call stands in no [try]. *)
Theorem streaming_never_empties_the_locations :
  forall (h : Host) (processStreamingMessage : string -> option App.StreamParts)
         (reverseGeocode : JsVal -> JsVal -> option JsVal)
         (st : App.State) (c : Calls),
    ((forall m,
         App.currentStreamingMessage st = Some m ->
         App.Message.content m <> "" ->
         processStreamingMessage (App.Message.content m) <> None) ->
     exists st' c',
       App.streamingEffect h processStreamingMessage reverseGeocode st c
         = (Ok st', c') /\
       App.messages st' = App.messages st /\
       App.selectedLocation st' = App.selectedLocation st /\
       (App.locations st' = App.locations st
        \/
        (App.locations st' <> [] /\
         exists m parts,
           App.currentStreamingMessage st = Some m /\
           processStreamingMessage (App.Message.content m) = Some parts /\
           LocationParser.extractLocationsFromResponse h
             (App.text_of (App.jsonContent parts)) c
           = (Ok (App.locations st'), c'))))
    /\
    (forall m parts,
        App.currentStreamingMessage st = Some m ->
        App.Message.content m <> "" ->
        processStreamingMessage (App.Message.content m) = Some parts ->
        App.present (App.weatherLocation parts) = true ->
        App.streamingEffect h processStreamingMessage reverseGeocode st c
          = (Ok (App.setCurrentWeatherLocation
                   (JStr (App.text_of (App.weatherLocation parts))) st), c) /\
        App.locations
          (App.setCurrentWeatherLocation
             (JStr (App.text_of (App.weatherLocation parts))) st)
        = App.locations st)
    /\
    (forall m,
        App.currentStreamingMessage st = Some m ->
        App.Message.content m <> "" ->
        processStreamingMessage (App.Message.content m) = None ->
        App.streamingEffect h processStreamingMessage reverseGeocode st c
          = (Throw CollaboratorError, c)).
Proof.
  intros h split rev st c. unfold App.streamingEffect.
  split; [| split].
  - intros Hreturns.
    destruct (App.currentStreamingMessage st) as [m |] eqn:Hm.
    2:{ exists st, c. repeat split; try reflexivity. left. reflexivity. }
    destruct (String.eqb (App.Message.content m) "") eqn:Hcontent.
    { exists st, c. repeat split; try reflexivity. left. reflexivity. }
    apply String.eqb_neq in Hcontent.
    destruct (split (App.Message.content m)) as [parts |] eqn:Hparts;
      [| exfalso; exact (Hreturns m eq_refl Hcontent Hparts)].
    cbn [or_throw]. erewrite bind_ok by reflexivity.
    destruct (App.present (App.weatherLocation parts)) eqn:Hweather.
    { eexists _, c. repeat split; try reflexivity. left. reflexivity. }
    destruct (App.present (App.jsonContent parts)) eqn:Hjson.
    2:{ exists st, c. repeat split; try reflexivity. left. reflexivity. }
    destruct (extractLocationsFromResponse_total h
                (App.text_of (App.jsonContent parts)) c)
      as (ls & c' & Hls).
    rewrite (bind_ok _ _ _ _ _ Hls).
    destruct ls as [| first rest].
    { exists st, c'. repeat split; try reflexivity. left. reflexivity. }
    eexists _, c'. split; [reflexivity |].
    match goal with
    | |- context [App.cityResolved ?v ?x] =>
        destruct (cityResolved_sets_a_city v x) as (H1 & H2 & H3 & _)
    end.
    rewrite H1, H2, H3. cbn. repeat split; try reflexivity.
    right. split; [discriminate |]. exists m, parts.
    split; [reflexivity |]. split; [exact Hparts | exact Hls].
  - intros m parts Hm Hcontent Hparts Hweather.
    rewrite Hm. apply String.eqb_neq in Hcontent. rewrite Hcontent.
    rewrite Hparts. cbn [or_throw]. erewrite bind_ok by reflexivity.
    rewrite Hweather. split; reflexivity.
  - intros m Hm Hcontent Hparts.
    rewrite Hm. apply String.eqb_neq in Hcontent. rewrite Hcontent.
    rewrite Hparts. reflexivity.
Qed.

Lemma streaming_never_empties_the_locations_witness :
  App.streamingEffect Demo.host Chats.sees_weather (fun _ _ => None)
    Chats.asking_weather start
  = (Ok (App.setCurrentWeatherLocation (JStr "Lyon") Chats.asking_weather),
     start)
  /\
  App.locations (App.setCurrentWeatherLocation (JStr "Lyon") Chats.asking_weather)
  = [Places.paris].
Proof.
  destruct (streaming_never_empties_the_locations Demo.host Chats.sees_weather
              (fun _ _ => None) Chats.asking_weather start) as (_ & Hweather & _).
  apply (Hweather (App.Message.make "2" "I should check the weather in Lyon"
                     App.bot 0)
                  (App.mkParts "" None (Some "Lyon"))).
  - reflexivity.
  - discriminate.
  - reflexivity.
  - reflexivity.
Defined.

(** X17.  Selecting a location always records the selection and leaves
    messages and locations alone.  The city context and the weather
    location are written together and only with a truthy name; when the
    reverse geocoding request fails, or its answer is [null], the
    selection is the only change. *)
Theorem selection_sets_only_a_named_city :
  forall (reverseGeocode : JsVal -> JsVal -> option JsVal)
         (location : Location) (st : App.State),
    let st' := App.handleLocationSelect reverseGeocode location st in
    let answer :=
      reverseGeocode (lat (position location)) (lng (position location)) in
    App.selectedLocation st' = Some location /\
    App.locations st' = App.locations st /\
    App.messages st' = App.messages st /\
    ((App.cityContext st' = App.cityContext st /\
      App.currentWeatherLocation st' = App.currentWeatherLocation st)
     \/
     (exists cityName,
         truthy cityName = true /\
         App.cityContext st' = (App.cityContext st ++ [cityName])%list /\
         App.currentWeatherLocation st' = cityName)) /\
    (answer = None \/ answer = Some JNull ->
     st' = App.setSelectedLocation (Some location) st).
Proof.
  intros rev location st st' answer. subst st'.
  unfold App.handleLocationSelect.
  match goal with
  | |- context [App.cityResolved ?v ?x] =>
      destruct (cityResolved_sets_a_city v x) as (H1 & H2 & H3 & H4)
  end.
  rewrite H1, H2, H3. cbn [App.selectedLocation App.locations App.messages
                           App.setSelectedLocation].
  repeat split.
  - destruct H4 as [[Ha Hb] | (Ht & Ha & Hb)].
    + left. rewrite Ha, Hb. split; reflexivity.
    + right. eexists. split; [exact Ht |]. rewrite Ha, Hb. split; reflexivity.
  - intros Hfail. unfold App.getCityFromCoordinates. fold answer.
    destruct Hfail as [-> | ->]; reflexivity.
Qed.

Lemma selection_sets_only_a_named_city_witness :
  App.handleLocationSelect (fun _ _ => None) Places.paris Chats.welcome
  = App.setSelectedLocation (Some Places.paris) Chats.welcome.
Proof.
  apply (selection_sets_only_a_named_city (fun _ _ => None) Places.paris
           Chats.welcome).
  left. reflexivity.
Defined.

(* ================================================================== *)
(** ** Further properties: delivering a batch (later revision of ChatMessage) *)
(* ================================================================== *)

(** The inner [try] is all or nothing. *)
Lemma processLocations_cases h json st c :
  exists st1 c1,
    ChatMessageLater.processLocations h json st c = (Ok st1, c1) /\
    (st1 = st \/
     exists first rest cityName,
       ChatMessage.filteredLocations h (chat_payload h json) c
         = (Ok (first :: rest), c1) /\
       ChatMessageLater.extractCityName first = Some cityName /\
       st1 = ChatMessageLater.deliver cityName (first :: rest) first st).
Proof.
  unfold ChatMessageLater.processLocations, try_catch.
  match goal with
  | |- context [match ?m c with _ => _ end] => destruct (m c) as [[st1 | e] c1] eqn:E
  end.
  2:{ exists st, c1. split; [reflexivity | left; reflexivity]. }
  exists st1, c1. split; [reflexivity |].
  apply bind_ok_inv in E. destruct E as (data & c2 & Hdata & E).
  apply or_throw_ok_inv in Hdata. destruct Hdata as [Hdata <-].
  apply bind_ok_inv in E. destruct E as (locs & c3 & Hlocs & E).
  apply or_throw_ok_inv in Hlocs. destruct Hlocs as [Hlocs <-].
  unfold chat_payload. rewrite Hdata, Hlocs.
  destruct locs as [| | b | n | s | items | fields];
    try (apply ret_ok_inv in E; destruct E as [<- _]; left; reflexivity).
  apply bind_ok_inv in E. destruct E as (batch & c4 & Hbatch & E).
  destruct batch as [| first rest].
  { apply ret_ok_inv in E. destruct E as [<- _]. left. reflexivity. }
  apply bind_ok_inv in E. destruct E as (cityName & c5 & Hcity & E).
  apply or_throw_ok_inv in Hcity. destruct Hcity as [Hcity <-].
  apply ret_ok_inv in E. destruct E as [<- <-].
  right. exists first, rest, cityName. auto.
Qed.

(** One run of the effect: it never throws, it leaves the content it
    ran on in [lastProcessedContentRef], and it either makes no call or
    delivers one batch. *)
Lemma effect_cases h split message isStreaming st c :
  exists st1 c1,
    ChatMessageLater.effect h split message isStreaming st c = (Ok st1, c1) /\
    ChatMessageLater.lastProcessedContentRef st1 = ChatMessageLater.content message /\
    ((ChatMessageLater.onLocationsUpdate st1 = ChatMessageLater.onLocationsUpdate st /\
      ChatMessageLater.cityContext st1 = ChatMessageLater.cityContext st /\
      ChatMessageLater.timers st1 = ChatMessageLater.timers st /\
      ChatMessageLater.locations st1 = ChatMessageLater.locations st /\
      ChatMessageLater.processedRef st1
      = ChatMessageLater.processedRef
          (ChatMessageLater.reset (ChatMessageLater.content message) st))
     \/
     (isStreaming = false /\
      ChatMessageLater.processedRef
        (ChatMessageLater.reset (ChatMessageLater.content message) st) = false /\
      exists parts first rest cityName,
        split (ChatMessageLater.content message) = Some parts /\
        App.present (App.weatherLocation parts) = false /\
        ChatMessage.filteredLocations h
          (chat_payload h (App.text_of (App.jsonContent parts))) c
          = (Ok (first :: rest), c1) /\
        ChatMessageLater.extractCityName first = Some cityName /\
        ChatMessageLater.onLocationsUpdate st1
        = (ChatMessageLater.onLocationsUpdate st ++ [first :: rest])%list /\
        ChatMessageLater.cityContext st1
        = (ChatMessageLater.cityContext st ++ [cityName])%list /\
        ChatMessageLater.timers st1 = (ChatMessageLater.timers st ++ [first])%list /\
        ChatMessageLater.locations st1 = first :: rest /\
        ChatMessageLater.processedRef st1 = true)).
Proof.
  unfold ChatMessageLater.effect.
  set (st0 := ChatMessageLater.reset (ChatMessageLater.content message) st).
  assert (Hlast : ChatMessageLater.lastProcessedContentRef st0
                  = ChatMessageLater.content message).
  { subst st0. unfold ChatMessageLater.reset.
    destruct (String.eqb (ChatMessageLater.content message)
                (ChatMessageLater.lastProcessedContentRef st)) eqn:E; cbn.
    - apply String.eqb_eq in E. auto.
    - reflexivity. }
  assert (Hcalls :
            ChatMessageLater.onLocationsUpdate st0 = ChatMessageLater.onLocationsUpdate st /\
            ChatMessageLater.cityContext st0 = ChatMessageLater.cityContext st /\
            ChatMessageLater.timers st0 = ChatMessageLater.timers st /\
            ChatMessageLater.locations st0 = ChatMessageLater.locations st).
  { subst st0. unfold ChatMessageLater.reset.
    destruct (negb _); cbn; auto. }
  destruct Hcalls as (Hu & Hc & Ht & Hl).
  destruct (String.eqb (ChatMessageLater.content message) "").
  { eexists _, c. split; [reflexivity |]. cbn. auto 10. }
  destruct (match ChatMessageLater.type message with
            | JStr t => String.eqb t "image"
            | _ => false
            end).
  { eexists _, c. split; [reflexivity |]. cbn. auto 10. }
  destruct (split (ChatMessageLater.content message)) as [parts |] eqn:Hparts.
  2:{ eexists _, c. split; [reflexivity |]. cbn. auto 10. }
  destruct (App.present (App.weatherLocation parts)) eqn:Hweather.
  { eexists _, c. split; [reflexivity |]. cbn. auto 10. }
  set (st2 := if negb (String.eqb (App.textContent parts) "")
              then ChatMessageLater.setDisplayContent (trim (App.textContent parts)) st0
              else st0).
  assert (H2 :
            ChatMessageLater.onLocationsUpdate st2 = ChatMessageLater.onLocationsUpdate st /\
            ChatMessageLater.cityContext st2 = ChatMessageLater.cityContext st /\
            ChatMessageLater.timers st2 = ChatMessageLater.timers st /\
            ChatMessageLater.locations st2 = ChatMessageLater.locations st /\
            ChatMessageLater.processedRef st2 = ChatMessageLater.processedRef st0 /\
            ChatMessageLater.lastProcessedContentRef st2
            = ChatMessageLater.content message).
  { subst st2. destruct (negb _); cbn; auto 10. }
  destruct H2 as (Hu2 & Hc2 & Ht2 & Hl2 & Hp2 & Hlast2).
  destruct (App.present (App.jsonContent parts) && negb isStreaming
            && negb (ChatMessageLater.processedRef st2)) eqn:Hguard.
  2:{ exists st2, c. split; [reflexivity |]. split; [exact Hlast2 |]. left. auto 10. }
  apply andb_prop in Hguard. destruct Hguard as [Hguard Hproc].
  apply andb_prop in Hguard. destruct Hguard as [Hjson Hstream].
  apply negb_true_iff in Hproc, Hstream.
  destruct (processLocations_cases h (App.text_of (App.jsonContent parts)) st2 c)
    as (st1 & c1 & Hrun & [-> | (first & rest & cityName & Hbatch & Hcity & ->)]).
  - exists st2, c1. split; [exact Hrun |]. split; [exact Hlast2 |]. left. auto 10.
  - eexists _, c1. split; [exact Hrun |]. cbn. split; [exact Hlast2 |].
    right. split; [exact Hstream |]. split; [congruence |].
    exists parts, first, rest, cityName.
    rewrite Hu2, Hc2, Ht2. auto 12.
Qed.

(** Once a batch was delivered for the content, further runs on that
    content make no call. *)
Lemma renders_after_delivery h split message flags :
  forall st c,
    ChatMessageLater.lastProcessedContentRef st = ChatMessageLater.content message ->
    ChatMessageLater.processedRef st = true ->
    exists st' c',
      ChatMessageLater.renders h split message flags st c = (Ok st', c') /\
      ChatMessageLater.onLocationsUpdate st' = ChatMessageLater.onLocationsUpdate st /\
      ChatMessageLater.cityContext st' = ChatMessageLater.cityContext st /\
      ChatMessageLater.timers st' = ChatMessageLater.timers st /\
      ChatMessageLater.locations st' = ChatMessageLater.locations st.
Proof.
  induction flags as [| isStreaming flags IH]; intros st c Hlast Hproc.
  - exists st, c. auto.
  - cbn [ChatMessageLater.renders].
    destruct (effect_cases h split message isStreaming st c)
      as (st1 & c1 & Hrun & Hlast1 & Hcases).
    rewrite (bind_ok _ _ _ _ _ Hrun).
    assert (Hreset : ChatMessageLater.reset (ChatMessageLater.content message) st = st).
    { unfold ChatMessageLater.reset. rewrite Hlast, String.eqb_refl. reflexivity. }
    rewrite Hreset in Hcases.
    destruct Hcases as [(Hu & Hc & Ht & Hl & Hp) | (_ & Hfalse & _)];
      [| congruence].
    destruct (IH st1 c1 Hlast1 ltac:(congruence))
      as (st' & c' & Hrest & Hu' & Hc' & Ht' & Hl').
    exists st', c'. split; [exact Hrest |]. repeat split; congruence.
Qed.

(** X18.  However often the effect runs again on the same message
    (renders with another [isStreaming], another callback), it never
    throws and it hands at most one batch to [onLocationsUpdate]: either
    nothing was delivered, or exactly one non-empty batch was, together
    with one call of [cityContext.setCurrentCity] and one timer that
    selects the first location of the batch. *)
Theorem one_delivery_per_message :
  forall (h : Host) (processStreamingMessage : string -> option App.StreamParts)
         (message : ChatMessageLater.Message) (flags : list bool)
         (st : ChatMessageLater.State) (c : Calls),
    exists st' c',
      ChatMessageLater.renders h processStreamingMessage message flags st c
        = (Ok st', c') /\
      ((ChatMessageLater.onLocationsUpdate st' = ChatMessageLater.onLocationsUpdate st /\
        ChatMessageLater.cityContext st' = ChatMessageLater.cityContext st /\
        ChatMessageLater.timers st' = ChatMessageLater.timers st)
       \/
       (exists first rest cityName,
           ChatMessageLater.onLocationsUpdate st'
           = (ChatMessageLater.onLocationsUpdate st ++ [first :: rest])%list /\
           ChatMessageLater.cityContext st'
           = (ChatMessageLater.cityContext st ++ [cityName])%list /\
           ChatMessageLater.timers st'
           = (ChatMessageLater.timers st ++ [first])%list /\
           ChatMessageLater.locations st' = first :: rest)).
Proof.
  intros h split message flags.
  induction flags as [| isStreaming flags IH]; intros st c.
  - exists st, c. split; [reflexivity | left; auto].
  - cbn [ChatMessageLater.renders].
    destruct (effect_cases h split message isStreaming st c)
      as (st1 & c1 & Hrun & Hlast1 & Hcases).
    rewrite (bind_ok _ _ _ _ _ Hrun).
    destruct Hcases as [(Hu & Hc & Ht & Hl & Hp) | Hdelivered].
    + destruct (IH st1 c1) as (st' & c' & Hrest & Hcalls).
      exists st', c'. split; [exact Hrest |].
      rewrite <- Hu, <- Hc, <- Ht. exact Hcalls.
    + destruct Hdelivered
        as (_ & _ & parts & first & rest & cityName & _ & _ & _ & _
            & Hu & Hc & Ht & Hl & Hp).
      destruct (renders_after_delivery h split message flags st1 c1 Hlast1 Hp)
        as (st' & c' & Hrest & Hu' & Hc' & Ht' & Hl').
      exists st', c'. split; [exact Hrest |]. right.
      exists first, rest, cityName. repeat split; congruence.
Qed.

(** X19.  One run of the effect delivers a batch whole or not at all.
    Either it makes no call and leaves [locations] alone, or the message
    is not streaming any more, no weather location was recognised, the
    filter-then-map over [data.locations] built a non-empty array,
    [extractCityName] accepted its first location, and that same array
    went to [onLocationsUpdate] and to [locations], its first location to
    the timer and the city to [cityContext.setCurrentCity]. *)
Theorem delivery_is_all_or_nothing :
  forall (h : Host) (processStreamingMessage : string -> option App.StreamParts)
         (message : ChatMessageLater.Message) (isStreaming : bool)
         (st : ChatMessageLater.State) (c : Calls),
    exists st1 c1,
      ChatMessageLater.effect h processStreamingMessage message isStreaming st c
        = (Ok st1, c1) /\
      ((ChatMessageLater.onLocationsUpdate st1 = ChatMessageLater.onLocationsUpdate st /\
        ChatMessageLater.cityContext st1 = ChatMessageLater.cityContext st /\
        ChatMessageLater.timers st1 = ChatMessageLater.timers st /\
        ChatMessageLater.locations st1 = ChatMessageLater.locations st)
       \/
       (isStreaming = false /\
        exists parts first rest cityName,
          processStreamingMessage (ChatMessageLater.content message) = Some parts /\
          App.present (App.weatherLocation parts) = false /\
          ChatMessage.filteredLocations h
            (chat_payload h (App.text_of (App.jsonContent parts))) c
            = (Ok (first :: rest), c1) /\
          ChatMessageLater.extractCityName first = Some cityName /\
          ChatMessageLater.onLocationsUpdate st1
          = (ChatMessageLater.onLocationsUpdate st ++ [first :: rest])%list /\
          ChatMessageLater.cityContext st1
          = (ChatMessageLater.cityContext st ++ [cityName])%list /\
          ChatMessageLater.timers st1 = (ChatMessageLater.timers st ++ [first])%list /\
          ChatMessageLater.locations st1 = first :: rest)).
Proof.
  intros h split message isStreaming st c.
  destruct (effect_cases h split message isStreaming st c)
    as (st1 & c1 & Hrun & _ & Hcases).
  exists st1, c1. split; [exact Hrun |].
  destruct Hcases as [(Hu & Hc & Ht & Hl & _) | (Hs & _ & Hd)].
  - left. auto.
  - right. split; [exact Hs |].
    destruct Hd as (parts & first & rest & cityName & H1 & H2 & H3 & H4 & H5
                    & H6 & H7 & H8 & _).
    exists parts, first, rest, cityName. auto 10.
Qed.

(* ================================================================== *)
(** ** Further properties: the text shown (ChatMessage.tsx) *)
(* ================================================================== *)

(** A greedy star whose continuation accepts everything takes all it
    can. *)
Lemma star_greedy_takes_all R R' p (f : string -> R') (g : R' -> R) s :
  Regex.star_greedy R p s (fun s' => Some (g (f s'))) = Some (g (f (skip p s))).
Proof.
  induction s as [| c s IH]; simpl; [reflexivity |].
  destruct (p c); [rewrite IH |]; reflexivity.
Qed.

Lemma match_here_spaces s :
  Regex.match_here (Regex.Plus is_space) s
  = match s with
    | String c s' => if is_space c then Some (skip is_space s', []) else None
    | EmptyString => None
    end.
Proof.
  unfold Regex.match_here. destruct s as [| c s']; simpl; [reflexivity |].
  destruct (is_space c); [| reflexivity].
  apply (star_greedy_takes_all _ _ is_space (fun s' => (s', @nil (nat * string)))
           (fun x => x)).
Qed.

Lemma skip_length p s : String.length (skip p s) <= String.length s.
Proof.
  induction s as [| c s IH]; simpl; [lia |].
  destruct (p c); simpl; lia.
Qed.

Lemma skip_spaces_no_leading s : starts_with_space (skip is_space s) = false.
Proof.
  induction s as [| c s IH]; simpl; [reflexivity |].
  destruct (is_space c) eqn:E; [exact IH | simpl; exact E].
Qed.

(** What the second [replace] of line 50 leaves: single spaces. *)
Lemma collapse_spaces_normal :
  forall fuel s,
    String.length s < fuel ->
    let out := RegexOps.replace_loop fuel (Regex.Plus is_space) " " s in
    plain_spaces out = true /\
    no_double_space out = true /\
    (starts_with_space s = false -> starts_with_space out = false).
Proof.
  induction fuel as [| fuel IH]; intros s Hlen; [lia |].
  cbn [RegexOps.replace_loop]. rewrite match_here_spaces.
  destruct s as [| c s']; [cbn; auto |].
  simpl in Hlen.
  destruct (is_space c) eqn:Hc.
  - pose proof (skip_length is_space s') as Hskip.
    destruct (IH (skip is_space s') ltac:(lia)) as (Ha & Hb & Hc').
    specialize (Hc' (skip_spaces_no_leading s')).
    cbn zeta in *. cbn [append]. unfold plain_spaces in *. cbn [all_chars no_double_space].
    rewrite Ha, Hb, Hc'. cbn. repeat split. intros H. cbn in H. congruence.
  - destruct (IH s' ltac:(lia)) as (Ha & Hb & Hc').
    cbn zeta in *. unfold plain_spaces in *. cbn [all_chars no_double_space starts_with_space].
    rewrite Ha, Hb, Hc. cbn. auto.
Qed.

Lemma no_double_space_trimStart s :
  no_double_space s = true -> no_double_space (trimStart s) = true.
Proof.
  induction s as [| c s IH]; simpl; [auto |].
  intros H. apply andb_prop in H. destruct H as [H1 H2].
  destruct (is_space c) eqn:E; [apply IH; exact H2 |].
  simpl. rewrite E, H2. reflexivity.
Qed.

Lemma trimEnd_head s :
  starts_with_space (trimEnd s) = true -> starts_with_space s = true.
Proof.
  destruct s as [| c s]; cbn [trimEnd starts_with_space]; [auto |].
  destruct (trimEnd s).
  - destruct (is_space c) eqn:E; cbn [starts_with_space]; [discriminate |].
    rewrite E. auto.
  - cbn [starts_with_space]. auto.
Qed.

Lemma no_double_space_trimEnd s :
  no_double_space s = true -> no_double_space (trimEnd s) = true.
Proof.
  induction s as [| c s IH]; [auto |].
  cbn [no_double_space]. intros H. apply andb_prop in H. destruct H as [H1 H2].
  specialize (IH H2). cbn [trimEnd].
  destruct (trimEnd s) as [| d t] eqn:E.
  - destruct (is_space c) eqn:Hc; [reflexivity |]. simpl. rewrite Hc. reflexivity.
  - change (no_double_space (String c (String d t)))
      with (negb (is_space c && starts_with_space (String d t))
            && no_double_space (String d t)).
    rewrite IH.
    destruct (is_space c) eqn:Hc; [| reflexivity].
    destruct (starts_with_space (String d t)) eqn:Hd; [| reflexivity].
    rewrite <- E in Hd. apply trimEnd_head in Hd. rewrite Hd in H1.
    discriminate H1.
Qed.

(** X20.  What the message bubble shows.  Whatever the splitter
    returns, the text handed to [setDisplayContent] holds no white space
    but single space characters (every line feed and tab of the reply
    has become a space, so the reply is shown as one paragraph), it has
    none at either end, and while the message is streaming it is never
    empty. *)
Theorem displayed_text_is_one_paragraph :
  forall (processStreamingMessage : string -> App.StreamParts)
         (content : string) (isStreaming : bool),
    let shown :=
      ChatMessageText.displayContent processStreamingMessage content isStreaming in
    plain_spaces shown = true /\
    no_double_space shown = true /\
    trimmed shown /\
    (isStreaming = true -> shown <> "").
Proof.
  intros split content isStreaming shown. subst shown.
  unfold ChatMessageText.displayContent.
  assert (Hfallback :
            let shown := if isStreaming then "Thinking..." else "" in
            plain_spaces shown = true /\ no_double_space shown = true /\
            trimmed shown /\ (isStreaming = true -> shown <> "")).
  { destruct isStreaming; cbn; repeat split; try reflexivity; discriminate. }
  destruct (String.eqb content ""); [exact Hfallback |].
  set (text := ChatMessageText.cleaned (App.textContent (split content))).
  destruct (String.eqb text "") eqn:Hempty; cbn [negb]; [exact Hfallback |].
  apply String.eqb_neq in Hempty.
  subst text. unfold ChatMessageText.cleaned in *.
  set (u := ChatMessageText.remove_urls _ None _) in *.
  destruct (collapse_spaces_normal (S (String.length u)) u ltac:(lia))
    as (Ha & Hb & _).
  fold (RegexOps.replace_all (Regex.Plus is_space) " " u) in Ha, Hb.
  repeat split.
  - unfold plain_spaces in *. apply all_chars_trim. exact Ha.
  - unfold trim. apply no_double_space_trimEnd, no_double_space_trimStart.
    exact Hb.
  - apply trim_trimmed.
  - apply trim_trimmed.
  - intros _. exact Hempty.
Qed.

(* ================================================================== *)
(** ** Further properties: the city of a message (ChatMessage.tsx) *)
(* ================================================================== *)

Lemma looking_at_captures s rest caps :
  Regex.match_here ChatMessageText.looking_at s = Some (rest, caps) ->
  exists city,
    Regex.capture 1 caps = Some city /\
    all_chars (Regex.none_of [","%char]) city = true.
Proof.
  unfold Regex.match_here, ChatMessageText.looking_at. intros H.
  apply run_seq_cons in H. destruct H as (pre1 & s1 & caps1 & -> & H & _).
  cbn [Regex.seq fold_right Regex.run] in H.
  destruct s1 as [| c s1]; [discriminate H |].
  destruct (Regex.none_of [","%char] c) eqn:Hc; [| discriminate H].
  apply star_greedy_prefix in H. destruct H as (pre & s2 & -> & Hpre & H).
  inversion H; subst; clear H.
  change (String c (pre ++ rest)) with (String c pre ++ rest).
  rewrite consumed_app. exists (String c pre). split.
  - simpl. reflexivity.
  - simpl. rewrite Hc, Hpre. reflexivity.
Qed.

(** X21.  [getCityFromMessage] never throws: a match always comes with
    its group.  The city it returns holds no comma and no white space at
    either end; it is empty when the message does not hold the words
    looking at. *)
Theorem city_of_a_message_has_no_comma :
  forall content : string,
    exists city,
      ChatMessageText.getCityFromMessage content = Some city /\
      all_chars (Regex.none_of [","%char]) city = true /\
      trimmed city /\
      (Regex.search ChatMessageText.looking_at content = None -> city = "").
Proof.
  intros content. unfold ChatMessageText.getCityFromMessage, Regex.search.
  destruct (Regex.search_from ChatMessageText.looking_at content)
    as [[m rest] |] eqn:E.
  - apply search_from_match_here in E. destruct E as (s0 & E).
    apply looking_at_captures in E. destruct E as (city & -> & Hcity).
    exists (trim city). split; [reflexivity |].
    split; [apply all_chars_trim; exact Hcity |].
    split; [apply trim_trimmed | discriminate].
  - exists "". repeat split; auto.
Qed.

Lemma ci_matches R w :
  forall marker t caps (k : string -> Regex.Caps -> option R),
    lowercase marker = lowercase w ->
    Regex.run R (RegexOps.ci w) (marker ++ t) caps k = k t caps.
Proof.
  induction w as [| c w IH]; intros marker t caps k H.
  - destruct marker; [reflexivity | discriminate H].
  - destruct marker as [| d marker]; [discriminate H |].
    simpl in H. inversion H as [[Hd Hrest]].
    cbn [RegexOps.ci Regex.run append].
    unfold RegexOps.same_letter. rewrite Hd, Ascii.eqb_refl.
    apply IH. exact Hrest.
Qed.

Lemma skip_all p body rest :
  all_chars p body = true ->
  (match rest with String c _ => p c | EmptyString => false end) = false ->
  skip p (body ++ rest) = rest.
Proof.
  intros Hbody Hrest. induction body as [| b body IH]; simpl.
  - destruct rest as [| c rest]; [reflexivity |]. simpl. rewrite Hrest. reflexivity.
  - simpl in Hbody. apply andb_prop in Hbody. destruct Hbody as [Hb Hbody].
    rewrite Hb. apply IH. exact Hbody.
Qed.

Lemma looking_at_not_here c s :
  RegexOps.same_letter "l" c = false ->
  Regex.match_here ChatMessageText.looking_at (String c s) = None.
Proof.
  intros H. unfold Regex.match_here, ChatMessageText.looking_at.
  cbn [Regex.seq fold_right Regex.run RegexOps.ci]. rewrite H. reflexivity.
Qed.

(** X22.  The city runs to the next comma, not to the end of the
    sentence.  When the words looking at (in any mix of capitals) first
    occur after a text without the letter l, and are followed by
    characters other than a comma up to a comma or to the end of the
    message, [getCityFromMessage] returns all of those characters,
    trimmed: full stops and line feeds included. *)
Theorem city_runs_to_the_next_comma :
  forall (before marker body rest : string),
    all_chars (fun c => negb (RegexOps.same_letter "l" c)) before = true ->
    lowercase marker = "looking at " ->
    body <> "" ->
    all_chars (Regex.none_of [","%char]) body = true ->
    rest = "" \/ (exists rest', rest = String "," rest') ->
    ChatMessageText.getCityFromMessage (before ++ marker ++ body ++ rest)
    = Some (trim body).
Proof.
  intros before marker body rest Hbefore Hmarker Hne Hbody Hrest.
  assert (Hhere :
            Regex.match_here ChatMessageText.looking_at (marker ++ body ++ rest)
            = Some (rest, [(1, body)])).
  { unfold Regex.match_here, ChatMessageText.looking_at.
    cbn [Regex.seq fold_right].
    change (Regex.run (string * Regex.Caps)
              (Regex.Seq (RegexOps.ci "looking at ") ?r) ?s ?caps ?k)
      with (Regex.run (string * Regex.Caps) (RegexOps.ci "looking at ") s caps
              (fun s' caps' => Regex.run (string * Regex.Caps) r s' caps' k)).
    rewrite ci_matches by exact Hmarker.
    destruct body as [| b body]; [congruence |].
    simpl in Hbody. apply andb_prop in Hbody. destruct Hbody as [Hb Hbody].
    cbn [Regex.run append]. rewrite Hb.
    rewrite (star_greedy_takes_all _ _ _
               (fun s'' => (s'', [(1, Regex.consumed (String b (body ++ rest)) s'')]))
               (fun x => x)).
    rewrite skip_all; [| exact Hbody |].
    - change (String b (body ++ rest)) with (String b body ++ rest).
      rewrite consumed_app. reflexivity.
    - destruct Hrest as [-> | [rest' ->]]; reflexivity. }
  assert (Hsearch :
            Regex.search_from ChatMessageText.looking_at
              (before ++ marker ++ body ++ rest)
            = Some (Regex.mkMatch
                      (Regex.consumed (marker ++ body ++ rest) rest) [(1, body)],
                    rest)).
  { induction before as [| c before IH].
    - cbn [append]. destruct (marker ++ body ++ rest) eqn:E;
        cbn [Regex.search_from]; rewrite Hhere; reflexivity.
    - simpl in Hbefore. apply andb_prop in Hbefore. destruct Hbefore as [Hc Hbefore].
      apply negb_true_iff in Hc.
      cbn [append Regex.search_from]. rewrite (looking_at_not_here _ _ Hc).
      apply IH. exact Hbefore. }
  unfold ChatMessageText.getCityFromMessage, Regex.search.
  rewrite Hsearch. reflexivity.
Qed.

Lemma city_runs_to_the_next_comma_witness :
  ChatMessageText.getCityFromMessage
    "I am now Looking At Paris. It is nice, is it not?"
  = Some "Paris. It is nice".
Proof.
  apply (city_runs_to_the_next_comma "I am now " "Looking At "
           "Paris. It is nice" ", is it not?").
  - reflexivity.
  - reflexivity.
  - discriminate.
  - reflexivity.
  - right. eexists. reflexivity.
Defined.

(* ================================================================== *)
(** ** Further properties: the chat endpoint (api/chat.ts) *)
(* ================================================================== *)

(** The loop writes one event per delta and changes nothing else;
    headers count as sent once a delta was written. *)
Lemma forward_writes stringify stream :
  forall res,
    ChatApi.forward stringify stream res
    = ChatApi.mkResponse (ChatApi.headers res) (ChatApi.statusCode res)
        (ChatApi.written res ++ delta_events stringify stream)%list
        (ChatApi.jsonBody res) (ChatApi.ended res)
        (ChatApi.headersSent res || existsb is_delta stream).
Proof.
  induction stream as [| chunk rest IH]; intros [hs code ws jb e sent].
  - cbn. rewrite app_nil_r, orb_false_r. reflexivity.
  - cbn [ChatApi.forward].
    change (String.eqb (ChatApi.type chunk) "content_block_delta")
      with (is_delta chunk).
    rewrite IH. unfold delta_events. cbn [filter existsb].
    destruct (is_delta chunk).
    + cbn [ChatApi.write ChatApi.headers ChatApi.statusCode ChatApi.written
           ChatApi.jsonBody ChatApi.ended ChatApi.headersSent map orb].
      rewrite <- app_assoc, orb_true_r. reflexivity.
    + reflexivity.
Qed.

(** The [catch] always ends the response, and either answers with a
    JSON object without writing, or closes the stream with [DONE]. *)
Lemma failed_ends stringify development error res :
  let res' := ChatApi.failed stringify development error res in
  ChatApi.ended res' = true /\
  ChatApi.headers res' = ChatApi.headers res /\
  (if ChatApi.headersSent res
   then ChatApi.written res'
        = (ChatApi.written res ++
           [ChatApi.event (stringify (JObj [("error", JStr "Stream error occurred")]));
            ChatApi.DONE])%list /\
        ChatApi.statusCode res' = ChatApi.statusCode res /\
        ChatApi.jsonBody res' = ChatApi.jsonBody res
   else ChatApi.written res' = ChatApi.written res /\
        ChatApi.jsonBody res' <> None /\
        400 <= ChatApi.statusCode res').
Proof.
  unfold ChatApi.failed. destruct (ChatApi.headersSent res); cbn.
  - rewrite <- app_assoc. auto.
  - destruct error as [msg |]; [| cbn; repeat split; [discriminate | lia]].
    destruct (includes "401" msg); [cbn; repeat split; [discriminate | lia] |].
    destruct (includes "429" msg); [cbn; repeat split; [discriminate | lia] |].
    destruct (includes "413" msg); cbn; repeat split; (discriminate || lia).
Qed.


Lemma no_delta_no_event stringify stream :
  existsb is_delta stream = false -> delta_events stringify stream = [].
Proof.
  unfold delta_events. induction stream as [| chunk rest IH]; [reflexivity |].
  cbn [existsb filter]. intros H. apply orb_false_elim in H.
  destruct H as [-> H]. apply IH. exact H.
Qed.

Lemma failed_before_sending stringify development error res :
  ChatApi.headersSent res = false ->
  ChatApi.written (ChatApi.failed stringify development error res)
  = ChatApi.written res.
Proof.
  intros H. pose proof (failed_ends stringify development error res) as Hf.
  cbn zeta in Hf. rewrite H in Hf. apply Hf.
Qed.

(** A request either is a POST with a [messages] array, or gets an
    answer without a write. *)
Lemma model_gate_cases stringify dmsg dev create req :
  (ChatApi.method req = "POST" /\
   exists items, get (ChatApi.body req) "messages" = Some (JArr items))
  \/
  ChatApi.written
    (ChatApi.response
       (ChatApi.handler stringify dmsg dev create req ChatApi.fresh)) = [].
Proof.
  unfold ChatApi.handler.
  destruct (String.eqb (ChatApi.method req) "OPTIONS"); [right; reflexivity |].
  destruct (String.eqb (ChatApi.method req) "POST") eqn:Hpost; cbn [negb];
    [| right; reflexivity].
  apply String.eqb_eq in Hpost.
  destruct (get (ChatApi.body req) "messages") as [messages |] eqn:Hmessages.
  2:{ right. cbn [ChatApi.response].
      match goal with
      | |- context [ChatApi.failed ?s ?d ?e ?r] =>
          pose proof (failed_ends s d e r) as Hf; cbn in Hf;
          destruct Hf as (_ & _ & Hw & _)
      end.
      exact Hw. }
  destruct (negb (truthy messages) || negb (isArray messages)) eqn:Hbad;
    [right; reflexivity |].
  apply orb_false_elim in Hbad. destruct Hbad as [_ Harr].
  apply negb_false_iff in Harr.
  destruct messages as [| | b | n | s | items | fields]; try discriminate Harr.
  left. split; [exact Hpost |]. exists items. reflexivity.
Qed.

(** What the handler leaves for a POST with a [messages] array. *)
Lemma handler_streams stringify dmsg dev create req items :
  ChatApi.method req = "POST" ->
  get (ChatApi.body req) "messages" = Some (JArr items) ->
  let stream := create (JArr items) in
  let opened :=
    ChatApi.forward stringify (ChatApi.chunks stream)
      (ChatApi.setHeader "Connection" "keep-alive"
         (ChatApi.setHeader "Cache-Control" "no-cache"
            (ChatApi.setHeader "Content-Type" "text/event-stream"
               (ChatApi.setHeader "Access-Control-Allow-Headers" "Content-Type"
                  (ChatApi.setHeader "Access-Control-Allow-Methods" "GET,POST,OPTIONS"
                     (ChatApi.setHeader "Access-Control-Allow-Origin" "*"
                        (ChatApi.setHeader "Access-Control-Allow-Credentials" "true"
                           ChatApi.fresh))))))) in
  ChatApi.handler stringify dmsg dev create req ChatApi.fresh
  = ChatApi.mkHandled
      (match ChatApi.failure stream with
       | None => ChatApi.finish (ChatApi.write ChatApi.DONE opened)
       | Some error => ChatApi.failed stringify dev error opened
       end)
      [JArr items].
Proof.
  intros Hpost Hmessages. unfold ChatApi.handler.
  rewrite Hpost, Hmessages. reflexivity.
Qed.

(** X24.  The handler answers in one of two ways and never mixes them.
    Either it writes nothing (a JSON answer, or the empty answer to
    OPTIONS); or it has set the event-stream headers, kept the status at
    200, sent no JSON, and the last thing it wrote before ending the
    response is the event [DONE]: a stream that started is always
    closed, also when the model fails in the middle of it. *)
Theorem started_stream_is_always_closed :
  forall (JSON_stringify : JsVal -> string) (destructuring_message : string)
         (development : bool) (create : JsVal -> ChatApi.Upstream)
         (req : ChatApi.Request),
    let res :=
      ChatApi.response
        (ChatApi.handler JSON_stringify destructuring_message development
           create req ChatApi.fresh) in
    ChatApi.written res = []
    \/
    (exists events,
        ChatApi.written res = (events ++ [ChatApi.DONE])%list /\
        ChatApi.ended res = true /\
        ChatApi.statusCode res = 200 /\
        ChatApi.jsonBody res = None /\
        In ("Content-Type", "text/event-stream") (ChatApi.headers res)).
Proof.
  intros stringify dmsg dev create req res.
  destruct (model_gate_cases stringify dmsg dev create req)
    as [(Hpost & items & Hmessages) | Hnone].
  2:{ left. exact Hnone. }
  subst res. rewrite (handler_streams _ _ _ _ _ _ Hpost Hmessages).
  cbn [ChatApi.response]. rewrite forward_writes.
  set (events := delta_events stringify (ChatApi.chunks (create (JArr items)))).
  destruct (existsb is_delta (ChatApi.chunks (create (JArr items)))) eqn:Hd.
  - right.
    destruct (ChatApi.failure (create (JArr items))) as [error |].
    + exists (events ++
              [ChatApi.event
                 (stringify (JObj [("error", JStr "Stream error occurred")]))])%list.
      unfold ChatApi.failed. cbn. rewrite <- app_assoc. auto 10.
    + exists events. cbn. auto 10.
  - destruct (ChatApi.failure (create (JArr items))) as [error |].
    + left. rewrite failed_before_sending by reflexivity. cbn.
      apply no_delta_no_event. exact Hd.
    + right. exists events. cbn. auto 10.
Qed.

(** X25.  For a POST with a [messages] array, the handler forwards the
    text of every [content_block_delta] chunk as one event, in the order
    of the stream, and drops every other chunk.  When the stream ends,
    [DONE] follows the events.  When the model fails after at least one
    event, an error event and [DONE] follow them and the status stays
    200; when it fails before any event, nothing is written and the
    answer is a JSON object with an error status. *)
Theorem deltas_are_forwarded_in_order :
  forall (JSON_stringify : JsVal -> string) (destructuring_message : string)
         (development : bool) (create : JsVal -> ChatApi.Upstream)
         (req : ChatApi.Request) (items : list JsVal),
    ChatApi.method req = "POST" ->
    get (ChatApi.body req) "messages" = Some (JArr items) ->
    let stream := create (JArr items) in
    let res :=
      ChatApi.response
        (ChatApi.handler JSON_stringify destructuring_message development
           create req ChatApi.fresh) in
    let events := delta_events JSON_stringify (ChatApi.chunks stream) in
    match ChatApi.failure stream with
    | None => ChatApi.written res = (events ++ [ChatApi.DONE])%list
    | Some _ =>
        (events <> [] /\
         ChatApi.written res
         = (events ++
            [ChatApi.event
               (JSON_stringify (JObj [("error", JStr "Stream error occurred")]));
             ChatApi.DONE])%list /\
         ChatApi.statusCode res = 200 /\
         ChatApi.jsonBody res = None)
        \/
        (events = [] /\
         ChatApi.written res = [] /\
         400 <= ChatApi.statusCode res /\
         ChatApi.jsonBody res <> None)
    end.
Proof.
  intros stringify dmsg dev create req items Hpost Hmessages stream res events.
  subst res. rewrite (handler_streams _ _ _ _ _ _ Hpost Hmessages).
  cbn [ChatApi.response]. rewrite forward_writes. fold stream. fold events.
  destruct (ChatApi.failure stream) as [error |]; [| reflexivity].
  match goal with
  | |- context [ChatApi.failed ?s ?d ?e ?r] =>
      set (opened := r);
      pose proof (failed_ends s d e opened) as Hf; cbn zeta in Hf;
      destruct Hf as (_ & _ & Hf)
  end.
  assert (Hsent : ChatApi.headersSent opened
                  = existsb is_delta (ChatApi.chunks stream)) by reflexivity.
  assert (Hwritten : ChatApi.written opened = events) by reflexivity.
  assert (Hstatus : ChatApi.statusCode opened = 200) by reflexivity.
  assert (Hjson : ChatApi.jsonBody opened = None) by reflexivity.
  rewrite Hsent, Hwritten, Hstatus, Hjson in Hf. clearbody opened.
  destruct (existsb is_delta (ChatApi.chunks stream)) eqn:Hd.
  - left. destruct Hf as (Hw & Hs & Hj). split; [| auto].
    subst events. unfold delta_events. intros E.
    apply map_eq_nil in E. clear - E Hd.
    induction (ChatApi.chunks stream) as [| chunk rest IH]; [discriminate Hd |].
    cbn [filter existsb] in *. destruct (is_delta chunk); [discriminate E |].
    apply IH; assumption.
  - right. destruct Hf as (Hw & Hj & Hs).
    pose proof (no_delta_no_event stringify _ Hd) as He. fold events in He.
    rewrite He in Hw. auto.
Qed.

Lemma deltas_are_forwarded_in_order_witness :
  ChatApi.written
    (ChatApi.response
       (ChatApi.handler Calls.stringify "" false Calls.answers Calls.ask
          ChatApi.fresh))
  = (delta_events Calls.stringify
       [ChatApi.mkChunk "content_block_delta" (JStr "Bon");
        ChatApi.mkChunk "content_block_delta" (JStr "jour")]
     ++ [ChatApi.DONE])%list.
Proof.
  apply (deltas_are_forwarded_in_order Calls.stringify "" false Calls.answers
           Calls.ask
           [JObj [("role", JStr "user"); ("content", JStr "Hi")]]);
    reflexivity.
Defined.

(** X26.  In production the answer does not leak the error of the
    model API.  Two model behaviours that yield the same chunks, and
    fail or not alike up to the text of the error message (the messages
    holding the same ones of the codes 401, 429 and 413), get the same
    response, whatever the request. *)
Theorem production_answer_hides_the_error_message :
  forall (JSON_stringify : JsVal -> string) (destructuring_message : string)
         (create1 create2 : JsVal -> ChatApi.Upstream) (req : ChatApi.Request),
    (forall messages,
        ChatApi.chunks (create1 messages) = ChatApi.chunks (create2 messages)) ->
    (forall messages,
        same_kind (ChatApi.failure (create1 messages))
                  (ChatApi.failure (create2 messages))) ->
    ChatApi.handler JSON_stringify destructuring_message false create1 req
      ChatApi.fresh
    = ChatApi.handler JSON_stringify destructuring_message false create2 req
        ChatApi.fresh.
Proof.
  intros stringify dmsg create1 create2 req Hchunks Hkind.
  unfold ChatApi.handler.
  destruct (String.eqb (ChatApi.method req) "OPTIONS"); [reflexivity |].
  destruct (negb (String.eqb (ChatApi.method req) "POST")); [reflexivity |].
  destruct (get (ChatApi.body req) "messages") as [messages |]; [| reflexivity].
  destruct (negb (truthy messages) || negb (isArray messages)); [reflexivity |].
  rewrite <- Hchunks. specialize (Hkind messages).
  destruct (ChatApi.failure (create1 messages)) as [[m1 |] |],
           (ChatApi.failure (create2 messages)) as [[m2 |] |];
    cbn in Hkind; try contradiction; try reflexivity.
  destruct Hkind as (H401 & H429 & H413).
  f_equal. unfold ChatApi.failed. rewrite H401, H429, H413. reflexivity.
Qed.

Lemma production_answer_hides_the_error_message_witness :
  ChatApi.handler Calls.stringify "" false Calls.rejects Calls.ask ChatApi.fresh
  = ChatApi.handler Calls.stringify "" false Calls.rejects_too Calls.ask
      ChatApi.fresh.
Proof.
  apply (production_answer_hides_the_error_message Calls.stringify ""
           Calls.rejects Calls.rejects_too Calls.ask).
  - intros messages. reflexivity.
  - intros messages. cbn. repeat split.
Defined.

(* ================================================================== *)
(** ** Further properties: the city of a batch (later revision of ChatMessage) *)
(* ================================================================== *)

Lemma ends_with_space_suffix pre s :
  ends_with_space (pre ++ s) = false -> ends_with_space s = false.
Proof.
  induction pre as [| c pre IH]; [auto |].
  change (String c pre ++ s) with (String c (pre ++ s)).
  cbn [ends_with_space]. destruct (pre ++ s) eqn:E.
  - destruct pre; [| discriminate E]. simpl in E. subst s. reflexivity.
  - exact IH.
Qed.

Lemma all_chars_suffix p pre s :
  all_chars p (pre ++ s) = true -> all_chars p s = true.
Proof.
  induction pre as [| c pre IH]; simpl; [auto |].
  intros H. apply andb_prop in H. apply IH, H.
Qed.

(** What is left after the leading word has no white space in front,
    and is the end of the text it was taken from. *)
Lemma leading_word_rest s rest caps :
  Regex.match_here ChatMessageLater.leading_word s = Some (rest, caps) ->
  starts_with_space rest = false /\ exists pre, s = pre ++ rest.
Proof.
  unfold Regex.match_here, ChatMessageLater.leading_word. intros H.
  apply run_seq_cons in H. destruct H as (pre1 & s1 & caps1 & -> & H & _).
  cbn [Regex.seq fold_right Regex.run] in H.
  destruct s1 as [| c s1]; [discriminate H |].
  destruct (is_space c); [| discriminate H].
  rewrite (star_greedy_takes_all _ _ is_space (fun s'' => (s'', caps1))
             (fun x => x)) in H.
  inversion H; subst; clear H. split; [apply skip_spaces_no_leading |].
  assert (Hskip : forall t, exists q, t = q ++ skip is_space t).
  { induction t as [| d t [q IH]]; [exists ""; reflexivity |].
    simpl. destruct (is_space d); [| exists ""; reflexivity].
    exists (String d q). simpl. f_equal. exact IH. }
  destruct (Hskip s1) as [q Hq].
  exists (pre1 ++ String c q). rewrite append_assoc. simpl. rewrite <- Hq.
  reflexivity.
Qed.

Lemma remove_at_start_trimmed p s :
  trimmed s -> all_chars p s = true ->
  trimmed (RegexOps.remove_at_start ChatMessageLater.leading_word s) /\
  all_chars p (RegexOps.remove_at_start ChatMessageLater.leading_word s) = true.
Proof.
  intros [Hstart Hend] Hp. unfold RegexOps.remove_at_start.
  destruct (Regex.match_here ChatMessageLater.leading_word s)
    as [[rest caps] |] eqn:E; [| repeat split; assumption].
  apply leading_word_rest in E. destruct E as (Hrest & pre & ->).
  repeat split.
  - exact Hrest.
  - eapply ends_with_space_suffix. exact Hend.
  - eapply all_chars_suffix. exact Hp.
Qed.

(** A match of the trailing word reaches the end of the text. *)
Lemma trailing_word_rest s rest caps :
  Regex.match_here ChatMessageLater.trailing_word s = Some (rest, caps) ->
  rest = "".
Proof.
  unfold Regex.match_here, ChatMessageLater.trailing_word. intros H.
  apply run_seq_cons in H. destruct H as (pre1 & s1 & caps1 & -> & H & _).
  apply run_seq_cons in H. destruct H as (pre2 & s2 & caps2 & -> & H & _).
  cbn [Regex.seq fold_right Regex.run] in H.
  destruct s2; [| discriminate H]. inversion H. reflexivity.
Qed.

(** White space in front of a match of the trailing word belongs to a
    match too. *)
Lemma trailing_word_extends c s x :
  is_space c = true ->
  Regex.match_here ChatMessageLater.trailing_word s = Some x ->
  Regex.match_here ChatMessageLater.trailing_word (String c s) <> None.
Proof.
  unfold Regex.match_here, ChatMessageLater.trailing_word.
  cbn [Regex.seq fold_right].
  change (Regex.run (string * Regex.Caps)
            (Regex.Seq (Regex.Plus is_space) ?r) ?t ?caps ?k)
    with (Regex.run (string * Regex.Caps) (Regex.Plus is_space) t caps
            (fun s' caps' => Regex.run (string * Regex.Caps) r s' caps' k)).
  intros Hc H. cbn [Regex.run] in H |- *. rewrite Hc.
  destruct s as [| d s]; [discriminate H |].
  destruct (is_space d) eqn:Hd; [| discriminate H].
  cbn [Regex.star_greedy]. rewrite Hd, H. discriminate.
Qed.

Lemma remove_first_keeps p :
  forall s,
    all_chars p s = true ->
    all_chars p (RegexOps.remove_first ChatMessageLater.trailing_word s) = true.
Proof.
  induction s as [| c s IH]; intros Hp; cbn [RegexOps.remove_first].
  - destruct (Regex.match_here ChatMessageLater.trailing_word "")
      as [[rest caps] |] eqn:E; [| reflexivity].
    apply trailing_word_rest in E. subst rest. reflexivity.
  - destruct (Regex.match_here ChatMessageLater.trailing_word (String c s))
      as [[rest caps] |] eqn:E.
    + apply trailing_word_rest in E. subst rest. reflexivity.
    + simpl in Hp. apply andb_prop in Hp. destruct Hp as [Hc Hs].
      simpl. rewrite Hc. apply IH. exact Hs.
Qed.

Lemma remove_first_head s :
  starts_with_space s = false ->
  starts_with_space (RegexOps.remove_first ChatMessageLater.trailing_word s)
  = false.
Proof.
  destruct s as [| c s]; intros H; cbn [RegexOps.remove_first].
  - destruct (Regex.match_here ChatMessageLater.trailing_word "")
      as [[rest caps] |] eqn:E; [| reflexivity].
    apply trailing_word_rest in E. subst rest. reflexivity.
  - destruct (Regex.match_here ChatMessageLater.trailing_word (String c s))
      as [[rest caps] |] eqn:E.
    + apply trailing_word_rest in E. subst rest. reflexivity.
    + exact H.
Qed.

(** The leftmost match is removed, so no white space is left in front
    of it. *)
Lemma remove_first_tail :
  forall s,
    ends_with_space s = false ->
    ends_with_space (RegexOps.remove_first ChatMessageLater.trailing_word s)
    = false.
Proof.
  induction s as [| c s IH]; intros H; cbn [RegexOps.remove_first].
  - destruct (Regex.match_here ChatMessageLater.trailing_word "")
      as [[rest caps] |] eqn:E; [| reflexivity].
    apply trailing_word_rest in E. subst rest. reflexivity.
  - destruct (Regex.match_here ChatMessageLater.trailing_word (String c s))
      as [[rest caps] |] eqn:E.
    + apply trailing_word_rest in E. subst rest. reflexivity.
    + destruct s as [| d s'].
      * cbn [RegexOps.remove_first].
        destruct (Regex.match_here ChatMessageLater.trailing_word "")
          as [[rest caps] |] eqn:E0; [discriminate E0 | exact H].
      * assert (Hs : ends_with_space (String d s') = false) by exact H.
        specialize (IH Hs).
        destruct (RegexOps.remove_first ChatMessageLater.trailing_word (String d s'))
          as [| e out] eqn:Hout.
        -- cbn [ends_with_space].
           destruct (is_space c) eqn:Hc; [| reflexivity].
           cbn [RegexOps.remove_first] in Hout.
           destruct (Regex.match_here ChatMessageLater.trailing_word (String d s'))
             as [x |] eqn:Ex; [| discriminate Hout].
           exfalso. exact (trailing_word_extends c _ x Hc Ex E).
        -- exact IH.
Qed.

(** X27.  The city of a batch.  Whenever [extractCityName] returns, the
    city has no white space at either end; and when the location has no
    [city] of its own, so that the city is taken from its name, the city
    holds no comma. *)
Theorem extracted_city_is_trimmed :
  forall (location : Location) (cityName : string),
    ChatMessageLater.extractCityName location = Some cityName ->
    trimmed cityName /\
    (truthy (city location) = false ->
     all_chars (Regex.none_of [","%char]) cityName = true).
Proof.
  intros location cityName. unfold ChatMessageLater.extractCityName.
  destruct (truthy (city location)) eqn:Hcity.
  - destruct (city location); try discriminate.
    intros H. inversion H. split; [apply trim_trimmed | discriminate].
  - destruct (name location) as [| | b | n | s | items | fields]; try discriminate.
    assert (Hpart : all_chars (Regex.none_of [","%char])
                      (trim (App.before_comma s)) = true).
    { apply all_chars_trim. clear. induction s as [| c s IH]; [reflexivity |].
      simpl. destruct (Ascii.eqb c ",") eqn:E; [reflexivity |].
      simpl. unfold Regex.none_of at 1. simpl. rewrite E. exact IH. }
    destruct (ChatMessageLater.has_comma s); intros H; inversion H; subst.
    + destruct (remove_at_start_trimmed _ _ (trim_trimmed _) Hpart)
        as ([H1 H2] & H3).
      split; [split |].
      * apply remove_first_head. exact H1.
      * apply remove_first_tail. exact H2.
      * intros _. apply remove_first_keeps. exact H3.
    + split; [apply trim_trimmed | intros _; exact Hpart].
Qed.

Lemma extracted_city_is_trimmed_witness :
  ChatMessageLater.extractCityName Named.marais = Some "Marais" /\
  trimmed "Marais".
Proof.
  split; [reflexivity |].
  apply (extracted_city_is_trimmed Named.marais "Marais"). reflexivity.
Defined.

(* ================================================================== *)
(** ** Further properties: what the removal of URLs leaves (ChatMessage.tsx) *)
(* ================================================================== *)

(** A match of the URL pattern holds a colon and two slashes. *)
Lemma url_needs_a_scheme s x :
  Regex.match_here ChatMessageText.url s = Some x ->
  includes "://" s = true.
Proof.
  unfold Regex.match_here, ChatMessageText.url. intros H.
  apply run_seq_cons in H. destruct H as (pre1 & s1 & caps1 & -> & H & _).
  apply includes_app.
  apply run_seq_cons in H. destruct H as (pre2 & s2 & caps2 & -> & H & _).
  apply includes_app.
  cbn [Regex.seq fold_right] in H.
  change (Regex.run (string * Regex.Caps) (Regex.Seq (Regex.Lit "://") ?r) ?t ?caps ?k)
    with (match Regex.strip_prefix "://" t with
          | Some t' => Regex.run (string * Regex.Caps) r t' caps k
          | None => None
          end) in H.
  destruct s2 as [| c s2]; [discriminate H |].
  cbn [includes].
  destruct (Regex.strip_prefix "://" (String c s2)); [reflexivity | discriminate H].
Qed.

Lemma remove_urls_without_scheme :
  forall fuel prev s,
    includes "://" s = false -> ChatMessageText.remove_urls fuel prev s = s.
Proof.
  induction fuel as [| fuel IH]; intros prev s H; [reflexivity |].
  cbn [ChatMessageText.remove_urls].
  assert (Hnone : (if match prev with
                      | Some p => negb (ChatMessageText.word_char p)
                      | None => true
                      end
                   then Regex.match_here ChatMessageText.url s
                   else None) = None).
  { destruct (match prev with
              | Some p => negb (ChatMessageText.word_char p)
              | None => true
              end); [| reflexivity].
    destruct (Regex.match_here ChatMessageText.url s) as [x |] eqn:E;
      [| reflexivity].
    apply url_needs_a_scheme in E. congruence. }
  rewrite Hnone. destruct s as [| c s]; [reflexivity |].
  f_equal. apply IH. eapply includes_tail. exact H.
Qed.

(** X28.  A reply that holds no colon followed by two slashes loses
    nothing to the removal of URLs: what is shown of it is the reply
    with its white space normalised and its ends trimmed. *)
Theorem text_without_urls_is_only_normalised :
  forall textContent : string,
    includes "://" textContent = false ->
    ChatMessageText.cleaned textContent
    = trim (RegexOps.replace_all (Regex.Plus is_space) " " textContent).
Proof.
  intros textContent H. unfold ChatMessageText.cleaned.
  rewrite (remove_urls_without_scheme _ _ _ H). reflexivity.
Qed.

Lemma text_without_urls_is_only_normalised_witness :
  ChatMessageText.cleaned (String " " (String "a" (String Regex.LF "b. "))) = "a b.".
Proof.
  apply (text_without_urls_is_only_normalised
           (String " " (String "a" (String Regex.LF "b. ")))).
  reflexivity.
Defined.

(* ================================================================== *)
(** ** Further properties: the two JSON parsers on the same text *)
(* ================================================================== *)

Lemma star_greedy_same_rest A B p (k1 : string -> option (string * A))
  (k2 : string -> option (string * B)) :
  (forall s, option_map fst (k1 s) = option_map fst (k2 s)) ->
  forall s,
    option_map fst (Regex.star_greedy _ p s k1)
    = option_map fst (Regex.star_greedy _ p s k2).
Proof.
  intros Hk. induction s as [| c s IH]; simpl; [apply Hk |].
  destruct (p c); [| apply Hk].
  destruct (Regex.star_greedy _ p s k1), (Regex.star_greedy _ p s k2);
    simpl in IH; try discriminate IH; [exact IH | apply Hk].
Qed.

Lemma star_lazy_same_rest A B p (k1 : string -> option (string * A))
  (k2 : string -> option (string * B)) :
  (forall s, option_map fst (k1 s) = option_map fst (k2 s)) ->
  forall s,
    option_map fst (Regex.star_lazy _ p s k1)
    = option_map fst (Regex.star_lazy _ p s k2).
Proof.
  intros Hk. induction s as [| c s IH]; simpl.
  - specialize (Hk ""). destruct (k1 ""), (k2 ""); simpl in Hk;
      try discriminate Hk; [exact Hk | reflexivity].
  - pose proof (Hk (String c s)) as Hc.
    destruct (k1 (String c s)), (k2 (String c s)); simpl in Hc;
      try discriminate Hc; [exact Hc |].
    destruct (p c); [exact IH | reflexivity].
Qed.

(** Capturing groups do not change what a pattern matches. *)
Lemma run_erase A B r :
  forall s caps1 caps2
         (k1 : string -> Regex.Caps -> option (string * A))
         (k2 : string -> Regex.Caps -> option (string * B)),
    (forall s' c1 c2, option_map fst (k1 s' c1) = option_map fst (k2 s' c2)) ->
    option_map fst (Regex.run _ r s caps1 k1)
    = option_map fst (Regex.run _ (erase r) s caps2 k2).
Proof.
  induction r as [| c | w | p | p | p | p | p | r1 IH1 r2 IH2 | r1 IH1 r2 IH2
                  | j r1 IH1 |];
    intros s caps1 caps2 k1 k2 Hk; cbn [erase Regex.run].
  - apply Hk.
  - destruct s as [| c' s]; [reflexivity |].
    destruct (Ascii.eqb c c'); [apply Hk | reflexivity].
  - destruct (Regex.strip_prefix w s); [apply Hk | reflexivity].
  - destruct s as [| c' s]; [reflexivity |].
    destruct (p c'); [apply Hk | reflexivity].
  - apply star_greedy_same_rest. intros s'. apply Hk.
  - destruct s as [| c' s]; [reflexivity |].
    destruct (p c'); [| reflexivity].
    apply star_greedy_same_rest. intros s'. apply Hk.
  - apply star_lazy_same_rest. intros s'. apply Hk.
  - destruct s as [| c' s]; [reflexivity |].
    destruct (p c'); [| reflexivity].
    apply star_lazy_same_rest. intros s'. apply Hk.
  - apply IH1. intros s' c1 c2. apply IH2. exact Hk.
  - pose proof (IH1 s caps1 caps2 k1 k2 Hk) as H1.
    destruct (Regex.run _ r1 s caps1 k1), (Regex.run _ (erase r1) s caps2 k2);
      simpl in H1; try discriminate H1; [exact H1 |].
    apply IH2. exact Hk.
  - apply IH1. intros s' c1 c2. apply Hk.
  - destruct s; [apply Hk | reflexivity].
Qed.

Lemma search_erase r :
  forall s,
    option_map Regex.m_text (Regex.search r s)
    = option_map Regex.m_text (Regex.search (erase r) s).
Proof.
  assert (Hhere : forall s,
             option_map fst (Regex.match_here r s)
             = option_map fst (Regex.match_here (erase r) s)).
  { intros s. unfold Regex.match_here. apply run_erase. reflexivity. }
  unfold Regex.search.
  induction s as [| c s IH]; cbn [Regex.search_from]; pose proof (Hhere "") as H0.
  - destruct (Regex.match_here r "") as [[rest1 caps1] |],
             (Regex.match_here (erase r) "") as [[rest2 caps2] |];
      simpl in H0; try discriminate H0; [| reflexivity].
    inversion H0. reflexivity.
  - pose proof (Hhere (String c s)) as Hc.
    destruct (Regex.match_here r (String c s)) as [[rest1 caps1] |],
             (Regex.match_here (erase r) (String c s)) as [[rest2 caps2] |];
      simpl in Hc; try discriminate Hc.
    + inversion Hc. reflexivity.
    + exact IH.
Qed.

(** What a record is like when the strict callback accepts it. *)
Lemma json_location_accepts h loc i c l c' :
  LocationParser.json_location h loc i c = (Ok l, c') ->
  exists fields s la lo img,
    loc = JObj fields /\
    get loc "name" = Some (JStr s) /\
    get loc "coordinates" = Some (JArr [la; lo]) /\
    JsonLocation.coordinates l = JArr [la; lo] /\
    JsonLocation.name l = trim s /\
    get loc "image" = Some img /\
    (truthy img = true \/ exists u, generateImageUrl h (JStr s) = Some u).
Proof.
  intros H.
  pose proof (json_location_inv h loc i c l c' H)
    as (s & r0 & v0 & Hc & Hv & Hn & _ & _ & Hname & _).
  apply isValidCoordinates_sound in Hv. destruct Hv as (la & lo & Hpair & _).
  rewrite Hpair in Hc.
  assert (Hobj : exists fields, loc = JObj fields).
  { destruct loc; try discriminate Hc; try discriminate Hn.
    eexists. reflexivity. }
  destruct Hobj as [fields ->].
  exists fields, s, la, lo,
    (match assoc "image" fields with Some x => x | None => JUndefined end).
  repeat (split; [assumption || reflexivity |]).
  unfold LocationParser.json_location in H.
  steps_ok;
    repeat match goal with
    | H1 : get (JObj fields) ?k = Some _, H2 : get (JObj fields) ?k = Some _ |- _ =>
        rewrite H1 in H2; inversion H2; subst; clear H2
    end;
    match goal with
    | E : get (JObj fields) "image" = Some ?img |- _ =>
        rewrite get_object in E; inversion E; subst; clear E
    end;
    try (left; assumption);
    right; eexists; eassumption.
Qed.

Lemma response_location_accepts h fields s la lo img i c :
  get (JObj fields) "name" = Some (JStr s) ->
  get (JObj fields) "coordinates" = Some (JArr [la; lo]) ->
  get (JObj fields) "image" = Some img ->
  (truthy img = true \/ exists u, generateImageUrl h (JStr s) = Some u) ->
  exists l c',
    LocationParser.response_location h (JObj fields) i c = (Ok l, c') /\
    position l = mkPosition la lo /\ name l = JStr s.
Proof.
  intros Hn Hc Hi His.
  unfold LocationParser.response_location.
  erewrite bind_ok by reflexivity.
  rewrite Hn. cbn [or_throw]. erewrite bind_ok by reflexivity.
  rewrite Hc. cbn [or_throw]. erewrite bind_ok by reflexivity.
  cbn [get_index nth or_throw].
  erewrite bind_ok by reflexivity. erewrite bind_ok by reflexivity.
  rewrite (get_object fields "rating"), (get_object fields "reviews").
  cbn [or_throw].
  erewrite bind_ok by reflexivity. erewrite bind_ok by reflexivity.
  set (reviews0 := match assoc "reviews" fields with
                   | Some x => x
                   | None => JUndefined
                   end).
  assert (Hrev : exists v c1,
             (if truthy reviews0 then ret reviews0
              else r <- random h ;; ret (JNum (num (random_reviews r))))
               (mkCalls (S (clock_reads c)) (random_draws c)) = (Ok v, c1)).
  { destruct (truthy reviews0); do 2 eexists; reflexivity. }
  destruct Hrev as (v & c1 & Hrev).
  erewrite bind_ok by exact Hrev.
  rewrite Hi. cbn [or_throw]. erewrite bind_ok by reflexivity.
  assert (Himg : exists u,
             (if truthy img then ret img
              else or_throw CollaboratorError (generateImageUrl h (JStr s))) c1
             = (Ok u, c1)).
  { destruct His as [-> | [u Hu]]; [eexists; reflexivity |].
    destruct (truthy img); [eexists; reflexivity |].
    rewrite Hu. eexists; reflexivity. }
  destruct Himg as (u & Himg).
  erewrite bind_ok by exact Himg.
  rewrite (get_object fields "description"). cbn [or_throw].
  erewrite bind_ok by reflexivity.
  set (d := match assoc "description" fields with
            | Some x => x
            | None => JUndefined
            end).
  assert (Hdesc : exists t,
             (if truthy d then ret d
              else s0 <- to_string h (JStr s) ;; ret (JStr ("Visit " ++ s0))) c1
             = (Ok t, c1)).
  { destruct (truthy d); eexists; reflexivity. }
  destruct Hdesc as (t & Hdesc).
  erewrite bind_ok by exact Hdesc.
  do 2 eexists. split; [reflexivity |]. split; reflexivity.
Qed.

Lemma mapped_In {A B} (f : A -> nat -> M B) i l bs :
  mapped f i l bs ->
  forall a, In a l -> exists j c b c', f a j c = (Ok b, c').
Proof.
  induction 1 as [| i a b l bs c c' Hf _ IH]; intros x Hin; [contradiction |].
  destruct Hin as [<- | Hin]; [eauto | apply IH; exact Hin].
Qed.

Lemma Forall2_through {A B C} (P : A -> B -> Prop) (Q : A -> C -> Prop)
  (R : B -> C -> Prop) :
  (forall a b c, P a b -> Q a c -> R b c) ->
  forall l bs cs, Forall2 P l bs -> Forall2 Q l cs -> Forall2 R bs cs.
Proof.
  intros H l bs cs HP. revert cs.
  induction HP as [| a b l bs Hab _ IH]; intros cs HQ; inversion HQ; subst;
    constructor; eauto.
Qed.

(** When the permissive parser finds a block, the strict parser reads
    the same block. *)
Lemma payloads_agree h text :
  response_payload h text <> [] ->
  json_payload h text = response_payload h text.
Proof.
  unfold response_payload, json_payload, LocationParser.patterns.
  cbn [LocationParser.first_parsed].
  pose proof (search_erase LocationParser.locations_block_captured text) as He.
  change (erase LocationParser.locations_block_captured)
    with LocationParser.locations_block in He.
  destruct (Regex.search LocationParser.locations_block_captured text)
    as [m' |]; [| intros H; exfalso; apply H; reflexivity].
  destruct (Regex.search LocationParser.locations_block text) as [m |];
    [| discriminate He].
  simpl in He. inversion He as [Htext]. first [rewrite <- Htext | rewrite Htext].
  destruct (JSON_parse h (Regex.m_text m)) as [data |];
    [| intros H; exfalso; apply H; reflexivity].
  destruct (get data "locations") as [[| | b | n | s | items | fields] |];
    intros H; try reflexivity; exfalso; apply H; reflexivity.
Qed.

(** X29.  The strict and the permissive parser agree on what the strict
    one accepts.  When [parseJsonLocations] returns for a text in which
    [extractLocationsFromResponse] finds a non-empty [locations] array,
    [extractLocationsFromResponse] returns as many locations, in the same
    order, each with the same coordinates and the same name up to
    trimming. *)
Theorem strict_and_permissive_parsers_agree :
  forall (h : Host) (text : string) (c : Calls)
         (locs : list JsonLocation.t) (c' : Calls),
    LocationParser.parseJsonLocations h text c = (Ok locs, c') ->
    response_payload h text <> [] ->
    exists ls c'',
      LocationParser.extractLocationsFromResponse h text c = (Ok ls, c'') /\
      Forall2 (fun jl l =>
                 JsonLocation.coordinates jl
                 = JArr [lat (position l); lng (position l)] /\
                 exists s, name l = JStr s /\ JsonLocation.name jl = trim s)
              locs ls.
Proof.
  intros h text c locs c' Hstrict Hfound.
  apply parseJsonLocations_inv in Hstrict.
  fold (json_payload h text) in Hstrict.
  rewrite (payloads_agree h text Hfound) in Hstrict.
  destruct (extract_of_payload h
              (fun a l =>
                 exists fields s la lo,
                   a = JObj fields /\
                   get a "name" = Some (JStr s) /\
                   get a "coordinates" = Some (JArr [la; lo]) /\
                   position l = mkPosition la lo /\ name l = JStr s)
              text c) as (ls & c'' & Hls & HF).
  { intros a Hin i c0.
    destruct (mapped_In _ _ _ _ Hstrict a Hin) as (j & c1 & jl & c2 & Hjl).
    apply json_location_accepts in Hjl.
    destruct Hjl as (fields & s & la & lo & img & -> & Hn & Hc & _ & _ & Hi & His).
    destruct (response_location_accepts h fields s la lo img i c0 Hn Hc Hi His)
      as (l & c3 & Hl & Hpos & Hname).
    exists l, c3. split; [exact Hl |]. exists fields, s, la, lo. auto. }
  exists ls, c''. split; [exact Hls |].
  eapply Forall2_through; [| | exact HF].
  2:{ eapply mapped_Forall2; [| exact Hstrict].
      intros a i c0 jl c1 Hjl. exact (json_location_accepts h a i c0 jl c1 Hjl). }
  intros a jl l (fields & s & la & lo & img & -> & Hn & Hc & Hcoords & Hname & _)
         (fields' & s' & la' & lo' & _ & Hn' & Hc' & Hpos & Hname').
  rewrite Hn in Hn'. inversion Hn'; subst s'.
  rewrite Hc in Hc'. inversion Hc'; subst la' lo'.
  rewrite Hpos. simpl. split; [exact Hcoords |]. exists s. auto.
Qed.

Lemma strict_and_permissive_parsers_agree_witness :
  exists locs ls c' c'',
    LocationParser.parseJsonLocations Demo.host Texts.two_places start
      = (Ok locs, c') /\
    LocationParser.extractLocationsFromResponse Demo.host Texts.two_places start
      = (Ok ls, c'') /\
    length locs = 2 /\
    Forall2 (fun jl l =>
               JsonLocation.coordinates jl
               = JArr [lat (position l); lng (position l)] /\
               exists s, name l = JStr s /\ JsonLocation.name jl = trim s)
            locs ls.
Proof.
  destruct (LocationParser.parseJsonLocations Demo.host Texts.two_places start)
    as [[locs | e] c'] eqn:Hstrict; [| vm_compute in Hstrict; discriminate Hstrict].
  destruct (strict_and_permissive_parsers_agree Demo.host Texts.two_places start
              locs c' Hstrict)
    as (ls & c'' & Hls & HF).
  { vm_compute. discriminate. }
  exists locs, ls, c', c''. repeat split; try assumption.
  vm_compute in Hstrict. inversion Hstrict. reflexivity.
Defined.

(* ================================================================== *)
(** ** Further properties: text in front of the block *)
(* ================================================================== *)

Lemma search_from_skips r (p : ascii -> bool) :
  (forall c s, p c = true -> Regex.match_here r (String c s) = None) ->
  forall prose rest,
    all_chars p prose = true ->
    Regex.search_from r (prose ++ rest) = Regex.search_from r rest.
Proof.
  intros Hp prose rest. induction prose as [| c prose IH]; intros H; [reflexivity |].
  simpl in H. apply andb_prop in H. destruct H as [Hc Hprose].
  cbn [append Regex.search_from]. rewrite (Hp c _ Hc). apply IH. exact Hprose.
Qed.

Lemma block_starts_with_a_brace c s :
  negb (Ascii.eqb "{" c) = true ->
  Regex.match_here LocationParser.locations_block (String c s) = None /\
  Regex.match_here LocationParser.single_location (String c s) = None /\
  Regex.match_here LocationParser.locations_block_captured (String c s) = None.
Proof.
  intros H. apply negb_true_iff in H.
  unfold Regex.match_here, LocationParser.locations_block,
    LocationParser.single_location, LocationParser.locations_block_captured.
  cbn [Regex.seq fold_right Regex.run]. rewrite H. auto.
Qed.

(** X30.  Both JSON parsers look for the block wherever it starts: text
    in front of it that holds no opening brace changes nothing, neither
    what [extractLocationsFromResponse] and [parseJsonLocations] return
    or throw, nor what they read of the clock and the random source. *)
Theorem prose_before_the_block_is_skipped :
  forall (h : Host) (prose rest : string) (c : Calls),
    all_chars (fun ch => negb (Ascii.eqb "{" ch)) prose = true ->
    LocationParser.extractLocationsFromResponse h (prose ++ rest) c
    = LocationParser.extractLocationsFromResponse h rest c
    /\
    LocationParser.parseJsonLocations h (prose ++ rest) c
    = LocationParser.parseJsonLocations h rest c.
Proof.
  intros h prose rest c H.
  assert (Hsearch :
            forall r,
              (forall ch s, negb (Ascii.eqb "{" ch) = true ->
                            Regex.match_here r (String ch s) = None) ->
              Regex.search r (prose ++ rest) = Regex.search r rest).
  { intros r Hr. unfold Regex.search.
    rewrite (search_from_skips r _ Hr prose rest H). reflexivity. }
  split.
  - unfold LocationParser.extractLocationsFromResponse.
    rewrite Hsearch; [reflexivity |].
    intros ch s Hch. apply (block_starts_with_a_brace ch s Hch).
  - unfold LocationParser.parseJsonLocations, LocationParser.patterns.
    cbn [LocationParser.first_parsed].
    rewrite !Hsearch; [reflexivity | |];
      intros ch s Hch; apply (block_starts_with_a_brace ch s Hch).
Qed.

Lemma prose_before_the_block_is_skipped_witness :
  LocationParser.extractLocationsFromResponse Demo.host
    ("Two places to see: " ++ Texts.two_places) start
  = LocationParser.extractLocationsFromResponse Demo.host Texts.two_places start.
Proof.
  apply (prose_before_the_block_is_skipped Demo.host "Two places to see: "
           Texts.two_places start).
  reflexivity.
Defined.
